(** * Canadian mortgage amortizer: the calculation engine of [lib/mortgage.ts]

    A shallow embedding of the engine and the proofs of its specification.

    Numbers.  A JavaScript [number] that holds an amount of money or a rate is
    read as a rational ([Q], compared with [==]); one that holds a payment
    index, a count or a day number is read as an integer ([Z]).  Arithmetic is
    exact in this reading: rounding of binary floating point is outside of
    it, and so are the non-finite values ([x / 0] is [0] in [Q], it is
    [Infinity] or [NaN] in JavaScript; the only division of the engine whose
    divisor comes from the input is the one of [calculatePayment]).  Where a
    property turns on the rounding, the engine is read once more with
    binary64 numbers, in the module [Binary64].

    [Math.pow] is implementation-approximated in ECMAScript; the embedding takes
    it as a parameter [Math_pow] of the engine.  [pow_approx] is one such
    function, exact at integer exponents. *)

From Stdlib Require Import ZArith QArith Qround Qpower Qminmax Qreduction Qcanon.
From Stdlib Require Import Lia Lqa List Bool String Ascii DecimalString Permutation.
From Stdlib Require DecimalZ DecimalPos.
From Stdlib Require PrimFloat FloatOps SpecFloat FloatAxioms.
Import ListNotations.

Set Warnings "-inexact-float".

Open Scope Q_scope.

(** ** Numbers *)

(** [norm] keeps a fraction in lowest terms.  It is the identity up to [==] and
    only bounds the size of the representation along a run. *)
Definition norm (x : Q) : Q := Qred x.

Definition Qltb (x y : Q) : bool := negb (Qle_bool y x).

(** [Math.round]: the nearest integer, halves rounded up. *)
Definition Math_round (x : Q) : Z := Qfloor (x + (1 # 2)).

(** [Math.floor]. *)
Definition Math_floor (x : Q) : Z := Qfloor x.

(** [Math.min] and [Math.max] on two arguments. *)
Definition Math_min (x y : Q) : Q := Qmin x y.
Definition Math_max (x y : Q) : Q := Qmax x y.

(** [n.toString()] and string interpolation of an integer. *)
Definition Z_toString (n : Z) : string := NilZero.string_of_int (Z.to_int n).

(** Errors raised with [throw new Error(msg)]. *)
Inductive result (A : Type) : Type :=
| Ok (a : A)
| Throw (msg : string).
Arguments Ok {A} a.
Arguments Throw {A} msg.

Definition bind {A B : Type} (r : result A) (k : A -> result B) : result B :=
  match r with
  | Ok a => k a
  | Throw msg => Throw msg
  end.

Definition is_Throw {A : Type} (r : result A) : bool :=
  match r with
  | Ok _ => false
  | Throw _ => true
  end.

(** ** An executable [Math.pow]

    The largest [x] with [x ^ d <= N], by bisection on [lo, hi). *)
Fixpoint iroot_search (fuel : nat) (d : positive) (N lo hi : Z) : Z :=
  match fuel with
  | O => lo
  | S fuel' =>
      if (hi - lo <=? 1)%Z then lo
      else
        let mid := ((lo + hi) / 2)%Z in
        if (mid ^ Zpos d <=? N)%Z
        then iroot_search fuel' d N mid hi
        else iroot_search fuel' d N lo mid
  end.

Definition iroot (d : positive) (N : Z) : Z :=
  let bits := (Z.log2 N / Zpos d + 1)%Z in
  iroot_search (Z.to_nat bits) d N 0 (2 ^ bits).

(** Digits kept after the decimal point at a fractional exponent. *)
Definition pow_scale : Z := 10 ^ 12.

(** [b ^ e]: exact when [e] is an integer; for [e = p / d] in lowest terms and
    [b >= 0], the [d]-th root of [b ^ p] truncated to [pow_scale], in lowest
    terms. *)
Definition pow_approx (b e : Q) : Q :=
  let e' := Qred e in
  match Qden e' with
  | xH => b ^ Qnum e'
  | d =>
      let x := b ^ Qnum e' in
      Qred (inject_Z (iroot d (Qfloor (x * inject_Z (pow_scale ^ Zpos d))))
            / inject_Z pow_scale)
  end.

(** ** The calendar

    A [Date] is a local civil day, counted from 1970-01-01; the time of day,
    which [setDate] leaves alone, is not modelled. *)
Definition Date := Z.

(** Year, month (1 to 12) and day of a day number (proleptic Gregorian). *)
Definition civil_from_days (z : Z) : Z * Z * Z :=
  let z := (z + 719468)%Z in
  let era := (z / 146097)%Z in
  let doe := (z - era * 146097)%Z in
  let yoe := ((doe - doe / 1460 + doe / 36524 - doe / 146096) / 365)%Z in
  let y := (yoe + era * 400)%Z in
  let doy := (doe - (365 * yoe + yoe / 4 - yoe / 100))%Z in
  let mp := ((5 * doy + 2) / 153)%Z in
  let d := (doy - (153 * mp + 2) / 5 + 1)%Z in
  let m := (if mp <? 10 then mp + 3 else mp - 9)%Z in
  ((if m <=? 2 then y + 1 else y)%Z, m, d).

(** The day number of a year, a month (1 to 12) and a day. *)
Definition days_from_civil (y m d : Z) : Z :=
  let y := (if m <=? 2 then y - 1 else y)%Z in
  let era := (y / 400)%Z in
  let yoe := (y - era * 400)%Z in
  let doy := ((153 * (if m >? 2 then m - 3 else m + 9) + 2) / 5 + d - 1)%Z in
  let doe := (yoe * 365 + yoe / 4 - yoe / 100 + doy)%Z in
  (era * 146097 + doe - 719468)%Z.

Definition getFullYear (d : Date) : Z := fst (fst (civil_from_days d)).

(** [getMonth] counts from 0. *)
Definition getMonth (d : Date) : Z := (snd (fst (civil_from_days d)) - 1)%Z.

Definition getDate (d : Date) : Z := snd (civil_from_days d).

(** [d.setDate(d.getDate() + n)]. *)
Definition addDays (d : Date) (n : Z) : Date := (d + n)%Z.

(** ** [types/mortgage.ts] *)

Inductive PaymentFrequency : Type :=
| monthly
| bi_weekly
| weekly
| accelerated_bi_weekly.

Record RenewalPeriod : Type := mkRenewalPeriod {
  rp_startPayment : Z;
  rp_annualRate : Q;
  rp_termYears : Q
}.

Inductive AdditionalPaymentType : Type :=
| one_time
| recurring.

Record AdditionalPayment : Type := mkAdditionalPayment {
  ap_type : AdditionalPaymentType;
  ap_amount : Q;
  ap_startPayment : Z;
  ap_endPayment : option Z;
  ap_frequency : option Z;
  ap_enabled : option bool
}.

Inductive ResetPeriod : Type :=
| calendar
| anniversary.

Record PrepaymentLimits : Type := mkPrepaymentLimits {
  lumpSumLimitPercent : Q;
  paymentIncreaseLimitPercent : Q;
  resetPeriod : ResetPeriod
}.

Record MortgageParams : Type := mkMortgageParams {
  purchasePrice : Q;
  downPaymentPercent : Q;
  additionalFinancing : Q;
  cmhcPstRate : Q;
  principal : Q;
  amortizationYears : Q;
  paymentFrequency : PaymentFrequency;
  startDate : Date;
  renewalPeriods : list RenewalPeriod;
  additionalPayments : list AdditionalPayment;
  prepaymentLimits : option PrepaymentLimits
}.

Record PaymentDetail : Type := mkPaymentDetail {
  pd_paymentNumber : Z;
  pd_paymentDate : Date;
  pd_payment : Q;
  pd_principal : Q;
  pd_interest : Q;
  pd_additionalPayment : Q;
  pd_balance : Q;
  pd_interestRate : Q;
  pd_termNumber : Z;
  pd_exceedsLimit : option bool
}.

Record InsuranceDetails : Type := mkInsuranceDetails {
  ins_downPayment : Q;
  ins_mortgageAmount : Q;
  ins_cmhcPremiumRate : Q;
  ins_cmhcInsurance : Q;
  ins_cmhcPst : Q;
  ins_cmhcPstRate : Q;
  ins_additionalFinancing : Q;
  ins_totalPrincipal : Q
}.

Record Summary : Type := mkSummary {
  sm_purchasePrice : Q;
  sm_downPayment : Q;
  sm_downPaymentPercent : Q;
  sm_mortgageAmount : Q;
  sm_cmhcInsurance : Q;
  sm_cmhcPremiumRate : Q;
  sm_cmhcPst : Q;
  sm_cmhcPstRate : Q;
  sm_additionalFinancing : Q;
  sm_originalPrincipal : Q;
  sm_totalInterestPaid : Q;
  sm_totalPaid : Q;
  sm_totalAdditionalPayments : Q;
  sm_interestSaved : Q;
  sm_timeSaved : Q;
  sm_amortizationYears : Q;
  sm_actualPayoffMonths : Z;
  sm_paymentFrequency : PaymentFrequency;
  sm_prepaymentLimitViolations : option Z
}.

Record AmortizationSchedule : Type := mkAmortizationSchedule {
  payments : list PaymentDetail;
  totalInterest : Q;
  totalPrincipal : Q;
  totalPayments : Q;
  summary : Summary
}.

(** ** [lib/mortgage.ts]: the leaves *)

Definition getCMHCPremiumRate (downPaymentPercent : Q) : result Q :=
  if Qle_bool 20 downPaymentPercent then Ok 0
  else if Qle_bool 15 downPaymentPercent then Ok (28 # 1000)
  else if Qle_bool 10 downPaymentPercent then Ok (31 # 1000)
  else if Qle_bool 5 downPaymentPercent then Ok (4 # 100)
  else Throw "Down payment must be at least 5% for properties up to $500,000".

Definition calculateMortgageWithInsurance
  (purchasePrice downPaymentPercent additionalFinancing cmhcPstRate : Q)
  : result InsuranceDetails :=
  let downPayment := purchasePrice * (downPaymentPercent / 100) in
  let mortgageAmount := purchasePrice - downPayment in
  bind (getCMHCPremiumRate downPaymentPercent) (fun cmhcPremiumRate =>
  let cmhcInsurance := mortgageAmount * cmhcPremiumRate in
  let cmhcPst := cmhcInsurance * cmhcPstRate in
  let totalPrincipal := mortgageAmount + cmhcInsurance + cmhcPst + additionalFinancing in
  Ok {| ins_downPayment := downPayment;
        ins_mortgageAmount := mortgageAmount;
        ins_cmhcPremiumRate := cmhcPremiumRate;
        ins_cmhcInsurance := cmhcInsurance;
        ins_cmhcPst := cmhcPst;
        ins_cmhcPstRate := cmhcPstRate;
        ins_additionalFinancing := additionalFinancing;
        ins_totalPrincipal := totalPrincipal |}).

Definition getPaymentsPerYear (frequency : PaymentFrequency) : Z :=
  match frequency with
  | monthly => 12
  | bi_weekly | accelerated_bi_weekly => 26
  | weekly => 52
  end.

Definition getAdditionalPaymentStep (paymentNumber : Z) (totalAdditional : Q)
  (addlPmt : AdditionalPayment) : Q :=
  match ap_enabled addlPmt with
  | Some false => totalAdditional
  | _ =>
    if (paymentNumber <? ap_startPayment addlPmt)%Z then totalAdditional
    else if match ap_endPayment addlPmt with
            | Some endPayment =>
                negb (endPayment =? 0)%Z && (paymentNumber >? endPayment)%Z
            | None => false
            end
    then totalAdditional
    else
      match ap_type addlPmt with
      | one_time =>
          if (paymentNumber =? ap_startPayment addlPmt)%Z
          then totalAdditional + ap_amount addlPmt
          else totalAdditional
      | recurring =>
          let frequency :=
            match ap_frequency addlPmt with
            | Some f => if (f =? 0)%Z then 1%Z else f
            | None => 1%Z
            end in
          let paymentsSinceStart := (paymentNumber - ap_startPayment addlPmt)%Z in
          if (Z.rem paymentsSinceStart frequency =? 0)%Z
          then totalAdditional + ap_amount addlPmt
          else totalAdditional
      end
  end.

Definition getAdditionalPaymentAmount (paymentNumber : Z)
  (additionalPayments : list AdditionalPayment) : Q :=
  fold_left (getAdditionalPaymentStep paymentNumber) additionalPayments 0.

Definition getPeriodIdentifier (date startDate : Date) (resetPeriod : ResetPeriod)
  : string :=
  match resetPeriod with
  | calendar => Z_toString (getFullYear date)
  | anniversary =>
      let monthsSinceStart :=
        ((getFullYear date - getFullYear startDate) * 12
         + (getMonth date - getMonth startDate))%Z in
      let anniversaryYear := Math_floor (inject_Z monthsSinceStart / 12) in
      ("anniversary-" ++ Z_toString anniversaryYear)%string
  end.

Definition getDaysForPayment (paymentNumber : Z) (frequency : PaymentFrequency) : Z :=
  match frequency with
  | monthly => Math_round (inject_Z (paymentNumber - 1) * (3044 # 100))
  | bi_weekly | accelerated_bi_weekly => ((paymentNumber - 1) * 14)%Z
  | weekly => ((paymentNumber - 1) * 7)%Z
  end.

Definition getPaymentCount (years : Q) (frequency : PaymentFrequency) : Z :=
  Math_round (years * inject_Z (getPaymentsPerYear frequency)).

(** [[...renewalPeriods].sort((a, b) => a.startPayment - b.startPayment)]: a
    stable sort on the start payment. *)
Fixpoint insertPeriod (p : RenewalPeriod) (l : list RenewalPeriod) : list RenewalPeriod :=
  match l with
  | [] => [p]
  | q :: l' =>
      if (rp_startPayment p <=? rp_startPayment q)%Z then p :: l
      else q :: insertPeriod p l'
  end.

Definition sortPeriods (l : list RenewalPeriod) : list RenewalPeriod :=
  fold_right insertPeriod [] l.

(** ** Reading a ledger *)

(** The balance after the last entry of a ledger that starts from [b]. *)
Definition lastBalance (b : Q) (l : list PaymentDetail) : Q :=
  fold_left (fun _ e => pd_balance e) l b.

(** Every entry's balance is the one before it, less the entry's principal and
    additional payment, floored at zero; the first entry starts from [prev]. *)
Fixpoint chained (prev : Q) (l : list PaymentDetail) : Prop :=
  match l with
  | [] => True
  | e :: l' =>
      pd_balance e == Math_max 0 (prev - pd_principal e - pd_additionalPayment e) /\
      chained (pd_balance e) l'
  end.

(** The balances of a ledger never grow; the first is compared with [prev]. *)
Fixpoint nonIncreasing (prev : Q) (l : list PaymentDetail) : Prop :=
  match l with
  | [] => True
  | e :: l' => pd_balance e <= prev /\ nonIncreasing (pd_balance e) l'
  end.

(** The interest and the extra payments of a ledger, summed. *)
Definition sumInterest (l : list PaymentDetail) : Q :=
  fold_right (fun e total => pd_interest e + total) 0 l.

Definition sumAdditional (l : list PaymentDetail) : Q :=
  fold_right (fun e total => pd_additionalPayment e + total) 0 l.

(** The start payments of a list of periods are in ascending order. *)
Fixpoint ascending (periods : list RenewalPeriod) : Prop :=
  match periods with
  | term :: (nextTerm :: _) as rest =>
      (rp_startPayment term <= rp_startPayment nextTerm)%Z /\ ascending rest
  | _ => True
  end.

(** No rule has a negative amount. *)
Definition nonnegAmounts (params : MortgageParams) : Prop :=
  Forall (fun rule => 0 <= ap_amount rule) (additionalPayments params).

(** The same parameters with no additional payments and no limits. *)
Definition withoutPrepayments (params : MortgageParams) : MortgageParams :=
  {| purchasePrice := purchasePrice params;
     downPaymentPercent := downPaymentPercent params;
     additionalFinancing := additionalFinancing params;
     cmhcPstRate := cmhcPstRate params;
     principal := principal params;
     amortizationYears := amortizationYears params;
     paymentFrequency := paymentFrequency params;
     startDate := startDate params;
     renewalPeriods := renewalPeriods params;
     additionalPayments := [];
     prepaymentLimits := None |}.

(** ** [lib/mortgage.ts]: the engine *)

(** The variables of the first loop of [calculateAmortizationSchedule]. *)
Record LoopState : Type := mkLoopState {
  balance : Q;
  totalInterestPaid : Q;
  totalAdditionalPayments : Q;
  paymentNumber : Z;
  prepaymentLimitViolations : Z;
  currentPeriodLumpSum : Q;
  currentPeriodIdentifier : string;
  ledger : list PaymentDetail
}.

(** The variables of the loop that runs the schedule again without
    additional payments. *)
Record ShadowState : Type := mkShadowState {
  balanceWithout : Q;
  totalInterestWithout : Q;
  currentPaymentNumber : Z
}.

(** The two runs are at the same point. *)
Definition sameRun (st : LoopState) (sh : ShadowState) : Prop :=
  balance st == balanceWithout sh /\
  totalInterestPaid st == totalInterestWithout sh /\
  paymentNumber st = currentPaymentNumber sh.

Section Engine.

Variable Math_pow : Q -> Q -> Q.

Definition getPeriodicRate (annualRate : Q) (frequency : PaymentFrequency) : Q :=
  let paymentsPerYear := getPaymentsPerYear frequency in
  let semiAnnualRate := annualRate / 2 in
  let periodicRate := Math_pow (1 + semiAnnualRate) (2 / inject_Z paymentsPerYear) - 1 in
  periodicRate.

Definition calculatePayment (principal periodicRate : Q) (numberOfPayments : Z) : Q :=
  if Qeq_bool periodicRate 0 then principal / inject_Z numberOfPayments
  else
    let payment :=
      principal *
      (periodicRate * Math_pow (1 + periodicRate) (inject_Z numberOfPayments)) /
      (Math_pow (1 + periodicRate) (inject_Z numberOfPayments) - 1) in
    payment.

(** The block "Check prepayment limits if enabled" of the loop body: the flag
    of the payment and the three variables it updates.  The total is compared
    with the exact limit here; [Binary64.checkPrepaymentLimits] compares it
    with the rounded one. *)
Definition checkPrepaymentLimits (prepaymentLimits : option PrepaymentLimits)
  (principal : Q) (startDate paymentDate : Date) (actualAdditionalPayment : Q)
  (lumpSum : Q) (identifier : string) (violations : Z)
  : bool * (Q * string * Z) :=
  match prepaymentLimits with
  | Some limits =>
      if Qltb 0 actualAdditionalPayment then
        let periodId := getPeriodIdentifier paymentDate startDate (resetPeriod limits) in
        let '(identifier, lumpSum) :=
          if negb (String.eqb periodId identifier)
          then (periodId, 0)
          else (identifier, lumpSum) in
        let lumpSum := norm (lumpSum + actualAdditionalPayment) in
        let annualLumpSumLimit := principal * (lumpSumLimitPercent limits / 100) in
        if Qltb annualLumpSumLimit lumpSum
        then (true, (lumpSum, identifier, (violations + 1)%Z))
        else (false, (lumpSum, identifier, violations))
      else (false, (lumpSum, identifier, violations))
  | None => (false, (lumpSum, identifier, violations))
  end.

(** One turn of the inner loop, up to [paymentNumber++]. *)
Definition makePayment (params : MortgageParams) (term : RenewalPeriod)
  (termIndex : Z) (periodicRate payment : Q) (st : LoopState) : LoopState :=
  let interestPayment := balance st * periodicRate in
  let principalPayment := payment - interestPayment in
  let actualPrincipalPayment := Math_min principalPayment (balance st) in
  let actualPayment := actualPrincipalPayment + interestPayment in
  let balance1 := norm (balance st - actualPrincipalPayment) in
  let totalInterestPaid' := norm (totalInterestPaid st + interestPayment) in
  let additionalPayment :=
    getAdditionalPaymentAmount (paymentNumber st) (additionalPayments params) in
  let actualAdditionalPayment := Math_min additionalPayment balance1 in
  let balance2 := norm (balance1 - actualAdditionalPayment) in
  let totalAdditionalPayments' :=
    norm (totalAdditionalPayments st + actualAdditionalPayment) in
  let daysToAdd := getDaysForPayment (paymentNumber st) (paymentFrequency params) in
  let paymentDate := addDays (startDate params) daysToAdd in
  let '(exceedsLimit, (lumpSum, identifier, violations)) :=
    checkPrepaymentLimits (prepaymentLimits params) (principal params)
      (startDate params) paymentDate actualAdditionalPayment
      (currentPeriodLumpSum st) (currentPeriodIdentifier st)
      (prepaymentLimitViolations st) in
  {| balance := balance2;
     totalInterestPaid := totalInterestPaid';
     totalAdditionalPayments := totalAdditionalPayments';
     paymentNumber := (paymentNumber st + 1)%Z;
     prepaymentLimitViolations := violations;
     currentPeriodLumpSum := lumpSum;
     currentPeriodIdentifier := identifier;
     ledger :=
       ledger st ++
       [ {| pd_paymentNumber := paymentNumber st;
            pd_paymentDate := paymentDate;
            pd_payment := actualPayment;
            pd_principal := actualPrincipalPayment;
            pd_interest := interestPayment;
            pd_additionalPayment := actualAdditionalPayment;
            pd_balance := Math_max 0 balance2;
            pd_interestRate := rp_annualRate term;
            pd_termNumber := (termIndex + 1)%Z;
            pd_exceedsLimit := if exceedsLimit then Some true else None |} ] |}.

(** [for (let i = 0; i < paymentsInTerm && balance > 0.01; i++) { ...
    if (balance < 0.01) break; }], by recursion on the turns that are left.
    The guards read the exact balance here; [Binary64.generatePayments] has
    them on the rounded one. *)
Fixpoint generatePayments (turns : nat) (params : MortgageParams)
  (term : RenewalPeriod) (termIndex : Z) (periodicRate payment : Q)
  (st : LoopState) : LoopState :=
  match turns with
  | O => st
  | S turns' =>
      if Qltb (1 # 100) (balance st) then
        let st' := makePayment params term termIndex periodicRate payment st in
        if Qltb (balance st') (1 # 100) then st'
        else generatePayments turns' params term termIndex periodicRate payment st'
      else st
  end.

(** The outer loop, over the sorted periods that are left. *)
Fixpoint processTerms (params : MortgageParams) (totalPayments : Z)
  (termIndex : Z) (periods : list RenewalPeriod) (st : LoopState) : LoopState :=
  match periods with
  | [] => st
  | term :: rest =>
      let termStartPayment := rp_startPayment term in
      let termEndPayment :=
        match rest with
        | nextTerm :: _ => (rp_startPayment nextTerm - 1)%Z
        | [] => totalPayments
        end in
      let paymentsInTerm := (termEndPayment - termStartPayment + 1)%Z in
      let paymentsRemaining := (totalPayments - paymentNumber st + 1)%Z in
      let periodicRate := getPeriodicRate (rp_annualRate term) (paymentFrequency params) in
      let payment := norm (calculatePayment (balance st) periodicRate paymentsRemaining) in
      let st' :=
        generatePayments (Z.to_nat paymentsInTerm) params term termIndex
          periodicRate payment st in
      if Qltb (balance st') (1 # 100) then st'
      else processTerms params totalPayments (termIndex + 1)%Z rest st'
  end.

(** One turn of the inner [while] of the second run. *)
Definition shadowPayment (periodicRate payment : Q) (st : ShadowState) : ShadowState :=
  let interestPayment := balanceWithout st * periodicRate in
  let principalPayment := payment - interestPayment in
  let actualPrincipalPayment := Math_min principalPayment (balanceWithout st) in
  {| balanceWithout := norm (balanceWithout st - actualPrincipalPayment);
     totalInterestWithout := norm (totalInterestWithout st + interestPayment);
     currentPaymentNumber := (currentPaymentNumber st + 1)%Z |}.

(** [while (currentPaymentNumber <= termEndPayment && balanceWithout > 0.01 &&
    currentPaymentNumber <= totalPayments)]; [turns] bounds the turns the
    guard allows. *)
Fixpoint shadowPayments (turns : nat) (termEndPayment totalPayments : Z)
  (periodicRate payment : Q) (st : ShadowState) : ShadowState :=
  match turns with
  | O => st
  | S turns' =>
      if (currentPaymentNumber st <=? termEndPayment)%Z
         && Qltb (1 # 100) (balanceWithout st)
         && (currentPaymentNumber st <=? totalPayments)%Z
      then shadowPayments turns' termEndPayment totalPayments periodicRate payment
             (shadowPayment periodicRate payment st)
      else st
  end.

Fixpoint shadowTerms (frequency : PaymentFrequency) (totalPayments : Z)
  (periods : list RenewalPeriod) (st : ShadowState) : ShadowState :=
  match periods with
  | [] => st
  | term :: rest =>
      if Qltb (1 # 100) (balanceWithout st) then
        let termEndPayment :=
          match rest with
          | nextTerm :: _ => (rp_startPayment nextTerm - 1)%Z
          | [] => totalPayments
          end in
        let paymentsRemaining := (totalPayments - currentPaymentNumber st + 1)%Z in
        let periodicRate := getPeriodicRate (rp_annualRate term) frequency in
        let payment :=
          norm (calculatePayment (balanceWithout st) periodicRate paymentsRemaining) in
        let turns :=
          Z.to_nat (Z.min termEndPayment totalPayments - currentPaymentNumber st + 1) in
        shadowTerms frequency totalPayments rest
          (shadowPayments turns termEndPayment totalPayments periodicRate payment st)
      else st
  end.

(** The state before the first payment. *)
Definition initialState (params : MortgageParams) : LoopState :=
  {| balance := principal params;
     totalInterestPaid := 0;
     totalAdditionalPayments := 0;
     paymentNumber := 1;
     prepaymentLimitViolations := 0;
     currentPeriodLumpSum := 0;
     currentPeriodIdentifier := "";
     ledger := [] |}.

(** The first loop: the state when it ends. *)
Definition runSchedule (params : MortgageParams) : LoopState :=
  processTerms params
    (getPaymentCount (amortizationYears params) (paymentFrequency params))
    0%Z (sortPeriods (renewalPeriods params)) (initialState params).

(** [totalInterestWithout] of the second run. *)
Definition interestWithoutAdditional (params : MortgageParams) : Q :=
  totalInterestWithout
    (shadowTerms (paymentFrequency params)
       (getPaymentCount (amortizationYears params) (paymentFrequency params))
       (sortPeriods (renewalPeriods params))
       {| balanceWithout := principal params;
          totalInterestWithout := 0;
          currentPaymentNumber := 1 |}).

(** The body of [calculateAmortizationSchedule] once the renewal periods are
    known to be there and the insurance details are computed. *)
Definition buildSchedule (params : MortgageParams)
  (insuranceDetails : InsuranceDetails) : AmortizationSchedule :=
  let st := runSchedule params in
  let actualPayoffMonths :=
    Math_round (inject_Z (Z.of_nat (List.length (ledger st)))
                / inject_Z (getPaymentsPerYear (paymentFrequency params)) * 12) in
  let originalPayoffMonths := amortizationYears params * 12 in
  let timeSaved := originalPayoffMonths - inject_Z actualPayoffMonths in
  let interestSaved :=
    if Qltb 0 (totalAdditionalPayments st)
    then Math_max 0 (interestWithoutAdditional params - totalInterestPaid st)
    else 0 in
  {| payments := ledger st;
     totalInterest := totalInterestPaid st;
     totalPrincipal := principal params;
     totalPayments := fold_left (fun sum p => norm (sum + pd_payment p)) (ledger st) 0;
     summary :=
       {| sm_purchasePrice := purchasePrice params;
          sm_downPayment := ins_downPayment insuranceDetails;
          sm_downPaymentPercent := downPaymentPercent params;
          sm_mortgageAmount := ins_mortgageAmount insuranceDetails;
          sm_cmhcInsurance := ins_cmhcInsurance insuranceDetails;
          sm_cmhcPremiumRate := ins_cmhcPremiumRate insuranceDetails;
          sm_cmhcPst := ins_cmhcPst insuranceDetails;
          sm_cmhcPstRate := ins_cmhcPstRate insuranceDetails;
          sm_additionalFinancing := ins_additionalFinancing insuranceDetails;
          sm_originalPrincipal := principal params;
          sm_totalInterestPaid := totalInterestPaid st;
          sm_totalPaid := principal params + totalInterestPaid st;
          sm_totalAdditionalPayments := totalAdditionalPayments st;
          sm_interestSaved := interestSaved;
          sm_timeSaved := timeSaved;
          sm_amortizationYears := amortizationYears params;
          sm_actualPayoffMonths := actualPayoffMonths;
          sm_paymentFrequency := paymentFrequency params;
          sm_prepaymentLimitViolations :=
            match prepaymentLimits params with
            | Some _ => Some (prepaymentLimitViolations st)
            | None => None
            end |} |}.

Definition calculateAmortizationSchedule (params : MortgageParams)
  : result AmortizationSchedule :=
  if (List.length (renewalPeriods params) =? 0)%nat
  then Throw "At least one renewal period must be specified"
  else
    bind (calculateMortgageWithInsurance (purchasePrice params)
            (downPaymentPercent params) (additionalFinancing params)
            (cmhcPstRate params)) (fun insuranceDetails =>
    Ok (buildSchedule params insuranceDetails)).

(** ** Reading a run term by term

    [entryPaid r P prev count e]: the entry [e] is the payment made after
    [count] payments, from the balance [prev] above one cent, at the periodic
    rate [r] and with the level payment [P]. *)
Definition entryPaid (params : MortgageParams) (r P prev : Q) (count : Z)
  (e : PaymentDetail) : Prop :=
  0.01 < prev /\
  pd_paymentNumber e = (count + 1)%Z /\
  pd_interest e == prev * r /\
  pd_principal e == Math_min (P - prev * r) prev /\
  pd_payment e == pd_principal e + pd_interest e /\
  pd_additionalPayment e ==
    Math_min (getAdditionalPaymentAmount (count + 1) (additionalPayments params))
             (prev - pd_principal e) /\
  pd_balance e == prev - pd_principal e - pd_additionalPayment e.

(** The entries of one term, in order. *)
Fixpoint paidWith (params : MortgageParams) (r P : Q) (count : Z) (prev : Q)
  (seg : list PaymentDetail) : Prop :=
  match seg with
  | [] => True
  | e :: seg' =>
      entryPaid params r P prev count e /\
      paidWith params r P (count + 1) (pd_balance e) seg'
  end.

(** The ledger, cut into one segment for each period: the level payment of a
    segment is sized on the balance at its start over the payments that are
    left of the [total]; a segment has at most the term's payments, and fewer
    only when the balance is down to one cent. *)
Fixpoint termsSized (params : MortgageParams) (total count : Z) (prev : Q)
  (periods : list RenewalPeriod) (segs : list (list PaymentDetail)) : Prop :=
  match periods, segs with
  | [], [] => True
  | term :: rest, seg :: segs' =>
      let r := getPeriodicRate (rp_annualRate term) (paymentFrequency params) in
      let termEndPayment :=
        match rest with
        | nextTerm :: _ => (rp_startPayment nextTerm - 1)%Z
        | [] => total
        end in
      let paymentsInTerm := (termEndPayment - rp_startPayment term + 1)%Z in
      paidWith params r (calculatePayment prev r (total - count)) count prev seg /\
      (Z.of_nat (List.length seg) <= Z.max 0 paymentsInTerm)%Z /\
      ((Z.of_nat (List.length seg) < paymentsInTerm)%Z ->
       lastBalance prev seg <= 0.01) /\
      Forall (fun e => pd_interestRate e = rp_annualRate term) seg /\
      termsSized params total (count + Z.of_nat (List.length seg))
        (lastBalance prev seg) rest segs'
  | _, _ => False
  end.

(** The level payment on a balance of 1. *)
Definition levelFactor (r : Q) (n : Z) : Q := calculatePayment 1 r n.

(** The invariant of the first loop that gives the chain of balances. *)
Definition chainInvariant (b0 : Q) (st : LoopState) : Prop :=
  Forall (fun e => pd_payment e == pd_principal e + pd_interest e) (ledger st) /\
  chained b0 (ledger st) /\
  (0.01 < balance st -> lastBalance b0 (ledger st) == balance st).

(** The first interest charged is the [principal] field times the periodic
    rate of the entry's term. *)
Definition firstInterestInvariant (params : MortgageParams) (st : LoopState) : Prop :=
  (ledger st = [] -> balance st = principal params) /\
  (forall e, nth_error (ledger st) 0 = Some e ->
     pd_interest e ==
       principal params *
       getPeriodicRate (pd_interestRate e) (paymentFrequency params)).

End Engine.

(** ** The prepayment resolver as the specification words it

    The extra amount at a payment index is the sum of the amounts of the rules
    that are active, whose window contains the index and that fire at it. *)

(** [active], true when it is not given. *)
Definition ruleActive (rule : AdditionalPayment) : bool :=
  match ap_enabled rule with
  | Some b => b
  | None => true
  end.

(** The index is at or after the start and, when an end is set, at or before
    it. *)
Definition ruleWindow (index : Z) (rule : AdditionalPayment) : bool :=
  (ap_startPayment rule <=? index)%Z &&
  match ap_endPayment rule with
  | Some endIndex => (index <=? endIndex)%Z
  | None => true
  end.

(** A single rule fires at its start index; a recurring one when the distance
    from the start is a multiple of the interval, 1 when it is not given. *)
Definition ruleFires (index : Z) (rule : AdditionalPayment) : bool :=
  match ap_type rule with
  | one_time => (index =? ap_startPayment rule)%Z
  | recurring =>
      let interval :=
        match ap_frequency rule with
        | Some interval => interval
        | None => 1%Z
        end in
      ((index - ap_startPayment rule) mod interval =? 0)%Z
  end.

Definition ruleContributes (index : Z) (rule : AdditionalPayment) : bool :=
  ruleActive rule && ruleWindow index rule && ruleFires index rule.

Definition sumAmounts (rules : list AdditionalPayment) : Q :=
  fold_right (fun rule total => ap_amount rule + total) 0 rules.

Definition extraAmountAt (index : Z) (rules : list AdditionalPayment) : Q :=
  sumAmounts (filter (ruleContributes index) rules).

(** The data model has the end index and the interval of a rule positive when
    they are given.  What the comparison needs of it: neither is 0, which the
    code reads as not given. *)
Definition validRule (rule : AdditionalPayment) : Prop :=
  (forall endIndex, ap_endPayment rule = Some endIndex -> endIndex <> 0%Z) /\
  (forall interval, ap_frequency rule = Some interval -> interval <> 0%Z).

Definition exampleRules : list AdditionalPayment :=
  [ {| ap_type := recurring; ap_amount := 100; ap_startPayment := 3;
       ap_endPayment := Some 9%Z; ap_frequency := Some 2%Z; ap_enabled := None |};
    {| ap_type := one_time; ap_amount := 500; ap_startPayment := 5;
       ap_endPayment := None; ap_frequency := None; ap_enabled := Some true |};
    {| ap_type := recurring; ap_amount := 70; ap_startPayment := 1;
       ap_endPayment := None; ap_frequency := None; ap_enabled := Some false |};
    {| ap_type := one_time; ap_amount := 900; ap_startPayment := 6;
       ap_endPayment := Some 8%Z; ap_frequency := None; ap_enabled := None |} ].

(** ** The ledger by position *)

(** The balance before entry [i] of a ledger that starts from [b]. *)
Definition balanceBefore (b : Q) (l : list PaymentDetail) (i : nat) : Q :=
  lastBalance b (firstn i l).

(** The principal portions and the regular payments of a ledger, summed. *)
Definition sumPrincipal (l : list PaymentDetail) : Q :=
  fold_right (fun e total => pd_principal e + total) 0 l.

Definition sumPayments (l : list PaymentDetail) : Q :=
  fold_right (fun e total => pd_payment e + total) 0 l.

(** The invariant of the first loop that describes every entry by its place
    in the ledger. *)
Definition entriesInvariant (Math_pow : Q -> Q -> Q) (params : MortgageParams)
  (st : LoopState) : Prop :=
  paymentNumber st = (Z.of_nat (List.length (ledger st)) + 1)%Z /\
  balance st == lastBalance (principal params) (ledger st) /\
  forall i e, nth_error (ledger st) i = Some e ->
    exists P,
      entryPaid params
        (getPeriodicRate Math_pow (pd_interestRate e) (paymentFrequency params)) P
        (balanceBefore (principal params) (ledger st) i) (Z.of_nat i) e /\
      pd_paymentDate e =
        addDays (startDate params)
          (getDaysForPayment (Z.of_nat i + 1) (paymentFrequency params)).

(** The entry [e] belongs to a period of [periods]: its term number is the
    period's place in the list, counted from 1, its rate is the period's, and
    its payment number is in the period's window, from the period's start
    payment up to the payment before the next period's start. *)
Definition inWindow (periods : list RenewalPeriod) (e : PaymentDetail) : Prop :=
  exists (k : nat) (term : RenewalPeriod),
    nth_error periods k = Some term /\
    pd_termNumber e = (Z.of_nat k + 1)%Z /\
    pd_interestRate e = rp_annualRate term /\
    (rp_startPayment term <= pd_paymentNumber e)%Z /\
    (forall nextTerm, nth_error periods (S k) = Some nextTerm ->
       (pd_paymentNumber e < rp_startPayment nextTerm)%Z).

(** [exceedsLimit] is present, and then true. *)
Definition flagged (e : PaymentDetail) : bool :=
  match pd_exceedsLimit e with
  | Some b => b
  | None => false
  end.

Definition countFlagged (l : list PaymentDetail) : Z :=
  Z.of_nat (List.length (filter flagged l)).

(** The payment slots of the periods: the turns the inner loop has in all, one
    term after the other. *)
Fixpoint paymentSlots (total : Z) (periods : list RenewalPeriod) : Z :=
  match periods with
  | [] => 0
  | term :: rest =>
      let termEndPayment :=
        match rest with
        | nextTerm :: _ => (rp_startPayment nextTerm - 1)%Z
        | [] => total
        end in
      (Z.max 0 (termEndPayment - rp_startPayment term + 1) + paymentSlots total rest)%Z
  end.

(** ** The same parameters, but for one field *)

(** The same parameters at another payment frequency. *)
Definition withFrequency (frequency : PaymentFrequency) (params : MortgageParams)
  : MortgageParams :=
  {| purchasePrice := purchasePrice params;
     downPaymentPercent := downPaymentPercent params;
     additionalFinancing := additionalFinancing params;
     cmhcPstRate := cmhcPstRate params;
     principal := principal params;
     amortizationYears := amortizationYears params;
     paymentFrequency := frequency;
     startDate := startDate params;
     renewalPeriods := renewalPeriods params;
     additionalPayments := additionalPayments params;
     prepaymentLimits := prepaymentLimits params |}.

(** The same parameters under other prepayment limits, or none. *)
Definition withLimits (limits : option PrepaymentLimits) (params : MortgageParams)
  : MortgageParams :=
  {| purchasePrice := purchasePrice params;
     downPaymentPercent := downPaymentPercent params;
     additionalFinancing := additionalFinancing params;
     cmhcPstRate := cmhcPstRate params;
     principal := principal params;
     amortizationYears := amortizationYears params;
     paymentFrequency := paymentFrequency params;
     startDate := startDate params;
     renewalPeriods := renewalPeriods params;
     additionalPayments := additionalPayments params;
     prepaymentLimits := limits |}.

(** A schedule that names another payment frequency in its summary. *)
Definition reportFrequency (frequency : PaymentFrequency) (s : AmortizationSchedule)
  : AmortizationSchedule :=
  {| payments := payments s;
     totalInterest := totalInterest s;
     totalPrincipal := totalPrincipal s;
     totalPayments := totalPayments s;
     summary :=
       {| sm_purchasePrice := sm_purchasePrice (summary s);
          sm_downPayment := sm_downPayment (summary s);
          sm_downPaymentPercent := sm_downPaymentPercent (summary s);
          sm_mortgageAmount := sm_mortgageAmount (summary s);
          sm_cmhcInsurance := sm_cmhcInsurance (summary s);
          sm_cmhcPremiumRate := sm_cmhcPremiumRate (summary s);
          sm_cmhcPst := sm_cmhcPst (summary s);
          sm_cmhcPstRate := sm_cmhcPstRate (summary s);
          sm_additionalFinancing := sm_additionalFinancing (summary s);
          sm_originalPrincipal := sm_originalPrincipal (summary s);
          sm_totalInterestPaid := sm_totalInterestPaid (summary s);
          sm_totalPaid := sm_totalPaid (summary s);
          sm_totalAdditionalPayments := sm_totalAdditionalPayments (summary s);
          sm_interestSaved := sm_interestSaved (summary s);
          sm_timeSaved := sm_timeSaved (summary s);
          sm_amortizationYears := sm_amortizationYears (summary s);
          sm_actualPayoffMonths := sm_actualPayoffMonths (summary s);
          sm_paymentFrequency := frequency;
          sm_prepaymentLimitViolations := sm_prepaymentLimitViolations (summary s) |} |}.

(** An entry without its flag. *)
Definition withoutFlag (e : PaymentDetail) : PaymentDetail :=
  {| pd_paymentNumber := pd_paymentNumber e;
     pd_paymentDate := pd_paymentDate e;
     pd_payment := pd_payment e;
     pd_principal := pd_principal e;
     pd_interest := pd_interest e;
     pd_additionalPayment := pd_additionalPayment e;
     pd_balance := pd_balance e;
     pd_interestRate := pd_interestRate e;
     pd_termNumber := pd_termNumber e;
     pd_exceedsLimit := None |}.

(** A schedule without the flags and the count of violations. *)
Definition withoutFlags (s : AmortizationSchedule) : AmortizationSchedule :=
  {| payments := map withoutFlag (payments s);
     totalInterest := totalInterest s;
     totalPrincipal := totalPrincipal s;
     totalPayments := totalPayments s;
     summary :=
       {| sm_purchasePrice := sm_purchasePrice (summary s);
          sm_downPayment := sm_downPayment (summary s);
          sm_downPaymentPercent := sm_downPaymentPercent (summary s);
          sm_mortgageAmount := sm_mortgageAmount (summary s);
          sm_cmhcInsurance := sm_cmhcInsurance (summary s);
          sm_cmhcPremiumRate := sm_cmhcPremiumRate (summary s);
          sm_cmhcPst := sm_cmhcPst (summary s);
          sm_cmhcPstRate := sm_cmhcPstRate (summary s);
          sm_additionalFinancing := sm_additionalFinancing (summary s);
          sm_originalPrincipal := sm_originalPrincipal (summary s);
          sm_totalInterestPaid := sm_totalInterestPaid (summary s);
          sm_totalPaid := sm_totalPaid (summary s);
          sm_totalAdditionalPayments := sm_totalAdditionalPayments (summary s);
          sm_interestSaved := sm_interestSaved (summary s);
          sm_timeSaved := sm_timeSaved (summary s);
          sm_amortizationYears := sm_amortizationYears (summary s);
          sm_actualPayoffMonths := sm_actualPayoffMonths (summary s);
          sm_paymentFrequency := sm_paymentFrequency (summary s);
          sm_prepaymentLimitViolations := None |} |}.

(** The state of the first loop as it is when no limits are tracked. *)
Definition untracked (st : LoopState) : LoopState :=
  {| balance := balance st;
     totalInterestPaid := totalInterestPaid st;
     totalAdditionalPayments := totalAdditionalPayments st;
     paymentNumber := paymentNumber st;
     prepaymentLimitViolations := 0;
     currentPeriodLumpSum := 0;
     currentPeriodIdentifier := "";
     ledger := map withoutFlag (ledger st) |}.

(** The same parameters with another list of renewal periods. *)
Definition withPeriods (periods : list RenewalPeriod) (params : MortgageParams)
  : MortgageParams :=
  {| purchasePrice := purchasePrice params;
     downPaymentPercent := downPaymentPercent params;
     additionalFinancing := additionalFinancing params;
     cmhcPstRate := cmhcPstRate params;
     principal := principal params;
     amortizationYears := amortizationYears params;
     paymentFrequency := paymentFrequency params;
     startDate := startDate params;
     renewalPeriods := periods;
     additionalPayments := additionalPayments params;
     prepaymentLimits := prepaymentLimits params |}.

(** ** [App.tsx]: the form and its handlers

    The state of the form that the handlers below read.  [startDate] is the
    local day that the text of the date field stands for. *)
Record FormState : Type := mkFormState {
  fs_purchasePrice : Q;
  fs_downPaymentPercent : Q;
  fs_additionalFinancing : Q;
  fs_cmhcPstRate : Q;
  fs_amortizationYears : Q;
  fs_paymentFrequency : PaymentFrequency;
  fs_startDate : Date;
  fs_renewalPeriods : list RenewalPeriod;
  fs_additionalPayments : list AdditionalPayment;
  fs_enablePrepaymentLimits : bool;
  fs_prepaymentLimits : PrepaymentLimits
}.

(** [mortgageDetails]: the insurance details, or [null] when the calculator
    throws. *)
Definition mortgageDetails (form : FormState) : option InsuranceDetails :=
  match calculateMortgageWithInsurance (fs_purchasePrice form)
          (fs_downPaymentPercent form) (fs_additionalFinancing form)
          (fs_cmhcPstRate form) with
  | Ok details => Some details
  | Throw _ => None
  end.

(** What a click on Calculate ends in: an alert, a schedule put on the page,
    or an exception that nothing catches. *)
Inductive Outcome : Type :=
| Alerted (msg : string)
| Shown (schedule : AmortizationSchedule)
| Uncaught (msg : string).

(** The parameters [handleCalculate] passes to the engine. *)
Definition formParams (form : FormState) (details : InsuranceDetails) : MortgageParams :=
  {| purchasePrice := fs_purchasePrice form;
     downPaymentPercent := fs_downPaymentPercent form;
     additionalFinancing := fs_additionalFinancing form;
     cmhcPstRate := fs_cmhcPstRate form;
     principal := ins_totalPrincipal details;
     amortizationYears := fs_amortizationYears form;
     paymentFrequency := fs_paymentFrequency form;
     startDate := fs_startDate form;
     renewalPeriods := fs_renewalPeriods form;
     additionalPayments := fs_additionalPayments form;
     prepaymentLimits :=
       if fs_enablePrepaymentLimits form then Some (fs_prepaymentLimits form) else None |}.

Definition handleCalculate (Math_pow : Q -> Q -> Q) (form : FormState) : Outcome :=
  match mortgageDetails form with
  | None => Alerted "Please check your down payment percentage (minimum 5%)"
  | Some details =>
      match calculateAmortizationSchedule Math_pow (formParams form details) with
      | Ok result => Shown result
      | Throw msg => Uncaught msg
      end
  end.

(** [handleAddRenewalPeriod]: reading [startPayment] of the last period throws
    when the list is empty. *)
Definition handleAddRenewalPeriod (paymentFrequency : PaymentFrequency)
  (renewalPeriods : list RenewalPeriod) : result (list RenewalPeriod) :=
  match nth_error renewalPeriods (List.length renewalPeriods - 1) with
  | None => Throw "Cannot read properties of undefined (reading 'startPayment')"
  | Some lastPeriod =>
      let paymentsPerYear :=
        match paymentFrequency with
        | monthly => 12%Z
        | weekly => 52%Z
        | _ => 26%Z
        end in
      let nextStartPayment :=
        (rp_startPayment lastPeriod
         + Math_round (rp_termYears lastPeriod * inject_Z paymentsPerYear))%Z in
      Ok (renewalPeriods ++
          [ {| rp_startPayment := nextStartPayment; rp_annualRate := 549 # 10000;
               rp_termYears := 5 |} ])
  end.

(** [list.filter((_, i) => i !== index)]. *)
Fixpoint removeAt {A : Type} (index : nat) (l : list A) : list A :=
  match l, index with
  | [], _ => []
  | _ :: rest, O => rest
  | x :: rest, S index' => x :: removeAt index' rest
  end.

Definition handleRemoveRenewalPeriod (index : nat) (renewalPeriods : list RenewalPeriod)
  : list RenewalPeriod :=
  if (1 <? List.length renewalPeriods)%nat then removeAt index renewalPeriods
  else renewalPeriods.

(** The lists of periods the form gets to from the one it starts with by
    adding and removing periods, at whatever frequency is selected at each
    click.  Editing a field of a period and loading a stored profile are not
    part of this relation. *)
Inductive formPeriods : list RenewalPeriod -> Prop :=
| formPeriods_initial :
    formPeriods [ {| rp_startPayment := 1; rp_annualRate := 5 # 100; rp_termYears := 5 |} ]
| formPeriods_add (paymentFrequency : PaymentFrequency) (l l' : list RenewalPeriod) :
    formPeriods l ->
    handleAddRenewalPeriod paymentFrequency l = Ok l' ->
    formPeriods l'
| formPeriods_remove (index : nat) (l : list RenewalPeriod) :
    formPeriods l ->
    formPeriods (handleRemoveRenewalPeriod index l).

(** ** [lib/storage.ts]

    The browser's [localStorage]: a text, or nothing, under each key.  Writing
    is taken to succeed: the error of a full storage is not modelled. *)
Definition LocalStorage := string -> option string.

Definition getItem (key : string) (storage : LocalStorage) : option string :=
  storage key.

Definition setItem (key value : string) (storage : LocalStorage) : LocalStorage :=
  fun k => if String.eqb k key then Some value else storage k.

Definition removeItem (key : string) (storage : LocalStorage) : LocalStorage :=
  fun k => if String.eqb k key then None else storage k.

Definition STORAGE_KEY : string := "mortgage-profiles".

(** What a call of the module does: it returns a value, or it throws, or, on
    a stored array that holds something else than profiles, it does what the
    model does not tell. *)
Inductive Completion (A : Type) : Type :=
| Returns (value : A)
| Throws (error : string)
| NotModelled.
Arguments Returns {A} value.
Arguments Throws {A} error.
Arguments NotModelled {A}.

Section Storage.

(** The [data] of a profile, which the module stores and returns as it is. *)
Variable ProfileData : Type.

Record MortgageProfile : Type := mkMortgageProfile {
  mp_id : string;
  mp_name : string;
  mp_createdAt : string;
  mp_updatedAt : string;
  mp_data : ProfileData
}.

(** [Omit<MortgageProfile, 'id' | 'createdAt' | 'updatedAt'>]. *)
Record ProfileInput : Type := mkProfileInput {
  in_name : string;
  in_data : ProfileData
}.

(** [Partial<Omit<MortgageProfile, 'id' | 'createdAt'>>]: a field is given or
    absent. *)
Record ProfileUpdates : Type := mkProfileUpdates {
  up_name : option string;
  up_updatedAt : option string;
  up_data : option ProfileData
}.

(** What [JSON.parse] makes of a stored text that is JSON: an array of
    profiles, as the type [MortgageProfile[]] of the source has it; an array
    that holds something else, of which the model keeps nothing; or a value
    that is not an array ([null], a number, a text, a boolean, an object) and
    so has none of [push], [findIndex], [filter] and [find]. *)
Inductive StoredValue : Type :=
| ProfilesArray (profiles : list MortgageProfile)
| OtherArray
| NotAnArray.

(** [JSON.stringify] on lists of profiles and [JSON.parse], which throws on a
    text that is not JSON. *)
Variable JSON_stringify : list MortgageProfile -> string.
Variable JSON_parse : string -> result StoredValue.

(** The [TypeError] of a call of an array method on a value that has none; the
    wording of the message is the JavaScript engine's. *)
Definition TypeError : string := "TypeError".

(** [getProfiles] returns what [JSON.parse] gives, array or not. *)
Definition getProfiles (storage : LocalStorage) : StoredValue :=
  match getItem STORAGE_KEY storage with
  | None => ProfilesArray []
  | Some data =>
      if String.eqb data "" then ProfilesArray []
      else
        match JSON_parse data with
        | Ok value => value
        | Throw _ => ProfilesArray []
        end
  end.

(** [`${Date.now()}-${Math.random().toString(36).substr(2, 9)}`], from the
    reading of the clock and the digits drawn. *)
Definition generateId (now : Z) (digits : string) : string :=
  (Z_toString now ++ "-" ++ digits)%string.

(** [saveProfile]: [now] and [digits] are what [generateId] reads, [createdAt]
    and [updatedAt] the two readings of [new Date().toISOString()];
    [profiles.push] throws on a value that is not an array. *)
Definition saveProfile (now : Z) (digits createdAt updatedAt : string)
  (profile : ProfileInput) (storage : LocalStorage)
  : Completion (MortgageProfile * LocalStorage) :=
  let profiles := getProfiles storage in
  let newProfile :=
    {| mp_id := generateId now digits;
       mp_name := in_name profile;
       mp_createdAt := createdAt;
       mp_updatedAt := updatedAt;
       mp_data := in_data profile |} in
  match profiles with
  | ProfilesArray profiles =>
      let profiles := profiles ++ [newProfile] in
      Returns (newProfile, setItem STORAGE_KEY (JSON_stringify profiles) storage)
  | OtherArray => NotModelled
  | NotAnArray => Throws TypeError
  end.

(** [p => p.id === id]. *)
Definition hasId (id : string) (p : MortgageProfile) : bool := String.eqb (mp_id p) id.

(** [profiles.findIndex(p => p.id === id)], [None] for [-1]. *)
Fixpoint findIndex (id : string) (profiles : list MortgageProfile) : option nat :=
  match profiles with
  | [] => None
  | p :: rest =>
      if hasId id p then Some 0%nat
      else option_map S (findIndex id rest)
  end.

(** [{ ...profile, ...updates, updatedAt }]. *)
Definition applyUpdates (profile : MortgageProfile) (updates : ProfileUpdates)
  (updatedAt : string) : MortgageProfile :=
  {| mp_id := mp_id profile;
     mp_name := match up_name updates with Some name => name | None => mp_name profile end;
     mp_createdAt := mp_createdAt profile;
     mp_updatedAt := updatedAt;
     mp_data := match up_data updates with Some data => data | None => mp_data profile end |}.

(** [profiles[index] = value]. *)
Fixpoint setAt (index : nat) (value : MortgageProfile) (profiles : list MortgageProfile)
  : list MortgageProfile :=
  match profiles, index with
  | [], _ => []
  | _ :: rest, O => value :: rest
  | p :: rest, S index' => p :: setAt index' value rest
  end.

(** [updateProfile]: [profiles.findIndex] throws on a value that is not an
    array. *)
Definition updateProfile (updatedAt : string) (id : string) (updates : ProfileUpdates)
  (storage : LocalStorage) : Completion (option MortgageProfile * LocalStorage) :=
  match getProfiles storage with
  | ProfilesArray profiles =>
      match findIndex id profiles with
      | None => Returns (None, storage)
      | Some index =>
          match nth_error profiles index with
          | Some profile =>
              let updated := applyUpdates profile updates updatedAt in
              let profiles := setAt index updated profiles in
              Returns (Some updated, setItem STORAGE_KEY (JSON_stringify profiles) storage)
          | None => Returns (None, storage)
          end
      end
  | OtherArray => NotModelled
  | NotAnArray => Throws TypeError
  end.

(** [deleteProfile]: [profiles.filter] throws on a value that is not an
    array. *)
Definition deleteProfile (id : string) (storage : LocalStorage)
  : Completion (bool * LocalStorage) :=
  match getProfiles storage with
  | ProfilesArray profiles =>
      let filtered := filter (fun p => negb (hasId id p)) profiles in
      if (List.length filtered =? List.length profiles)%nat then Returns (false, storage)
      else Returns (true, setItem STORAGE_KEY (JSON_stringify filtered) storage)
  | OtherArray => NotModelled
  | NotAnArray => Throws TypeError
  end.

(** [profiles.find(p => p.id === id) || null]; [profiles.find] throws on a
    value that is not an array. *)
Definition getProfile (id : string) (storage : LocalStorage)
  : Completion (option MortgageProfile) :=
  match getProfiles storage with
  | ProfilesArray profiles => Returns (find (hasId id) profiles)
  | OtherArray => NotModelled
  | NotAnArray => Throws TypeError
  end.

Definition clearAllProfiles (storage : LocalStorage) : LocalStorage :=
  removeItem STORAGE_KEY storage.

End Storage.

Arguments mp_id {ProfileData} _.
Arguments mp_name {ProfileData} _.
Arguments mp_createdAt {ProfileData} _.
Arguments mp_updatedAt {ProfileData} _.
Arguments mp_data {ProfileData} _.
Arguments in_name {ProfileData} _.
Arguments in_data {ProfileData} _.
Arguments up_name {ProfileData} _.
Arguments up_updatedAt {ProfileData} _.
Arguments up_data {ProfileData} _.
Arguments ProfilesArray {ProfileData} profiles.
Arguments OtherArray {ProfileData}.
Arguments NotAnArray {ProfileData}.
Arguments getProfiles {ProfileData} JSON_parse storage.
Arguments saveProfile {ProfileData} JSON_stringify JSON_parse now digits createdAt updatedAt
  profile storage.
Arguments hasId {ProfileData} id p.
Arguments findIndex {ProfileData} id profiles.
Arguments applyUpdates {ProfileData} profile updates updatedAt.
Arguments setAt {ProfileData} index value profiles.
Arguments updateProfile {ProfileData} JSON_stringify JSON_parse updatedAt id updates storage.
Arguments deleteProfile {ProfileData} JSON_stringify JSON_parse id storage.
Arguments getProfile {ProfileData} JSON_parse id storage.

(** A text format for profiles without data that reads back what it writes:
    every character of a field after a [1], the end of a field as [0], a
    profile after a [P], the end of the list as [E].  The text [null] is read
    as a value that is not an array, the text [[null]] as an array that holds
    something else than profiles. *)
Fixpoint encodeField (s : string) : string :=
  match s with
  | EmptyString => "0"
  | String c s' => String "1" (String c (encodeField s'))
  end.

Fixpoint decodeField (t : string) : option (string * string) :=
  match t with
  | String "0" rest => Some (EmptyString, rest)
  | String "1" (String c rest) =>
      match decodeField rest with
      | Some (s, rest') => Some (String c s, rest')
      | None => None
      end
  | _ => None
  end.

Definition encodeProfile (p : MortgageProfile unit) : string :=
  (encodeField (mp_id p) ++ encodeField (mp_name p)
   ++ encodeField (mp_createdAt p) ++ encodeField (mp_updatedAt p))%string.

Definition decodeProfile (t : string) : option (MortgageProfile unit * string) :=
  match decodeField t with
  | Some (id, t1) =>
      match decodeField t1 with
      | Some (name, t2) =>
          match decodeField t2 with
          | Some (createdAt, t3) =>
              match decodeField t3 with
              | Some (updatedAt, t4) =>
                  Some ({| mp_id := id; mp_name := name; mp_createdAt := createdAt;
                           mp_updatedAt := updatedAt; mp_data := tt |}, t4)
              | None => None
              end
          | None => None
          end
      | None => None
      end
  | None => None
  end.

Fixpoint encodeProfiles (profiles : list (MortgageProfile unit)) : string :=
  match profiles with
  | [] => "E"
  | p :: rest => String "P" (encodeProfile p ++ encodeProfiles rest)
  end.

Fixpoint decodeProfilesFrom (fuel : nat) (t : string)
  : option (list (MortgageProfile unit)) :=
  match fuel with
  | O => None
  | S fuel' =>
      match t with
      | String "E" EmptyString => Some []
      | String "P" rest =>
          match decodeProfile rest with
          | Some (p, rest') =>
              match decodeProfilesFrom fuel' rest' with
              | Some profiles => Some (p :: profiles)
              | None => None
              end
          | None => None
          end
      | _ => None
      end
  end.

Definition decodeProfiles (t : string) : result (StoredValue unit) :=
  if String.eqb t "null" then Ok NotAnArray
  else if String.eqb t "[null]" then Ok OtherArray
  else
    match decodeProfilesFrom (S (String.length t)) t with
    | Some profiles => Ok (ProfilesArray profiles)
    | None => Throw "Unexpected token"
    end.

(** ** [lib/mortgage.ts] in binary64

    The engine once more, with every amount and rate a binary64 number, as a
    JavaScript [number] is, and every operation rounded as IEEE 754 rounds it.
    Payment indices, counts and day numbers stay integers: they are integers
    in the code, far below [2 ^ 53].  [Math.pow], whose last digit ECMAScript
    leaves to the implementation, is a parameter here as well. *)
Module Binary64.

Import PrimFloat.
Local Open Scope float_scope.

(** The number that holds an integer, the nearest one beyond [2 ^ 53]. *)
Definition ofZ (z : Z) : float :=
  FloatOps.SF2Prim (SpecFloat.binary_normalize FloatOps.prec FloatOps.emax z 0 false).

(** The exact value of a number that is finite, as a fraction; 0 for the
    values that are not. *)
Definition toQ (x : float) : Q :=
  match FloatOps.Prim2SF x with
  | SpecFloat.S754_finite sign m e =>
      let n := if sign then Z.neg m else Z.pos m in
      (inject_Z n * 2 ^ e)%Q
  | _ => 0%Q
  end.

(** [Math.round], the nearest integer with halves rounded up, and
    [Math.floor], on the exact value of a finite number.  Of a value that is
    not finite, which has no integer, they are read as 0: such values are
    outside the model where an integer is made of them. *)
Definition Math_round (x : float) : Z :=
  match FloatOps.Prim2SF x with
  | SpecFloat.S754_finite sign m e =>
      let n := if sign then Z.neg m else Z.pos m in
      if (0 <=? e)%Z then (n * 2 ^ e)%Z
      else ((2 * n + 2 ^ (- e)) / 2 ^ (- e + 1))%Z
  | _ => 0%Z
  end.

Definition Math_floor (x : float) : Z :=
  match FloatOps.Prim2SF x with
  | SpecFloat.S754_finite sign m e =>
      let n := if sign then Z.neg m else Z.pos m in
      if (0 <=? e)%Z then (n * 2 ^ e)%Z
      else (n / 2 ^ (- e))%Z
  | _ => 0%Z
  end.

(** [Math.min] and [Math.max] on two arguments: [NaN] when one of them is,
    and the zero of the right sign when both are zeros. *)
Definition Math_min (x y : float) : float :=
  if is_nan x || is_nan y then nan
  else if x <? y then x
  else if y <? x then y
  else if get_sign x then x else y.

Definition Math_max (x y : float) : float :=
  if is_nan x || is_nan y then nan
  else if x <? y then y
  else if y <? x then x
  else if get_sign x then y else x.

(** *** [types/mortgage.ts] *)

Record RenewalPeriod : Type := mkRenewalPeriod {
  rp_startPayment : Z;
  rp_annualRate : float;
  rp_termYears : float
}.

Record AdditionalPayment : Type := mkAdditionalPayment {
  ap_type : AdditionalPaymentType;
  ap_amount : float;
  ap_startPayment : Z;
  ap_endPayment : option Z;
  ap_frequency : option Z;
  ap_enabled : option bool
}.

Record PrepaymentLimits : Type := mkPrepaymentLimits {
  lumpSumLimitPercent : float;
  paymentIncreaseLimitPercent : float;
  resetPeriod : ResetPeriod
}.

Record MortgageParams : Type := mkMortgageParams {
  purchasePrice : float;
  downPaymentPercent : float;
  additionalFinancing : float;
  cmhcPstRate : float;
  principal : float;
  amortizationYears : float;
  paymentFrequency : PaymentFrequency;
  startDate : Date;
  renewalPeriods : list RenewalPeriod;
  additionalPayments : list AdditionalPayment;
  prepaymentLimits : option PrepaymentLimits
}.

Record PaymentDetail : Type := mkPaymentDetail {
  pd_paymentNumber : Z;
  pd_paymentDate : Date;
  pd_payment : float;
  pd_principal : float;
  pd_interest : float;
  pd_additionalPayment : float;
  pd_balance : float;
  pd_interestRate : float;
  pd_termNumber : Z;
  pd_exceedsLimit : option bool
}.

Record InsuranceDetails : Type := mkInsuranceDetails {
  ins_downPayment : float;
  ins_mortgageAmount : float;
  ins_cmhcPremiumRate : float;
  ins_cmhcInsurance : float;
  ins_cmhcPst : float;
  ins_cmhcPstRate : float;
  ins_additionalFinancing : float;
  ins_totalPrincipal : float
}.

Record Summary : Type := mkSummary {
  sm_purchasePrice : float;
  sm_downPayment : float;
  sm_downPaymentPercent : float;
  sm_mortgageAmount : float;
  sm_cmhcInsurance : float;
  sm_cmhcPremiumRate : float;
  sm_cmhcPst : float;
  sm_cmhcPstRate : float;
  sm_additionalFinancing : float;
  sm_originalPrincipal : float;
  sm_totalInterestPaid : float;
  sm_totalPaid : float;
  sm_totalAdditionalPayments : float;
  sm_interestSaved : float;
  sm_timeSaved : float;
  sm_amortizationYears : float;
  sm_actualPayoffMonths : Z;
  sm_paymentFrequency : PaymentFrequency;
  sm_prepaymentLimitViolations : option Z
}.

Record AmortizationSchedule : Type := mkAmortizationSchedule {
  payments : list PaymentDetail;
  totalInterest : float;
  totalPrincipal : float;
  totalPayments : float;
  summary : Summary
}.

(** *** The leaves *)

Definition getCMHCPremiumRate (downPaymentPercent : float) : result float :=
  if 20 <=? downPaymentPercent then Ok 0
  else if 15 <=? downPaymentPercent then Ok 0.028
  else if 10 <=? downPaymentPercent then Ok 0.031
  else if 5 <=? downPaymentPercent then Ok 0.04
  else Throw "Down payment must be at least 5% for properties up to $500,000".

Definition calculateMortgageWithInsurance
  (purchasePrice downPaymentPercent additionalFinancing cmhcPstRate : float)
  : result InsuranceDetails :=
  let downPayment := purchasePrice * (downPaymentPercent / 100) in
  let mortgageAmount := purchasePrice - downPayment in
  bind (getCMHCPremiumRate downPaymentPercent) (fun cmhcPremiumRate =>
  let cmhcInsurance := mortgageAmount * cmhcPremiumRate in
  let cmhcPst := cmhcInsurance * cmhcPstRate in
  let totalPrincipal := mortgageAmount + cmhcInsurance + cmhcPst + additionalFinancing in
  Ok {| ins_downPayment := downPayment;
        ins_mortgageAmount := mortgageAmount;
        ins_cmhcPremiumRate := cmhcPremiumRate;
        ins_cmhcInsurance := cmhcInsurance;
        ins_cmhcPst := cmhcPst;
        ins_cmhcPstRate := cmhcPstRate;
        ins_additionalFinancing := additionalFinancing;
        ins_totalPrincipal := totalPrincipal |}).

Definition getPaymentCount (years : float) (frequency : PaymentFrequency) : Z :=
  Math_round (years * ofZ (getPaymentsPerYear frequency)).

Definition getAdditionalPaymentStep (paymentNumber : Z) (totalAdditional : float)
  (addlPmt : AdditionalPayment) : float :=
  match ap_enabled addlPmt with
  | Some false => totalAdditional
  | _ =>
    if (paymentNumber <? ap_startPayment addlPmt)%Z then totalAdditional
    else if match ap_endPayment addlPmt with
            | Some endPayment =>
                negb (endPayment =? 0)%Z && (paymentNumber >? endPayment)%Z
            | None => false
            end
    then totalAdditional
    else
      match ap_type addlPmt with
      | one_time =>
          if (paymentNumber =? ap_startPayment addlPmt)%Z
          then totalAdditional + ap_amount addlPmt
          else totalAdditional
      | recurring =>
          let frequency :=
            match ap_frequency addlPmt with
            | Some f => if (f =? 0)%Z then 1%Z else f
            | None => 1%Z
            end in
          let paymentsSinceStart := (paymentNumber - ap_startPayment addlPmt)%Z in
          if (Z.rem paymentsSinceStart frequency =? 0)%Z
          then totalAdditional + ap_amount addlPmt
          else totalAdditional
      end
  end.

Definition getAdditionalPaymentAmount (paymentNumber : Z)
  (additionalPayments : list AdditionalPayment) : float :=
  fold_left (getAdditionalPaymentStep paymentNumber) additionalPayments 0.

Definition getDaysForPayment (paymentNumber : Z) (frequency : PaymentFrequency) : Z :=
  match frequency with
  | monthly => Math_round (ofZ (paymentNumber - 1) * 30.44)
  | bi_weekly | accelerated_bi_weekly => ((paymentNumber - 1) * 14)%Z
  | weekly => ((paymentNumber - 1) * 7)%Z
  end.

(** [[...renewalPeriods].sort((a, b) => a.startPayment - b.startPayment)]. *)
Fixpoint insertPeriod (p : RenewalPeriod) (l : list RenewalPeriod) : list RenewalPeriod :=
  match l with
  | [] => [p]
  | q :: l' =>
      if (rp_startPayment p <=? rp_startPayment q)%Z then p :: l
      else q :: insertPeriod p l'
  end.

Definition sortPeriods (l : list RenewalPeriod) : list RenewalPeriod :=
  fold_right insertPeriod [] l.

(** The start payments of a list of periods are in ascending order. *)
Fixpoint ascending (periods : list RenewalPeriod) : Prop :=
  match periods with
  | term :: ((nextTerm :: _) as rest) =>
      (rp_startPayment term <= rp_startPayment nextTerm)%Z /\ ascending rest
  | _ => True
  end.

(** The payment slots of the periods: the turns the inner loop has in all, one
    term after the other. *)
Fixpoint paymentSlots (total : Z) (periods : list RenewalPeriod) : Z :=
  match periods with
  | [] => 0
  | term :: rest =>
      let termEndPayment :=
        match rest with
        | nextTerm :: _ => (rp_startPayment nextTerm - 1)%Z
        | [] => total
        end in
      (Z.max 0 (termEndPayment - rp_startPayment term + 1) + paymentSlots total rest)%Z
  end.

(** *** The engine *)

Record LoopState : Type := mkLoopState {
  balance : float;
  totalInterestPaid : float;
  totalAdditionalPayments : float;
  paymentNumber : Z;
  prepaymentLimitViolations : Z;
  currentPeriodLumpSum : float;
  currentPeriodIdentifier : string;
  ledger : list PaymentDetail
}.

Record ShadowState : Type := mkShadowState {
  balanceWithout : float;
  totalInterestWithout : float;
  currentPaymentNumber : Z
}.

Section Engine.

Variable Math_pow : float -> float -> float.

Definition getPeriodicRate (annualRate : float) (frequency : PaymentFrequency) : float :=
  let paymentsPerYear := getPaymentsPerYear frequency in
  let semiAnnualRate := annualRate / 2 in
  let periodicRate := Math_pow (1 + semiAnnualRate) (2 / ofZ paymentsPerYear) - 1 in
  periodicRate.

Definition calculatePayment (principal periodicRate : float) (numberOfPayments : Z)
  : float :=
  if periodicRate =? 0 then principal / ofZ numberOfPayments
  else
    let payment :=
      principal *
      (periodicRate * Math_pow (1 + periodicRate) (ofZ numberOfPayments)) /
      (Math_pow (1 + periodicRate) (ofZ numberOfPayments) - 1) in
    payment.

(** The block "Check prepayment limits if enabled" of the loop body.  The
    period key is [getPeriodIdentifier] of the exact reading: the key is made
    of integers, and the quotient of the month difference by 12, when it is
    not an integer, is a twelfth away from one at least, so that its floor is
    the same in binary64. *)
Definition checkPrepaymentLimits (prepaymentLimits : option PrepaymentLimits)
  (principal : float) (startDate paymentDate : Date) (actualAdditionalPayment : float)
  (lumpSum : float) (identifier : string) (violations : Z)
  : bool * (float * string * Z) :=
  match prepaymentLimits with
  | Some limits =>
      if 0 <? actualAdditionalPayment then
        let periodId := getPeriodIdentifier paymentDate startDate (resetPeriod limits) in
        let '(identifier, lumpSum) :=
          if negb (String.eqb periodId identifier)
          then (periodId, 0)
          else (identifier, lumpSum) in
        let lumpSum := lumpSum + actualAdditionalPayment in
        let annualLumpSumLimit := principal * (lumpSumLimitPercent limits / 100) in
        if annualLumpSumLimit <? lumpSum
        then (true, (lumpSum, identifier, (violations + 1)%Z))
        else (false, (lumpSum, identifier, violations))
      else (false, (lumpSum, identifier, violations))
  | None => (false, (lumpSum, identifier, violations))
  end.

(** One turn of the inner loop, up to [paymentNumber++]. *)
Definition makePayment (params : MortgageParams) (term : RenewalPeriod)
  (termIndex : Z) (periodicRate payment : float) (st : LoopState) : LoopState :=
  let interestPayment := balance st * periodicRate in
  let principalPayment := payment - interestPayment in
  let actualPrincipalPayment := Math_min principalPayment (balance st) in
  let actualPayment := actualPrincipalPayment + interestPayment in
  let balance1 := balance st - actualPrincipalPayment in
  let totalInterestPaid' := totalInterestPaid st + interestPayment in
  let additionalPayment :=
    getAdditionalPaymentAmount (paymentNumber st) (additionalPayments params) in
  let actualAdditionalPayment := Math_min additionalPayment balance1 in
  let balance2 := balance1 - actualAdditionalPayment in
  let totalAdditionalPayments' := totalAdditionalPayments st + actualAdditionalPayment in
  let daysToAdd := getDaysForPayment (paymentNumber st) (paymentFrequency params) in
  let paymentDate := addDays (startDate params) daysToAdd in
  let '(exceedsLimit, (lumpSum, identifier, violations)) :=
    checkPrepaymentLimits (prepaymentLimits params) (principal params)
      (startDate params) paymentDate actualAdditionalPayment
      (currentPeriodLumpSum st) (currentPeriodIdentifier st)
      (prepaymentLimitViolations st) in
  {| balance := balance2;
     totalInterestPaid := totalInterestPaid';
     totalAdditionalPayments := totalAdditionalPayments';
     paymentNumber := (paymentNumber st + 1)%Z;
     prepaymentLimitViolations := violations;
     currentPeriodLumpSum := lumpSum;
     currentPeriodIdentifier := identifier;
     ledger :=
       ledger st ++
       [ {| pd_paymentNumber := paymentNumber st;
            pd_paymentDate := paymentDate;
            pd_payment := actualPayment;
            pd_principal := actualPrincipalPayment;
            pd_interest := interestPayment;
            pd_additionalPayment := actualAdditionalPayment;
            pd_balance := Math_max 0 balance2;
            pd_interestRate := rp_annualRate term;
            pd_termNumber := (termIndex + 1)%Z;
            pd_exceedsLimit := if exceedsLimit then Some true else None |} ] |}.

(** [for (let i = 0; i < paymentsInTerm && balance > 0.01; i++) { ...
    if (balance < 0.01) break; }]. *)
Fixpoint generatePayments (turns : nat) (params : MortgageParams)
  (term : RenewalPeriod) (termIndex : Z) (periodicRate payment : float)
  (st : LoopState) : LoopState :=
  match turns with
  | O => st
  | S turns' =>
      if 0.01 <? balance st then
        let st' := makePayment params term termIndex periodicRate payment st in
        if balance st' <? 0.01 then st'
        else generatePayments turns' params term termIndex periodicRate payment st'
      else st
  end.

(** The outer loop, over the sorted periods that are left. *)
Fixpoint processTerms (params : MortgageParams) (totalPayments : Z)
  (termIndex : Z) (periods : list RenewalPeriod) (st : LoopState) : LoopState :=
  match periods with
  | [] => st
  | term :: rest =>
      let termStartPayment := rp_startPayment term in
      let termEndPayment :=
        match rest with
        | nextTerm :: _ => (rp_startPayment nextTerm - 1)%Z
        | [] => totalPayments
        end in
      let paymentsInTerm := (termEndPayment - termStartPayment + 1)%Z in
      let paymentsRemaining := (totalPayments - paymentNumber st + 1)%Z in
      let periodicRate := getPeriodicRate (rp_annualRate term) (paymentFrequency params) in
      let payment := calculatePayment (balance st) periodicRate paymentsRemaining in
      let st' :=
        generatePayments (Z.to_nat paymentsInTerm) params term termIndex
          periodicRate payment st in
      if balance st' <? 0.01 then st'
      else processTerms params totalPayments (termIndex + 1)%Z rest st'
  end.

(** One turn of the inner [while] of the second run. *)
Definition shadowPayment (periodicRate payment : float) (st : ShadowState) : ShadowState :=
  let interestPayment := balanceWithout st * periodicRate in
  let principalPayment := payment - interestPayment in
  let actualPrincipalPayment := Math_min principalPayment (balanceWithout st) in
  {| balanceWithout := balanceWithout st - actualPrincipalPayment;
     totalInterestWithout := totalInterestWithout st + interestPayment;
     currentPaymentNumber := (currentPaymentNumber st + 1)%Z |}.

(** [while (currentPaymentNumber <= termEndPayment && balanceWithout > 0.01 &&
    currentPaymentNumber <= totalPayments)]; [turns] bounds the turns the
    guard allows. *)
Fixpoint shadowPayments (turns : nat) (termEndPayment totalPayments : Z)
  (periodicRate payment : float) (st : ShadowState) : ShadowState :=
  match turns with
  | O => st
  | S turns' =>
      if (currentPaymentNumber st <=? termEndPayment)%Z
         && (0.01 <? balanceWithout st)
         && (currentPaymentNumber st <=? totalPayments)%Z
      then shadowPayments turns' termEndPayment totalPayments periodicRate payment
             (shadowPayment periodicRate payment st)
      else st
  end.

Fixpoint shadowTerms (frequency : PaymentFrequency) (totalPayments : Z)
  (periods : list RenewalPeriod) (st : ShadowState) : ShadowState :=
  match periods with
  | [] => st
  | term :: rest =>
      if 0.01 <? balanceWithout st then
        let termEndPayment :=
          match rest with
          | nextTerm :: _ => (rp_startPayment nextTerm - 1)%Z
          | [] => totalPayments
          end in
        let paymentsRemaining := (totalPayments - currentPaymentNumber st + 1)%Z in
        let periodicRate := getPeriodicRate (rp_annualRate term) frequency in
        let payment := calculatePayment (balanceWithout st) periodicRate paymentsRemaining in
        let turns :=
          Z.to_nat (Z.min termEndPayment totalPayments - currentPaymentNumber st + 1) in
        shadowTerms frequency totalPayments rest
          (shadowPayments turns termEndPayment totalPayments periodicRate payment st)
      else st
  end.

(** The state before the first payment. *)
Definition initialState (params : MortgageParams) : LoopState :=
  {| balance := principal params;
     totalInterestPaid := 0;
     totalAdditionalPayments := 0;
     paymentNumber := 1;
     prepaymentLimitViolations := 0;
     currentPeriodLumpSum := 0;
     currentPeriodIdentifier := EmptyString;
     ledger := [] |}.

(** The first loop: the state when it ends. *)
Definition runSchedule (params : MortgageParams) : LoopState :=
  processTerms params
    (getPaymentCount (amortizationYears params) (paymentFrequency params))
    0%Z (sortPeriods (renewalPeriods params)) (initialState params).

(** [totalInterestWithout] of the second run. *)
Definition interestWithoutAdditional (params : MortgageParams) : float :=
  totalInterestWithout
    (shadowTerms (paymentFrequency params)
       (getPaymentCount (amortizationYears params) (paymentFrequency params))
       (sortPeriods (renewalPeriods params))
       {| balanceWithout := principal params;
          totalInterestWithout := 0;
          currentPaymentNumber := 1 |}).

Definition buildSchedule (params : MortgageParams)
  (insuranceDetails : InsuranceDetails) : AmortizationSchedule :=
  let st := runSchedule params in
  let actualPayoffMonths :=
    Math_round (ofZ (Z.of_nat (List.length (ledger st)))
                / ofZ (getPaymentsPerYear (paymentFrequency params)) * 12) in
  let originalPayoffMonths := amortizationYears params * 12 in
  let timeSaved := originalPayoffMonths - ofZ actualPayoffMonths in
  let interestSaved :=
    if 0 <? totalAdditionalPayments st
    then Math_max 0 (interestWithoutAdditional params - totalInterestPaid st)
    else 0 in
  {| payments := ledger st;
     totalInterest := totalInterestPaid st;
     totalPrincipal := principal params;
     totalPayments := fold_left (fun sum p => sum + pd_payment p) (ledger st) 0;
     summary :=
       {| sm_purchasePrice := purchasePrice params;
          sm_downPayment := ins_downPayment insuranceDetails;
          sm_downPaymentPercent := downPaymentPercent params;
          sm_mortgageAmount := ins_mortgageAmount insuranceDetails;
          sm_cmhcInsurance := ins_cmhcInsurance insuranceDetails;
          sm_cmhcPremiumRate := ins_cmhcPremiumRate insuranceDetails;
          sm_cmhcPst := ins_cmhcPst insuranceDetails;
          sm_cmhcPstRate := ins_cmhcPstRate insuranceDetails;
          sm_additionalFinancing := ins_additionalFinancing insuranceDetails;
          sm_originalPrincipal := principal params;
          sm_totalInterestPaid := totalInterestPaid st;
          sm_totalPaid := principal params + totalInterestPaid st;
          sm_totalAdditionalPayments := totalAdditionalPayments st;
          sm_interestSaved := interestSaved;
          sm_timeSaved := timeSaved;
          sm_amortizationYears := amortizationYears params;
          sm_actualPayoffMonths := actualPayoffMonths;
          sm_paymentFrequency := paymentFrequency params;
          sm_prepaymentLimitViolations :=
            match prepaymentLimits params with
            | Some _ => Some (prepaymentLimitViolations st)
            | None => None
            end |} |}.

Definition calculateAmortizationSchedule (params : MortgageParams)
  : result AmortizationSchedule :=
  if (List.length (renewalPeriods params) =? 0)%nat
  then Throw "At least one renewal period must be specified"
  else
    bind (calculateMortgageWithInsurance (purchasePrice params)
            (downPaymentPercent params) (additionalFinancing params)
            (cmhcPstRate params)) (fun insuranceDetails =>
    Ok (buildSchedule params insuranceDetails)).

End Engine.

(** [Math.pow] on the base 1, which is all that a run whose annual rates are
    0 reads of it: [Math.pow(1, y)] is 1 for every finite [y].  No other base
    is given a value here. *)
Definition Math_pow_of_one (b e : float) : float :=
  if Leibniz.eqb b 1 then 1 else nan.

(** *** The limit tracker as the specification words it

    The tracker holds the key of the current period and the running total.
    An entry with an extra payment above 0 is looked at: when its key differs
    from the tracker's, the total restarts from 0; the extra payment is added;
    and the entry exceeds when the total is above the limit, the original
    principal times the hundredth of the limit percent. *)
Definition trackerStep (limits : PrepaymentLimits) (principal : float) (startDate : Date)
  (state : string * float) (e : PaymentDetail) : bool * (string * float) :=
  let '(currentKey, currentTotal) := state in
  if 0 <? pd_additionalPayment e then
    let key := getPeriodIdentifier (pd_paymentDate e) startDate (resetPeriod limits) in
    let currentTotal := if String.eqb key currentKey then currentTotal else 0 in
    let currentTotal := currentTotal + pd_additionalPayment e in
    (principal * (lumpSumLimitPercent limits / 100) <? currentTotal, (key, currentTotal))
  else (false, state).

(** The flags of a ledger, entry by entry, from a state of the tracker, and
    the state after the ledger. *)
Fixpoint trackedFlags (limits : PrepaymentLimits) (principal : float) (startDate : Date)
  (state : string * float) (entries : list PaymentDetail) : list bool :=
  match entries with
  | [] => []
  | e :: rest =>
      let '(exceeds, state') := trackerStep limits principal startDate state e in
      exceeds :: trackedFlags limits principal startDate state' rest
  end.

Definition trackedState (limits : PrepaymentLimits) (principal : float) (startDate : Date)
  (state : string * float) (entries : list PaymentDetail) : string * float :=
  fold_left (fun state e => snd (trackerStep limits principal startDate state e))
    entries state.

Definition flagged (e : PaymentDetail) : bool :=
  match pd_exceedsLimit e with
  | Some b => b
  | None => false
  end.

(** *** Parameter sets in binary64 *)

(** A principal of 90000 over one year at the rate 0, a limit of 35 percent,
    and a single lump sum of 31500 at payment 1: exactly 35 percent of the
    principal. *)
Definition params_at_the_limit : MortgageParams :=
  {| purchasePrice := 112500;
     downPaymentPercent := 20;
     additionalFinancing := 0;
     cmhcPstRate := 0;
     principal := 90000;
     amortizationYears := 1;
     paymentFrequency := monthly;
     startDate := days_from_civil 2024 1 15;
     renewalPeriods :=
       [ {| rp_startPayment := 1; rp_annualRate := 0; rp_termYears := 1 |} ];
     additionalPayments :=
       [ {| ap_type := one_time; ap_amount := 31500; ap_startPayment := 1;
            ap_endPayment := None; ap_frequency := None; ap_enabled := None |} ];
     prepaymentLimits :=
       Some {| lumpSumLimitPercent := 35; paymentIncreaseLimitPercent := 15;
               resetPeriod := anniversary |} |}.

(** A principal of 562500 over two years at the rate 0, in two periods, the
    second from payment 7; a limit of 15 percent a mortgage year, and a
    recurring 50000 every sixth payment from payment 3 to payment 9: two lump
    sums in the first mortgage year, one in each period. *)
Definition params_limits : MortgageParams :=
  {| purchasePrice := 625000;
     downPaymentPercent := 10;
     additionalFinancing := 0;
     cmhcPstRate := 0;
     principal := 562500;
     amortizationYears := 2;
     paymentFrequency := monthly;
     startDate := days_from_civil 2024 1 15;
     renewalPeriods :=
       [ {| rp_startPayment := 1; rp_annualRate := 0; rp_termYears := 1 |};
         {| rp_startPayment := 7; rp_annualRate := 0; rp_termYears := 1 |} ];
     additionalPayments :=
       [ {| ap_type := recurring; ap_amount := 50000; ap_startPayment := 3;
            ap_endPayment := Some 9%Z; ap_frequency := Some 6%Z; ap_enabled := None |} ];
     prepaymentLimits :=
       Some {| lumpSumLimitPercent := 15; paymentIncreaseLimitPercent := 15;
               resetPeriod := anniversary |} |}.

(** 7e15 over one year at the rate 0, in one period from payment 1: twelve
    payments of a twelfth, which is not a binary64 number. *)
Definition params_large_principal : MortgageParams :=
  {| purchasePrice := 8750000000000000;
     downPaymentPercent := 20;
     additionalFinancing := 0;
     cmhcPstRate := 0;
     principal := 7000000000000000;
     amortizationYears := 1;
     paymentFrequency := monthly;
     startDate := days_from_civil 2024 1 15;
     renewalPeriods :=
       [ {| rp_startPayment := 1; rp_annualRate := 0; rp_termYears := 1 |} ];
     additionalPayments := [];
     prepaymentLimits := None |}.

(** The same, with the period counted from payment 0: thirteen turns. *)
Definition params_from_payment_0 : MortgageParams :=
  {| purchasePrice := 8750000000000000;
     downPaymentPercent := 20;
     additionalFinancing := 0;
     cmhcPstRate := 0;
     principal := 7000000000000000;
     amortizationYears := 1;
     paymentFrequency := monthly;
     startDate := days_from_civil 2024 1 15;
     renewalPeriods :=
       [ {| rp_startPayment := 0; rp_annualRate := 0; rp_termYears := 1 |} ];
     additionalPayments := [];
     prepaymentLimits := None |}.

(** The same from payment 1, with a second period that starts at payment 14,
    one beyond the payment after the twelve of the year. *)
Definition params_second_period_late : MortgageParams :=
  {| purchasePrice := 8750000000000000;
     downPaymentPercent := 20;
     additionalFinancing := 0;
     cmhcPstRate := 0;
     principal := 7000000000000000;
     amortizationYears := 1;
     paymentFrequency := monthly;
     startDate := days_from_civil 2024 1 15;
     renewalPeriods :=
       [ {| rp_startPayment := 1; rp_annualRate := 0; rp_termYears := 1 |};
         {| rp_startPayment := 14; rp_annualRate := 0; rp_termYears := 1 |} ];
     additionalPayments := [];
     prepaymentLimits := None |}.

End Binary64.

(** The flags of the ledger are the tracker's, its key and total are those
    the tracker ends on, and the violations are the flags counted. *)
Definition trackerInvariant (limits : Binary64.PrepaymentLimits)
  (params : Binary64.MortgageParams) (st : Binary64.LoopState) : Prop :=
  map Binary64.flagged (Binary64.ledger st)
  = Binary64.trackedFlags limits (Binary64.principal params) (Binary64.startDate params)
      (EmptyString, PrimFloat.zero) (Binary64.ledger st) /\
  Binary64.trackedState limits (Binary64.principal params) (Binary64.startDate params)
    (EmptyString, PrimFloat.zero) (Binary64.ledger st)
  = (Binary64.currentPeriodIdentifier st, Binary64.currentPeriodLumpSum st) /\
  Binary64.prepaymentLimitViolations st
  = Z.of_nat (List.length (filter Binary64.flagged (Binary64.ledger st))) /\
  Forall (fun e => Binary64.pd_exceedsLimit e = Some true \/ Binary64.pd_exceedsLimit e = None)
    (Binary64.ledger st).

(** ** Parameter sets used below *)

Definition singleTerm (annualRate : Q) : list RenewalPeriod :=
  [ {| rp_startPayment := 1; rp_annualRate := annualRate; rp_termYears := 5 |} ].

(** A purchase of 500000 with 20 percent down, and a [principal] field that is
    not the total the insurance calculator gives (400000). *)
Definition params_other_principal : MortgageParams :=
  {| purchasePrice := 500000;
     downPaymentPercent := 20;
     additionalFinancing := 0;
     cmhcPstRate := 0;
     principal := 1000;
     amortizationYears := 1;
     paymentFrequency := monthly;
     startDate := days_from_civil 2024 1 15;
     renewalPeriods := singleTerm 0;
     additionalPayments := [];
     prepaymentLimits := None |}.

(** An annual rate whose monthly rate is exactly one half of a percent:
    [(1 + rate_half_percent / 2) = 1.005 ^ 6]. *)
Definition rate_half_percent : Q := 0.06075501878753125.

(** A principal of 562500 over two years, a lump-sum limit of 15 percent a
    mortgage year, and a recurring 50000 every sixth payment from payment 3 to
    payment 9: two lump sums, both in the first mortgage year. *)
Definition params_limits : MortgageParams :=
  {| purchasePrice := 625000;
     downPaymentPercent := 10;
     additionalFinancing := 0;
     cmhcPstRate := 0;
     principal := 562500;
     amortizationYears := 2;
     paymentFrequency := monthly;
     startDate := days_from_civil 2024 1 15;
     renewalPeriods := singleTerm rate_half_percent;
     additionalPayments :=
       [ {| ap_type := recurring; ap_amount := 50000; ap_startPayment := 3;
            ap_endPayment := Some 9%Z; ap_frequency := Some 6%Z; ap_enabled := None |} ];
     prepaymentLimits :=
       Some {| lumpSumLimitPercent := 15; paymentIncreaseLimitPercent := 15;
               resetPeriod := anniversary |} |}.

(** One period that starts at payment 2: the payments of the term are counted
    from its start, so the year has 11 of them. *)
Definition params_late_start : MortgageParams :=
  {| purchasePrice := 500000;
     downPaymentPercent := 20;
     additionalFinancing := 0;
     cmhcPstRate := 0;
     principal := 1200;
     amortizationYears := 1;
     paymentFrequency := monthly;
     startDate := days_from_civil 2024 1 15;
     renewalPeriods :=
       [ {| rp_startPayment := 2; rp_annualRate := 0; rp_termYears := 1 |} ];
     additionalPayments := [];
     prepaymentLimits := None |}.

(** One period that starts after the last of the 12 payments. *)
Definition params_beyond_horizon : MortgageParams :=
  {| purchasePrice := 500000;
     downPaymentPercent := 20;
     additionalFinancing := 0;
     cmhcPstRate := 0;
     principal := 400000;
     amortizationYears := 1;
     paymentFrequency := monthly;
     startDate := days_from_civil 2024 1 15;
     renewalPeriods :=
       [ {| rp_startPayment := 13; rp_annualRate := 5 # 100; rp_termYears := 1 |} ];
     additionalPayments := [];
     prepaymentLimits := None |}.

(** Twenty-five years of monthly payments in two periods, the second from
    payment 61, closed by a lump sum at payment 62. *)
Definition params_two_terms : MortgageParams :=
  {| purchasePrice := 375000;
     downPaymentPercent := 20;
     additionalFinancing := 0;
     cmhcPstRate := 0;
     principal := 300000;
     amortizationYears := 25;
     paymentFrequency := monthly;
     startDate := days_from_civil 2024 1 15;
     renewalPeriods :=
       [ {| rp_startPayment := 1; rp_annualRate := 0; rp_termYears := 5 |};
         {| rp_startPayment := 61; rp_annualRate := rate_half_percent; rp_termYears := 5 |} ];
     additionalPayments :=
       [ {| ap_type := one_time; ap_amount := 10000000; ap_startPayment := 62;
            ap_endPayment := None; ap_frequency := None; ap_enabled := None |} ];
     prepaymentLimits := None |}.

(** One extra payment of 10000 at payment 12, with no limits set. *)
Definition params_lump_sum : MortgageParams :=
  {| purchasePrice := 500000;
     downPaymentPercent := 20;
     additionalFinancing := 0;
     cmhcPstRate := 0;
     principal := 400000;
     amortizationYears := 2;
     paymentFrequency := monthly;
     startDate := days_from_civil 2024 1 15;
     renewalPeriods := singleTerm rate_half_percent;
     additionalPayments :=
       [ {| ap_type := one_time; ap_amount := 10000; ap_startPayment := 12;
            ap_endPayment := None; ap_frequency := None; ap_enabled := None |} ];
     prepaymentLimits := None |}.

Definition schedule_lump_sum : result AmortizationSchedule :=
  Eval vm_compute in calculateAmortizationSchedule pow_approx params_lump_sum.

Definition schedule_late_start : result AmortizationSchedule :=
  Eval vm_compute in calculateAmortizationSchedule pow_approx params_late_start.

Definition ledger_two_terms : list PaymentDetail :=
  Eval vm_compute in ledger (runSchedule pow_approx params_two_terms).

(** Nothing is owed: a principal field of 0. *)
Definition params_nothing_owed : MortgageParams :=
  {| purchasePrice := 500000;
     downPaymentPercent := 20;
     additionalFinancing := 0;
     cmhcPstRate := 0;
     principal := 0;
     amortizationYears := 25;
     paymentFrequency := monthly;
     startDate := days_from_civil 2024 1 15;
     renewalPeriods := singleTerm (5 # 100);
     additionalPayments := [];
     prepaymentLimits := None |}.

(** A storage that holds one profile, written by [encodeProfiles]. *)
Definition oneProfileStored : LocalStorage :=
  setItem STORAGE_KEY
    (encodeProfiles
       [ {| mp_id := "1705312800000-k3j9x2m1q"; mp_name := "Home";
            mp_createdAt := "2024-01-15T10:00:00.000Z";
            mp_updatedAt := "2024-01-15T10:00:00.000Z"; mp_data := tt |} ])
    (fun _ => None).

(** A storage whose text under the key is [null]: JSON, and no array. *)
Definition nullStored : LocalStorage :=
  setItem STORAGE_KEY "null" (fun _ => None).

(** * Properties *)

(** ** Numbers *)

Lemma norm_eq (x : Q) : norm x == x.
Proof. apply Qred_correct. Qed.

Lemma Qltb_lt (x y : Q) : Qltb x y = true <-> x < y.
Proof.
  unfold Qltb. rewrite negb_true_iff. split; intros H.
  - apply Qnot_le_lt. intros Hle. apply Qle_bool_iff in Hle. congruence.
  - destruct (Qle_bool y x) eqn:E; trivial.
    apply Qle_bool_iff in E. apply Qle_not_lt in E. contradiction.
Qed.

Lemma Qltb_ge (x y : Q) : Qltb x y = false <-> y <= x.
Proof.
  unfold Qltb. rewrite negb_false_iff. apply Qle_bool_iff.
Qed.

Lemma Qle_bool_false (x y : Q) : Qle_bool x y = false <-> y < x.
Proof.
  rewrite <- Qltb_lt. unfold Qltb. rewrite negb_true_iff. reflexivity.
Qed.

Lemma Math_min_spec (x y : Q) :
  (x <= y /\ Math_min x y == x) \/ (y <= x /\ Math_min x y == y).
Proof.
  unfold Math_min. destruct (Q.min_spec x y) as [[H E] | [H E]].
  - left. split; [apply Qlt_le_weak; exact H | exact E].
  - right. split; assumption.
Qed.

Lemma Math_max_spec (x y : Q) :
  (x <= y /\ Math_max x y == y) \/ (y <= x /\ Math_max x y == x).
Proof.
  unfold Math_max. destruct (Q.max_spec x y) as [[H E] | [H E]].
  - left. split; [apply Qlt_le_weak; exact H | exact E].
  - right. split; assumption.
Qed.

Lemma Math_min_eq (a b c d : Q) : a == c -> b == d -> Math_min a b == Math_min c d.
Proof.
  intros H1 H2. destruct (Math_min_spec a b) as [[? ->] | [? ->]];
    destruct (Math_min_spec c d) as [[? ->] | [? ->]]; lra.
Qed.

Lemma Math_min_le_r (a b : Q) : Math_min a b <= b.
Proof. destruct (Math_min_spec a b) as [[? ->] | [? ->]]; lra. Qed.

Lemma Math_min_le_l (a b : Q) : Math_min a b <= a.
Proof. destruct (Math_min_spec a b) as [[? ->] | [? ->]]; lra. Qed.

Lemma Math_max_0_nonneg (a : Q) : 0 <= a -> Math_max 0 a == a.
Proof. intros H. destruct (Math_max_spec 0 a) as [[? ->] | [? ->]]; lra. Qed.

Lemma Math_max_eq (a b c : Q) : b == c -> Math_max a b == Math_max a c.
Proof.
  intros H. destruct (Math_max_spec a b) as [[? ->] | [? ->]];
    destruct (Math_max_spec a c) as [[? ->] | [? ->]]; lra.
Qed.

(** ** [pow_approx] is such a [Math_pow] *)

Lemma iroot_search_spec (d : positive) (N : Z) (fuel : nat) :
  forall lo hi : Z,
    (0 <= lo < hi)%Z -> (hi - lo <= 2 ^ Z.of_nat fuel)%Z ->
    (lo ^ Zpos d <= N < hi ^ Zpos d)%Z ->
    let x := iroot_search fuel d N lo hi in
    (0 <= x /\ x ^ Zpos d <= N < (x + 1) ^ Zpos d)%Z.
Proof.
  induction fuel as [| fuel IH]; intros lo hi Hlo Hgap Hbounds; cbn [iroot_search].
  - cbn in Hgap. replace (lo + 1)%Z with hi by lia. lia.
  - destruct (hi - lo <=? 1)%Z eqn:E.
    + apply Z.leb_le in E. replace (lo + 1)%Z with hi by lia. lia.
    + apply Z.leb_gt in E.
      rewrite Nat2Z.inj_succ, Z.pow_succ_r in Hgap by lia.
      pose proof (Z.div_mod (lo + hi) 2 ltac:(lia)) as Hdiv.
      pose proof (Z.mod_pos_bound (lo + hi) 2 ltac:(lia)) as Hmod.
      destruct (((lo + hi) / 2) ^ Zpos d <=? N)%Z eqn:Emid.
      * apply Z.leb_le in Emid. apply IH; lia.
      * apply Z.leb_gt in Emid. apply IH; lia.
Qed.

Lemma iroot_spec (d : positive) (N : Z) :
  (0 < N)%Z ->
  (0 <= iroot d N /\ iroot d N ^ Zpos d <= N < (iroot d N + 1) ^ Zpos d)%Z.
Proof.
  intros HN. unfold iroot.
  pose proof (Z.log2_nonneg N) as Hlog.
  pose proof (Z.div_pos (Z.log2 N) (Zpos d) Hlog ltac:(lia)) as Hq.
  set (bits := (Z.log2 N / Zpos d + 1)%Z).
  assert (Hbits : (0 < bits)%Z) by (subst bits; lia).
  apply iroot_search_spec.
  - split; [lia |]. apply Z.pow_pos_nonneg; lia.
  - rewrite Z2Nat.id by lia. lia.
  - split.
    + rewrite Z.pow_0_l by lia. lia.
    + rewrite <- Z.pow_mul_r by lia.
      destruct (Z.log2_spec N HN) as [_ Hup].
      apply (Z.lt_le_trans _ _ _ Hup). apply Z.pow_le_mono_r; [lia |].
      pose proof (Z.div_mod (Z.log2 N) (Zpos d) ltac:(lia)) as Hdiv.
      pose proof (Z.mod_pos_bound (Z.log2 N) (Zpos d) ltac:(lia)) as Hmod.
      subst bits. nia.
Qed.

Lemma iroot_lower (d : positive) (N S : Z) :
  (0 < S)%Z -> (S ^ Zpos d <= N)%Z -> (S <= iroot d N)%Z.
Proof.
  intros HS HN.
  assert (HN' : (0 < N)%Z).
  { apply (Z.lt_le_trans _ (S ^ Zpos d)); [apply Z.pow_pos_nonneg; lia | exact HN]. }
  destruct (iroot_spec d N HN') as (H0 & _ & Hup).
  destruct (Z_lt_le_dec (iroot d N) S) as [Hlt | Hge]; [| exact Hge].
  assert ((iroot d N + 1) ^ Zpos d <= S ^ Zpos d)%Z by (apply Z.pow_le_mono_l; lia).
  lia.
Qed.

Lemma pow_approx_int (b : Q) (n : Z) : pow_approx b (inject_Z n) == b ^ n.
Proof.
  unfold pow_approx.
  rewrite (Qred_identity (inject_Z n)) by (cbn; apply Z.gcd_1_r).
  reflexivity.
Qed.

Lemma pow_approx_ge_1 (b e : Q) : 1 <= b -> 0 <= e -> 1 <= pow_approx b e.
Proof.
  intros Hb He. unfold pow_approx.
  assert (Hnum : (0 <= Qnum (Qred e))%Z).
  { assert (H : 0 <= Qred e) by (rewrite Qred_correct; exact He).
    unfold Qle in H. cbn in H. lia. }
  pose proof (Qpower_1_le b (Qnum (Qred e)) Hb Hnum) as Hx.
  set (x := b ^ Qnum (Qred e)) in *.
  assert (Hroot : forall d,
    1 <= Qred (inject_Z (iroot d (Qfloor (x * inject_Z (pow_scale ^ Zpos d))))
               / inject_Z pow_scale)).
  { intros d. rewrite Qred_correct.
    apply Qle_shift_div_l; [reflexivity |]. rewrite Qmult_1_l.
    rewrite <- Zle_Qle. apply iroot_lower; [reflexivity |].
    rewrite <- (Qfloor_Z (pow_scale ^ Zpos d)) at 1. apply Qfloor_resp_le.
    assert (0 <= inject_Z (pow_scale ^ Zpos d)).
    { change 0 with (inject_Z 0). rewrite <- Zle_Qle. apply Z.pow_nonneg. discriminate. }
    nra. }
  destruct (Qden (Qred e)); try exact Hx; apply Hroot.
Qed.

Lemma pow_approx_exponent (b e e' : Q) : e == e' -> pow_approx b e = pow_approx b e'.
Proof.
  intros H. unfold pow_approx. rewrite (Qred_complete e e' H). reflexivity.
Qed.

(** The root taken at a fractional exponent is below the exact one by less than
    one unit of [pow_scale]. *)
Lemma iroot_bracket (b : Q) (d : positive) :
  1 <= b ->
  let y := Qred (inject_Z (iroot d (Qfloor (b * inject_Z (pow_scale ^ Zpos d))))
                 / inject_Z pow_scale) in
  y ^ Zpos d <= b /\ b < (y + 1 / inject_Z pow_scale) ^ Zpos d.
Proof.
  intros Hb y. subst y.
  set (S := pow_scale).
  set (N := Qfloor (b * inject_Z (S ^ Zpos d))).
  assert (HS : (0 < S ^ Zpos d)%Z) by (apply Z.pow_pos_nonneg; [reflexivity | lia]).
  assert (HSq : 0 < inject_Z (S ^ Zpos d)).
  { change 0 with (inject_Z 0). rewrite <- Zlt_Qlt. exact HS. }
  assert (HN : (0 < N)%Z).
  { apply (Z.lt_le_trans _ (S ^ Zpos d)); [exact HS |].
    subst N. rewrite <- (Qfloor_Z (S ^ Zpos d)) at 1. apply Qfloor_resp_le. nra. }
  destruct (iroot_spec d N HN) as (H0 & Hlo & Hhi).
  set (x := iroot d N) in *.
  assert (Hfl : inject_Z N <= b * inject_Z (S ^ Zpos d)) by apply Qfloor_le.
  assert (Hfu : b * inject_Z (S ^ Zpos d) < inject_Z (N + 1)) by apply Qlt_floor.
  assert (Hpow : forall z : Z, (inject_Z z / inject_Z S) ^ Zpos d
                               == inject_Z (z ^ Zpos d) / inject_Z (S ^ Zpos d)).
  { intros z. unfold Qdiv. rewrite Qmult_power, Qinv_power.
    rewrite !Zpower_Qpower by lia. reflexivity. }
  rewrite Qred_correct. split.
  - rewrite Hpow. apply Qle_shift_div_r; [exact HSq |].
    apply (Qle_trans _ (inject_Z N)); [| exact Hfl].
    rewrite <- Zle_Qle. exact Hlo.
  - assert (E : inject_Z x / inject_Z S + 1 / inject_Z S == inject_Z (x + 1) / inject_Z S).
    { rewrite inject_Z_plus. unfold Qdiv. ring. }
    rewrite E, Hpow. apply Qlt_shift_div_l; [exact HSq |].
    apply (Qlt_le_trans _ (inject_Z (N + 1))); [exact Hfu |].
    rewrite <- Zle_Qle. lia.
Qed.

Lemma pow_approx_root (b : Q) (d : positive) :
  d <> 1%positive -> 1 <= b ->
  let y := pow_approx b (1 # d) in
  y ^ Zpos d <= b /\ b < (y + 1 / inject_Z pow_scale) ^ Zpos d.
Proof.
  intros Hd Hb. pose proof (iroot_bracket b d Hb) as H. cbv zeta in *.
  unfold pow_approx. rewrite (Qred_identity (1 # d)) by reflexivity.
  cbn [Qden Qnum]. change (b ^ 1) with b.
  destruct d; [exact H | exact H | contradiction Hd; reflexivity].
Qed.

(** ** The insurance calculator *)

Lemma getCMHCPremiumRate_table (p : Q) :
  (20 <= p -> getCMHCPremiumRate p = Ok 0) /\
  (15 <= p -> p < 20 -> getCMHCPremiumRate p = Ok 0.028) /\
  (10 <= p -> p < 15 -> getCMHCPremiumRate p = Ok 0.031) /\
  (5 <= p -> p < 10 -> getCMHCPremiumRate p = Ok 0.04) /\
  (p < 5 -> is_Throw (getCMHCPremiumRate p) = true).
Proof.
  unfold getCMHCPremiumRate.
  destruct (Qle_bool 20 p) eqn:E20; [apply Qle_bool_iff in E20 | apply Qle_bool_false in E20];
  (destruct (Qle_bool 15 p) eqn:E15; [apply Qle_bool_iff in E15 | apply Qle_bool_false in E15]);
  (destruct (Qle_bool 10 p) eqn:E10; [apply Qle_bool_iff in E10 | apply Qle_bool_false in E10]);
  (destruct (Qle_bool 5 p) eqn:E5; [apply Qle_bool_iff in E5 | apply Qle_bool_false in E5]);
  repeat split; intros; try reflexivity; try lra.
Qed.

Lemma getCMHCPremiumRate_throws (p : Q) :
  is_Throw (getCMHCPremiumRate p) = true <-> p < 5.
Proof.
  split.
  - intros H. destruct (Qlt_le_dec p 5) as [Hlt | Hge]; trivial.
    destruct (getCMHCPremiumRate_table p) as (H20 & H15 & H10 & H5 & _).
    destruct (Qlt_le_dec p 10); [rewrite H5 in H by assumption; discriminate |].
    destruct (Qlt_le_dec p 15); [rewrite H10 in H by assumption; discriminate |].
    destruct (Qlt_le_dec p 20); [rewrite H15 in H by assumption; discriminate |].
    rewrite H20 in H by assumption. discriminate.
  - apply getCMHCPremiumRate_table.
Qed.

(** C7: for a down payment of at least 5 percent the insurance calculator
    returns, with the premium rate of the table (0 from 20 percent, 2.80% from
    15, 3.10% from 10, 4.00% from 5), the loan amount
    [purchasePrice * (1 - p/100)], the premium [loanAmount * premiumRate], the
    surtax [premiumAmount * surtaxRate] and the total principal
    [loanAmount + premiumAmount + surtaxAmount + extraFinancing]; a purchase
    price of 625000 with 10 percent down has the premium 17437.50. *)
Theorem insurance_calculator_table :
  (forall purchasePrice p extraFinancing surtaxRate : Q,
      5 <= p ->
      exists d,
        calculateMortgageWithInsurance purchasePrice p extraFinancing surtaxRate = Ok d /\
        (20 <= p -> ins_cmhcPremiumRate d == 0) /\
        (15 <= p -> p < 20 -> ins_cmhcPremiumRate d == 0.028) /\
        (10 <= p -> p < 15 -> ins_cmhcPremiumRate d == 0.031) /\
        (5 <= p -> p < 10 -> ins_cmhcPremiumRate d == 0.04) /\
        ins_mortgageAmount d == purchasePrice * (1 - p / 100) /\
        ins_cmhcInsurance d == ins_mortgageAmount d * ins_cmhcPremiumRate d /\
        ins_cmhcPst d == ins_cmhcInsurance d * surtaxRate /\
        ins_totalPrincipal d ==
          ins_mortgageAmount d + ins_cmhcInsurance d + ins_cmhcPst d + extraFinancing) /\
  (forall extraFinancing surtaxRate : Q,
      exists d,
        calculateMortgageWithInsurance 625000 10 extraFinancing surtaxRate = Ok d /\
        ins_cmhcPremiumRate d == 0.031 /\
        ins_cmhcInsurance d == 17437.50).
Proof.
  split.
  - intros purchasePrice p extraFinancing surtaxRate Hp.
    destruct (getCMHCPremiumRate_table p) as (H20 & H15 & H10 & H5 & _).
    unfold calculateMortgageWithInsurance.
    assert (Hrate : exists rate, getCMHCPremiumRate p = Ok rate /\
              (20 <= p -> rate == 0) /\ (15 <= p -> p < 20 -> rate == 0.028) /\
              (10 <= p -> p < 15 -> rate == 0.031) /\ (5 <= p -> p < 10 -> rate == 0.04)).
    { destruct (Qlt_le_dec p 10); [exists 0.04; rewrite H5 by assumption |
        destruct (Qlt_le_dec p 15); [exists 0.031; rewrite H10 by assumption |
          destruct (Qlt_le_dec p 20); [exists 0.028; rewrite H15 by assumption |
            exists 0; rewrite H20 by assumption]]];
      repeat split; intros; try reflexivity; lra. }
    destruct Hrate as (rate & -> & R20 & R15 & R10 & R5).
    simpl. eexists. split; [reflexivity |]. simpl.
    repeat split; try assumption; try reflexivity.
    field.
  - intros extraFinancing surtaxRate. eexists. split; [reflexivity |]. simpl.
    split; reflexivity.
Qed.

Lemma insurance_calculator_table_witness :
  5 <= 10 /\
  exists d, calculateMortgageWithInsurance 625000 10 7500 0 = Ok d /\
            ins_totalPrincipal d == 587437.5.
Proof.
  split; [discriminate |].
  destruct (proj1 insurance_calculator_table 625000 10 7500 0) as (d & Hd & _).
  - discriminate.
  - exists d. split; [exact Hd |].
    vm_compute in Hd. injection Hd as <-. reflexivity.
Defined.

(** ** The rate converter *)

(** With [pow_approx] for [Math.pow], 5 percent a year is 0.0041239 a month,
    and a rate of 0 stays 0 at every cadence. *)
Lemma periodic_rate_examples :
  0.0041239 <= getPeriodicRate pow_approx 0.05 monthly /\
  getPeriodicRate pow_approx 0.05 monthly <= 0.0041240 /\
  forall frequency, getPeriodicRate pow_approx 0 frequency == 0.
Proof.
  split; [vm_compute; discriminate |].
  split; [vm_compute; discriminate |].
  intros []; vm_compute; reflexivity.
Qed.

(** With [pow_approx], the periodic rate compounds over half a year to the
    semi-annual rate, from below and within one unit of [pow_scale]. *)
Lemma periodic_rate_brackets (annualRate : Q) (frequency : PaymentFrequency) :
  0 <= annualRate ->
  let r := getPeriodicRate pow_approx annualRate frequency in
  let half := (getPaymentsPerYear frequency / 2)%Z in
  (1 + r) ^ half <= 1 + annualRate / 2 /\
  1 + annualRate / 2 < (1 + r + 1 / inject_Z pow_scale) ^ half.
Proof.
  intros Ha r half. subst r half. unfold getPeriodicRate.
  assert (Hb : 1 <= 1 + annualRate / 2).
  { unfold Qdiv. change (/ 2) with (1 # 2). lra. }
  set (b := 1 + annualRate / 2) in *.
  assert (H : forall d : positive, d <> 1%positive ->
            2 / inject_Z (getPaymentsPerYear frequency) == 1 # d ->
            (getPaymentsPerYear frequency / 2)%Z = Zpos d ->
            (1 + (pow_approx b (2 / inject_Z (getPaymentsPerYear frequency)) - 1))
              ^ (getPaymentsPerYear frequency / 2) <= b /\
            b < (1 + (pow_approx b (2 / inject_Z (getPaymentsPerYear frequency)) - 1)
                 + 1 / inject_Z pow_scale) ^ (getPaymentsPerYear frequency / 2)).
  { intros d Hd He Hhalf. rewrite Hhalf, (pow_approx_exponent b _ _ He).
    destruct (pow_approx_root b d Hd Hb) as [Hlo Hhi].
    set (y := pow_approx b (1 # d)) in *.
    assert (E1 : 1 + (y - 1) == y) by ring.
    rewrite !E1. split; assumption. }
  destruct frequency.
  all: first [ solve [apply (H 6%positive); [discriminate | reflexivity | reflexivity]]
             | solve [apply (H 26%positive); [discriminate | reflexivity | reflexivity]]
             | solve [apply (H 13%positive); [discriminate | reflexivity | reflexivity]] ].
Qed.

(** C8: the periodic rate is [(1 + annualRate/2)^(2 / paymentsPerYear) - 1],
    with 12 payments a year for monthly, 52 for weekly and 26 for bi-weekly and
    accelerated bi-weekly, whatever [Math.pow] is.  With [pow_approx] and an
    annual rate that is not negative the power is the root it should be:
    [1 + periodicRate], compounded over the payments of half a year, is at most
    [1 + annualRate/2], and exceeds it once [10^-12] is added to the rate. *)
Theorem periodic_rate_formula :
  (forall (Math_pow : Q -> Q -> Q) (annualRate : Q) (frequency : PaymentFrequency),
      getPeriodicRate Math_pow annualRate frequency ==
      Math_pow (1 + annualRate / 2) (2 / inject_Z (getPaymentsPerYear frequency)) - 1) /\
  getPaymentsPerYear monthly = 12%Z /\
  getPaymentsPerYear weekly = 52%Z /\
  getPaymentsPerYear bi_weekly = 26%Z /\
  getPaymentsPerYear accelerated_bi_weekly = 26%Z /\
  (forall (annualRate : Q) (frequency : PaymentFrequency),
      0 <= annualRate ->
      let r := getPeriodicRate pow_approx annualRate frequency in
      let half := (getPaymentsPerYear frequency / 2)%Z in
      (1 + r) ^ half <= 1 + annualRate / 2 /\
      1 + annualRate / 2 < (1 + r + 1 / inject_Z pow_scale) ^ half).
Proof.
  split; [| repeat split].
  - intros Math_pow annualRate frequency. unfold getPeriodicRate. reflexivity.
  - apply periodic_rate_brackets; assumption.
  - apply periodic_rate_brackets; assumption.
Qed.

(** ** The prepayment resolver *)

Lemma rem_zero_iff_mod_zero (a b : Z) :
  (Z.rem a b =? 0)%Z = (a mod b =? 0)%Z.
Proof.
  destruct (Z.eq_dec b 0) as [-> | Hb].
  - rewrite Z.rem_0_r_ext by reflexivity. rewrite Z.mod_0_r. reflexivity.
  - apply eq_true_iff_eq. rewrite !Z.eqb_eq.
    rewrite Z.rem_divide by exact Hb. rewrite Z.mod_divide by exact Hb.
    reflexivity.
Qed.

Lemma getAdditionalPaymentStep_spec (index : Z) (total : Q) (rule : AdditionalPayment) :
  validRule rule ->
  getAdditionalPaymentStep index total rule =
  if ruleContributes index rule then total + ap_amount rule else total.
Proof.
  intros [Hend Hint].
  unfold getAdditionalPaymentStep, ruleContributes, ruleActive, ruleWindow, ruleFires.
  destruct (ap_enabled rule) as [[|] |]; cbn [andb]; trivial.
  all: rewrite Z.ltb_antisym;
    destruct (ap_startPayment rule <=? index)%Z; cbn [negb andb]; trivial.
  all: destruct (ap_endPayment rule) as [endIndex |] eqn:Eend.
  all: try (specialize (Hend endIndex eq_refl);
            replace (endIndex =? 0)%Z with false by (symmetry; apply Z.eqb_neq; lia);
            cbn [negb andb]; rewrite Z.gtb_ltb, Z.ltb_antisym;
            destruct (index <=? endIndex)%Z; cbn [negb]; trivial).
  all: destruct (ap_type rule); trivial.
  all: destruct (ap_frequency rule) as [interval |] eqn:Eint.
  all: try (specialize (Hint interval eq_refl);
            replace (interval =? 0)%Z with false by (symmetry; apply Z.eqb_neq; lia)).
  all: rewrite rem_zero_iff_mod_zero; reflexivity.
Qed.

Lemma getAdditionalPaymentAmount_from (index : Z) (rules : list AdditionalPayment) :
  Forall validRule rules ->
  forall total,
    fold_left (getAdditionalPaymentStep index) rules total ==
    total + extraAmountAt index rules.
Proof.
  unfold extraAmountAt. induction 1 as [| rule rules Hrule Hrules IH]; intros total.
  - cbn. ring.
  - cbn [fold_left filter]. rewrite IH, (getAdditionalPaymentStep_spec _ _ _ Hrule).
    destruct (ruleContributes index rule); cbn [sumAmounts fold_right].
    + fold (sumAmounts (filter (ruleContributes index) rules)). ring.
    + reflexivity.
Qed.

(** C9: for every payment index and every list of rules whose end index and
    interval, when given, are not 0 (the data model has them positive), the
    resolved extra amount is the sum of the amounts of the active rules whose
    window contains the index and that fire at it: a single rule at its start
    index only, a recurring rule when
    [(index - startPaymentIndex) mod intervalPayments = 0], the interval being 1
    when it is not given; a rule that is not active adds nothing. *)
Theorem resolved_extra_amount_is_rule_sum (index : Z) (rules : list AdditionalPayment) :
  Forall validRule rules ->
  getAdditionalPaymentAmount index rules == extraAmountAt index rules.
Proof.
  intros Hrules. unfold getAdditionalPaymentAmount.
  rewrite (getAdditionalPaymentAmount_from index rules Hrules). ring.
Qed.

Lemma exampleRules_valid : Forall validRule exampleRules.
Proof.
  repeat constructor; intros x Hx; cbn in Hx; try discriminate;
    injection Hx as <-; discriminate.
Qed.

Lemma resolved_extra_amount_is_rule_sum_witness :
  Forall validRule exampleRules /\
  getAdditionalPaymentAmount 5 exampleRules == 600 /\
  getAdditionalPaymentAmount 5 exampleRules == extraAmountAt 5 exampleRules.
Proof.
  split; [exact exampleRules_valid |].
  split; [vm_compute; reflexivity |].
  apply (resolved_extra_amount_is_rule_sum 5 exampleRules exampleRules_valid).
Defined.

(** ** The limit tracker *)

Lemma Math_floor_div (m : Z) (d : positive) :
  Math_floor (inject_Z m / inject_Z (Zpos d)) = (m / Zpos d)%Z.
Proof.
  unfold Math_floor, Qdiv, Qmult, Qinv, inject_Z. cbn [Qnum Qden Qfloor].
  rewrite Z.mul_1_r. reflexivity.
Qed.

Lemma getPeriodIdentifier_anniversary (date start : Date) :
  getPeriodIdentifier date start anniversary =
  ("anniversary-" ++
   Z_toString (((getFullYear date - getFullYear start) * 12
                + (getMonth date - getMonth start)) / 12))%string.
Proof.
  unfold getPeriodIdentifier.
  change 12 with (inject_Z (Zpos 12)). rewrite Math_floor_div. reflexivity.
Qed.

Lemma checkPrepaymentLimits_idle (limits : option PrepaymentLimits)
  (principal : Q) (start date : Date) (extra lumpSum : Q) (identifier : string)
  (violations : Z) :
  limits = None \/ extra <= 0 ->
  checkPrepaymentLimits limits principal start date extra lumpSum identifier violations
  = (false, (lumpSum, identifier, violations)).
Proof.
  intros H. unfold checkPrepaymentLimits. destruct limits as [l |]; trivial.
  destruct H as [H | H]; [discriminate |].
  apply Qltb_ge in H. rewrite H. reflexivity.
Qed.

Lemma makePayment_tracking (params : MortgageParams) (term : RenewalPeriod)
  (termIndex : Z) (r P : Q) (st : LoopState) :
  let st' := makePayment params term termIndex r P st in
  exists e,
    ledger st' = ledger st ++ [e] /\
    checkPrepaymentLimits (prepaymentLimits params) (principal params)
      (startDate params) (pd_paymentDate e) (pd_additionalPayment e)
      (currentPeriodLumpSum st) (currentPeriodIdentifier st)
      (prepaymentLimitViolations st)
    = (match pd_exceedsLimit e with Some b => b | None => false end,
       (currentPeriodLumpSum st', currentPeriodIdentifier st',
        prepaymentLimitViolations st')) /\
    (pd_exceedsLimit e = Some true \/ pd_exceedsLimit e = None).
Proof.
  intros st'. subst st'. unfold makePayment.
  destruct (checkPrepaymentLimits _ _ _ _ _ _ _ _)
    as [flag [[lumpSum identifier] violations]] eqn:E.
  eexists. split; [reflexivity |].
  cbn [pd_paymentDate pd_additionalPayment pd_exceedsLimit currentPeriodLumpSum
       currentPeriodIdentifier prepaymentLimitViolations].
  rewrite E. destruct flag; split; auto.
Qed.

(** ** Invalid input *)

Section Properties.

Variable Math_pow : Q -> Q -> Q.

Lemma calculateMortgageWithInsurance_throws (pp p af pst : Q) :
  is_Throw (calculateMortgageWithInsurance pp p af pst) = true <-> p < 5.
Proof.
  rewrite <- getCMHCPremiumRate_throws. unfold calculateMortgageWithInsurance.
  destruct (getCMHCPremiumRate p); simpl; reflexivity.
Qed.

Lemma schedule_throws (params : MortgageParams) :
  is_Throw (calculateAmortizationSchedule Math_pow params) = true <->
  renewalPeriods params = [] \/ downPaymentPercent params < 5.
Proof.
  unfold calculateAmortizationSchedule.
  destruct (renewalPeriods params) as [| t ts] eqn:E; cbn [List.length Nat.eqb].
  - cbn [is_Throw]. split; auto.
  - rewrite <- (calculateMortgageWithInsurance_throws (purchasePrice params)
      (downPaymentPercent params) (additionalFinancing params) (cmhcPstRate params)).
    destruct (calculateMortgageWithInsurance _ _ _ _); cbn [bind is_Throw].
    + split; [discriminate | intros [H | H]; discriminate].
    + split; auto.
Qed.

(** C10: the engine fails exactly when the list of renewal periods is empty or
    the down payment is below 5 percent; it then returns an error and no
    schedule, and otherwise it returns a schedule. *)
Theorem engine_fails_on_invalid_input (params : MortgageParams) :
  ((renewalPeriods params = [] \/ downPaymentPercent params < 5) <->
   exists msg, calculateAmortizationSchedule Math_pow params = Throw msg) /\
  ((renewalPeriods params <> [] /\ 5 <= downPaymentPercent params) <->
   exists s, calculateAmortizationSchedule Math_pow params = Ok s).
Proof.
  pose proof (schedule_throws params) as H.
  destruct (calculateAmortizationSchedule Math_pow params) as [s | msg] eqn:E;
    cbn [is_Throw] in H.
  - split; split.
    + intros Hbad. apply H in Hbad. discriminate.
    + intros [msg Hmsg]. discriminate.
    + intros _. exists s. reflexivity.
    + intros _. split.
      * intros Hnil. assert (false = true) by (apply H; left; exact Hnil). discriminate.
      * apply Qnot_lt_le. intros Hlt.
        assert (false = true) by (apply H; right; exact Hlt). discriminate.
  - split; split.
    + intros _. exists msg. reflexivity.
    + intros _. apply H. reflexivity.
    + intros [Hne Hge]. destruct H as [H _]. destruct (H eq_refl) as [Hnil | Hlt].
      * contradiction.
      * apply Qle_not_lt in Hge. contradiction.
    + intros [s Hs]. discriminate.
Qed.

Lemma schedule_ok (params : MortgageParams) (s : AmortizationSchedule) :
  calculateAmortizationSchedule Math_pow params = Ok s ->
  exists insuranceDetails,
    calculateMortgageWithInsurance (purchasePrice params) (downPaymentPercent params)
      (additionalFinancing params) (cmhcPstRate params) = Ok insuranceDetails /\
    s = buildSchedule Math_pow params insuranceDetails.
Proof.
  unfold calculateAmortizationSchedule.
  destruct (List.length (renewalPeriods params) =? 0)%nat; [discriminate |].
  destruct (calculateMortgageWithInsurance _ _ _ _) as [d | msg]; cbn [bind];
    [| discriminate].
  intros H. injection H as <-. exists d. split; reflexivity.
Qed.

Lemma schedule_payments (params : MortgageParams) (s : AmortizationSchedule) :
  calculateAmortizationSchedule Math_pow params = Ok s ->
  payments s = ledger (runSchedule Math_pow params).
Proof.
  intros H. destruct (schedule_ok params s H) as (d & _ & ->). reflexivity.
Qed.

(** ** The loops *)

Lemma makePayment_fields (params : MortgageParams) (term : RenewalPeriod)
  (termIndex : Z) (r P : Q) (st : LoopState) :
  let ap := Math_min (P - balance st * r) (balance st) in
  let b1 := norm (balance st - ap) in
  let aa :=
    Math_min (getAdditionalPaymentAmount (paymentNumber st) (additionalPayments params)) b1 in
  let st' := makePayment params term termIndex r P st in
  balance st' = norm (b1 - aa) /\
  paymentNumber st' = (paymentNumber st + 1)%Z /\
  totalInterestPaid st' = norm (totalInterestPaid st + balance st * r) /\
  totalAdditionalPayments st' = norm (totalAdditionalPayments st + aa) /\
  exists e,
    ledger st' = ledger st ++ [e] /\
    pd_paymentNumber e = paymentNumber st /\
    pd_paymentDate e =
      addDays (startDate params)
        (getDaysForPayment (paymentNumber st) (paymentFrequency params)) /\
    pd_payment e = ap + balance st * r /\
    pd_principal e = ap /\
    pd_interest e = balance st * r /\
    pd_additionalPayment e = aa /\
    pd_balance e = Math_max 0 (norm (b1 - aa)) /\
    pd_interestRate e = rp_annualRate term /\
    pd_termNumber e = (termIndex + 1)%Z.
Proof.
  intros ap b1 aa st'. subst st' ap b1 aa. unfold makePayment.
  destruct (checkPrepaymentLimits _ _ _ _ _ _ _ _) as [flag [[lumpSum identifier] violations]].
  cbn [balance paymentNumber totalInterestPaid totalAdditionalPayments ledger].
  repeat (split; [reflexivity |]).
  eexists. split; [reflexivity |]. cbn. repeat split; reflexivity.
Qed.

(** A property that every payment made from a balance above one cent keeps
    holds when the inner loop ends, and when the outer loop ends. *)
Lemma generatePayments_invariant (I : LoopState -> Prop) (params : MortgageParams)
  (term : RenewalPeriod) (termIndex : Z) (r P : Q) :
  (forall st, I st -> 0.01 < balance st ->
              I (makePayment params term termIndex r P st)) ->
  forall turns st, I st -> I (generatePayments turns params term termIndex r P st).
Proof.
  intros Hstep. induction turns as [| turns IH]; intros st Hst; cbn [generatePayments].
  - exact Hst.
  - destruct (Qltb (1 # 100) (balance st)) eqn:Hb; [| exact Hst].
    apply Qltb_lt in Hb.
    destruct (Qltb (balance (makePayment params term termIndex r P st)) (1 # 100)).
    + apply Hstep; assumption.
    + apply IH. apply Hstep; assumption.
Qed.

Lemma processTerms_invariant (I : LoopState -> Prop) (params : MortgageParams)
  (total : Z) :
  (forall term termIndex P st, I st -> 0.01 < balance st ->
     I (makePayment params term termIndex
          (getPeriodicRate Math_pow (rp_annualRate term) (paymentFrequency params))
          P st)) ->
  forall periods termIndex st,
    I st -> I (processTerms Math_pow params total termIndex periods st).
Proof.
  intros Hstep. induction periods as [| term rest IH]; intros termIndex st Hst;
    cbn [processTerms].
  - exact Hst.
  - match goal with
    | |- context [generatePayments ?n ?p ?t ?i ?r ?P st] =>
        assert (Hgen : I (generatePayments n p t i r P st))
          by (apply generatePayments_invariant; [apply Hstep | exact Hst]);
        destruct (Qltb (balance (generatePayments n p t i r P st)) (1 # 100))
    end.
    + exact Hgen.
    + apply IH. exact Hgen.
Qed.

Lemma runSchedule_invariant (I : LoopState -> Prop) (params : MortgageParams) :
  I (initialState params) ->
  (forall term termIndex P st, I st -> 0.01 < balance st ->
     I (makePayment params term termIndex
          (getPeriodicRate Math_pow (rp_annualRate term) (paymentFrequency params))
          P st)) ->
  I (runSchedule Math_pow params).
Proof.
  intros Hinit Hstep. unfold runSchedule.
  apply processTerms_invariant; assumption.
Qed.

(** ** The ledger chain *)

Lemma lastBalance_snoc (b : Q) (l : list PaymentDetail) (e : PaymentDetail) :
  lastBalance b (l ++ [e]) = pd_balance e.
Proof. unfold lastBalance. rewrite fold_left_app. reflexivity. Qed.

Lemma chained_snoc (b : Q) (l : list PaymentDetail) (e : PaymentDetail) :
  chained b l ->
  pd_balance e ==
    Math_max 0 (lastBalance b l - pd_principal e - pd_additionalPayment e) ->
  chained b (l ++ [e]).
Proof.
  revert b. induction l as [| x l IH]; intros b Hl He; cbn [app chained].
  - split; [exact He | exact I].
  - destruct Hl as [Hx Hl]. split; [exact Hx |]. apply IH; assumption.
Qed.

Lemma chained_nth (b : Q) (l : list PaymentDetail) :
  chained b l ->
  (forall e, nth_error l 0 = Some e ->
     pd_balance e == Math_max 0 (b - pd_principal e - pd_additionalPayment e)) /\
  (forall i prev e, nth_error l i = Some prev -> nth_error l (S i) = Some e ->
     pd_balance e ==
       Math_max 0 (pd_balance prev - pd_principal e - pd_additionalPayment e)).
Proof.
  revert b. induction l as [| x l IH]; intros b Hl.
  - split; [intros e He | intros i prev e Hp]; [discriminate | destruct i; discriminate].
  - destruct Hl as [Hx Hl]. destruct (IH _ Hl) as [IH0 IHS]. split.
    + intros e He. cbn in He. injection He as <-. exact Hx.
    + intros [| i] prev e Hp He.
      * cbn in Hp. injection Hp as <-. apply IH0. exact He.
      * apply (IHS i); assumption.
Qed.

Lemma chainInvariant_run (params : MortgageParams) :
  chainInvariant (principal params) (runSchedule Math_pow params).
Proof.
  apply runSchedule_invariant.
  - split; [constructor | split; [exact I | intros _; reflexivity]].
  - intros term termIndex P st (Hpay & Hch & Hlast) Hpos.
    set (r := getPeriodicRate Math_pow (rp_annualRate term) (paymentFrequency params)).
    destruct (makePayment_fields params term termIndex r P st)
      as (Eb & _ & _ & _ & e & El & _ & _ & Ep & Epr & Ei & Ea & Ebal & _).
    specialize (Hlast Hpos).
    assert (Hb : balance (makePayment params term termIndex r P st) ==
                 lastBalance (principal params) (ledger st)
                 - pd_principal e - pd_additionalPayment e).
    { rewrite Eb, Epr, Ea, Hlast, !norm_eq. ring. }
    unfold chainInvariant. rewrite El. repeat split.
    + apply Forall_app. split; [exact Hpay |]. constructor; [| constructor].
      rewrite Ep, Epr, Ei. reflexivity.
    + apply chained_snoc; [exact Hch |].
      rewrite Ebal, <- Eb. apply Math_max_eq. exact Hb.
    + intros Hpos'. rewrite lastBalance_snoc, Ebal, <- Eb.
      destruct (Math_max_spec 0 (balance (makePayment params term termIndex r P st)))
        as [[? ->] | [? ->]]; lra.
Qed.

(** C2: in the ledger of every schedule the engine returns, each entry's
    payment is its principal plus its interest, and the balance of an entry is
    the balance of the entry before it, less the entry's principal portion and
    its extra payment, floored at zero. *)
Theorem ledger_payment_split_and_balance_chain (params : MortgageParams)
  (s : AmortizationSchedule) :
  calculateAmortizationSchedule Math_pow params = Ok s ->
  (forall e, In e (payments s) ->
     pd_payment e == pd_principal e + pd_interest e) /\
  (forall i prev e,
     nth_error (payments s) i = Some prev ->
     nth_error (payments s) (S i) = Some e ->
     pd_balance e ==
       Math_max 0 (pd_balance prev - pd_principal e - pd_additionalPayment e)).
Proof.
  intros H. rewrite (schedule_payments params s H).
  destruct (chainInvariant_run params) as (Hpay & Hch & _). split.
  - intros e He. rewrite Forall_forall in Hpay. apply Hpay. exact He.
  - apply (chained_nth _ _ Hch).
Qed.

Lemma firstInterestInvariant_run (params : MortgageParams) :
  firstInterestInvariant Math_pow params (runSchedule Math_pow params).
Proof.
  apply runSchedule_invariant.
  - split; [reflexivity | intros e He; discriminate].
  - intros term termIndex P st (Hnil & Hfirst) Hpos.
    set (r := getPeriodicRate Math_pow (rp_annualRate term) (paymentFrequency params)).
    destruct (makePayment_fields params term termIndex r P st)
      as (_ & _ & _ & _ & e & El & _ & _ & _ & _ & Ei & _ & _ & Er & _).
    unfold firstInterestInvariant. rewrite El. split.
    + intros Habs. destruct (ledger st); discriminate.
    + intros e1 He1. destruct (ledger st) as [| x l] eqn:E.
      * cbn in He1. injection He1 as <-. rewrite Ei, Er, (Hnil eq_refl). reflexivity.
      * cbn in He1. apply Hfirst. exact He1.
Qed.

(** C1, as the code has it: the simulation starts from the [principal] field
    of the parameters.  The first entry charges interest on it and its balance
    is that field less the entry's principal and extra payment; the schedule
    reports the field as the original principal; and the start is the total of
    the insurance calculator when the caller has put that total in the
    field. *)
Theorem starting_balance_is_principal_field (params : MortgageParams)
  (s : AmortizationSchedule) :
  calculateAmortizationSchedule Math_pow params = Ok s ->
  balance (initialState params) = principal params /\
  totalPrincipal s = principal params /\
  sm_originalPrincipal (summary s) = principal params /\
  (forall e, nth_error (payments s) 0 = Some e ->
     pd_interest e ==
       principal params *
       getPeriodicRate Math_pow (pd_interestRate e) (paymentFrequency params) /\
     pd_balance e ==
       Math_max 0 (principal params - pd_principal e - pd_additionalPayment e)) /\
  (forall d,
     calculateMortgageWithInsurance (purchasePrice params) (downPaymentPercent params)
       (additionalFinancing params) (cmhcPstRate params) = Ok d ->
     principal params == ins_totalPrincipal d ->
     balance (initialState params) ==
       ins_mortgageAmount d + ins_cmhcInsurance d + ins_cmhcPst d
       + additionalFinancing params).
Proof.
  intros H. destruct (schedule_ok params s H) as (d & Hd & ->).
  split; [reflexivity |]. split; [reflexivity |]. split; [reflexivity |]. split.
  - intros e He. cbn [payments buildSchedule] in He. split.
    + apply (firstInterestInvariant_run params). exact He.
    + destruct (chainInvariant_run params) as (_ & Hch & _).
      apply (chained_nth _ _ Hch). exact He.
  - intros d' Hd' Heq. cbn [balance initialState]. rewrite Heq.
    revert Hd'. unfold calculateMortgageWithInsurance.
    destruct (getCMHCPremiumRate (downPaymentPercent params)); cbn [bind];
      [| discriminate].
    intros Hd'. injection Hd' as <-. reflexivity.
Qed.

(** ** One segment for each term *)

Lemma entryPaid_eq (params : MortgageParams) (r P P' prev prev' : Q) (count : Z)
  (e : PaymentDetail) :
  P == P' -> prev == prev' ->
  entryPaid params r P prev count e -> entryPaid params r P' prev' count e.
Proof.
  intros HP Hprev (H1 & H2 & H3 & H4 & H5 & H6 & H7).
  unfold entryPaid. repeat split; trivial.
  - lra.
  - rewrite H3, Hprev. reflexivity.
  - rewrite H4. apply Math_min_eq; [rewrite HP, Hprev; reflexivity | exact Hprev].
  - rewrite H6. apply Math_min_eq; [reflexivity | rewrite Hprev; reflexivity].
  - rewrite H7, Hprev. reflexivity.
Qed.

Lemma paidWith_eq (params : MortgageParams) (r P P' prev prev' : Q) (count : Z)
  (seg : list PaymentDetail) :
  P == P' -> prev == prev' ->
  paidWith params r P count prev seg -> paidWith params r P' count prev' seg.
Proof.
  intros HP Hprev. revert count prev prev' Hprev.
  induction seg as [| e seg IH]; intros count prev prev' Hprev; cbn [paidWith].
  - trivial.
  - intros [He Hseg]. split.
    + apply (entryPaid_eq params r P P' prev prev'); assumption.
    + apply (IH _ (pd_balance e) (pd_balance e)); [reflexivity | exact Hseg].
Qed.

Lemma lastBalance_cons (b : Q) (e : PaymentDetail) (l : list PaymentDetail) :
  lastBalance b (e :: l) = lastBalance (pd_balance e) l.
Proof. reflexivity. Qed.

Lemma lastBalance_eq (b b' : Q) (l : list PaymentDetail) :
  b == b' -> lastBalance b l == lastBalance b' l.
Proof. intros H. destruct l; [exact H | reflexivity]. Qed.

(** One payment from a balance above one cent is an entry paid as above, and
    leaves a balance that is not negative. *)
Lemma makePayment_entryPaid (params : MortgageParams) (term : RenewalPeriod)
  (termIndex : Z) (r P : Q) (st : LoopState) :
  0.01 < balance st ->
  let st' := makePayment params term termIndex r P st in
  exists e,
    ledger st' = ledger st ++ [e] /\
    paymentNumber st' = (paymentNumber st + 1)%Z /\
    entryPaid params r P (balance st) (paymentNumber st - 1) e /\
    pd_interestRate e = rp_annualRate term /\
    pd_termNumber e = (termIndex + 1)%Z /\
    balance st' == pd_balance e /\
    0 <= balance st'.
Proof.
  intros Hpos st'. subst st'.
  destruct (makePayment_fields params term termIndex r P st)
    as (Eb & En & _ & _ & e & El & Enum & _ & Ep & Epr & Ei & Ea & Ebal & Er & Et).
  set (ap := Math_min (P - balance st * r) (balance st)) in *.
  set (b1 := norm (balance st - ap)) in *.
  set (aa := Math_min (getAdditionalPaymentAmount (paymentNumber st)
                         (additionalPayments params)) b1) in *.
  assert (Hap : ap <= balance st) by apply Math_min_le_r.
  assert (Hb1 : b1 == balance st - ap) by apply norm_eq.
  assert (Haa : aa <= b1) by apply Math_min_le_r.
  assert (Hb2 : balance (makePayment params term termIndex r P st) == b1 - aa)
    by (rewrite Eb; apply norm_eq).
  assert (Hnonneg : 0 <= balance (makePayment params term termIndex r P st)) by lra.
  exists e. split; [exact El |]. split; [exact En |]. split.
  - unfold entryPaid. replace (paymentNumber st - 1 + 1)%Z with (paymentNumber st) by lia.
    split; [exact Hpos |]. split; [exact Enum |].
    split; [rewrite Ei; reflexivity |]. split; [rewrite Epr; reflexivity |].
    split; [rewrite Ep, Epr, Ei; reflexivity |]. split.
    + rewrite Ea, Epr. apply Math_min_eq; [reflexivity | exact Hb1].
    + rewrite Ebal, <- Eb, Epr, Ea. rewrite (Math_max_0_nonneg _ Hnonneg). lra.
  - split; [exact Er |]. split; [exact Et |]. split; [| exact Hnonneg].
    rewrite Ebal, <- Eb. symmetry. apply Math_max_0_nonneg. exact Hnonneg.
Qed.

(** The inner loop adds one segment. *)
Lemma generatePayments_spec (params : MortgageParams) (term : RenewalPeriod)
  (termIndex : Z) (r P : Q) (turns : nat) :
  forall st,
    let st' := generatePayments turns params term termIndex r P st in
    exists seg,
      ledger st' = ledger st ++ seg /\
      (List.length seg <= turns)%nat /\
      paymentNumber st' = (paymentNumber st + Z.of_nat (List.length seg))%Z /\
      paidWith params r P (paymentNumber st - 1) (balance st) seg /\
      Forall (fun e => pd_interestRate e = rp_annualRate term /\
                       pd_termNumber e = (termIndex + 1)%Z) seg /\
      balance st' == lastBalance (balance st) seg /\
      ((List.length seg < turns)%nat -> balance st' <= 0.01).
Proof.
  induction turns as [| turns IH]; intros st; cbn [generatePayments].
  - exists []. rewrite app_nil_r. cbn. repeat split; trivial; try lia; reflexivity.
  - destruct (Qltb (1 # 100) (balance st)) eqn:Hb.
    + apply Qltb_lt in Hb.
      destruct (makePayment_entryPaid params term termIndex r P st Hb)
        as (e & El & En & He & Er & Et & Ebal & Hnonneg).
      destruct (Qltb (balance (makePayment params term termIndex r P st)) (1 # 100))
        eqn:Hdone.
      * apply Qltb_lt in Hdone. exists [e]. cbn [List.length paidWith lastBalance fold_left].
        split; [exact El |]. split; [lia |]. split; [rewrite En; lia |].
        split; [split; [exact He | exact I] |].
        split; [constructor; [split; assumption | constructor] |].
        split; [exact Ebal | intros _; lra].
      * apply Qltb_ge in Hdone.
        destruct (IH (makePayment params term termIndex r P st))
          as (seg & El' & Hlen & En' & Hpaid & Hall & Ebal' & Hshort).
        exists (e :: seg). cbn [List.length paidWith].
        split; [rewrite El', El, <- app_assoc; reflexivity |].
        split; [lia |]. split; [rewrite En', En; lia |]. split.
        -- split; [exact He |].
           replace (paymentNumber st - 1 + 1)%Z
             with (paymentNumber (makePayment params term termIndex r P st) - 1)%Z
             by (rewrite En; lia).
           apply (paidWith_eq params r P P _ _ _ _ (Qeq_refl P) Ebal Hpaid).
        -- split; [constructor; [split; assumption | exact Hall] |].
           split.
           ++ rewrite lastBalance_cons, Ebal'. apply lastBalance_eq. exact Ebal.
           ++ intros Hlt. apply Hshort. lia.
    + apply Qltb_ge in Hb. exists []. rewrite app_nil_r. cbn.
      repeat split; trivial; try lia; try reflexivity.
Qed.

Lemma calculatePayment_eq (b b' r : Q) (n : Z) :
  b == b' -> calculatePayment Math_pow b r n == calculatePayment Math_pow b' r n.
Proof.
  intros H. unfold calculatePayment. destruct (Qeq_bool r 0); rewrite H; reflexivity.
Qed.

Lemma termsSized_eq (params : MortgageParams) (total : Z) (periods : list RenewalPeriod) :
  forall segs count prev prev',
    prev == prev' ->
    termsSized Math_pow params total count prev periods segs ->
    termsSized Math_pow params total count prev' periods segs.
Proof.
  induction periods as [| term rest IH]; intros [| seg segs] count prev prev' Hprev;
    cbn [termsSized]; trivial.
  intros (Hpaid & Hlen & Hshort & Hrate & Hrest).
  split; [| split; [exact Hlen | split; [| split; [exact Hrate |]]]].
  - apply (paidWith_eq params _ _ _ prev prev' _ _ (calculatePayment_eq _ _ _ _ Hprev)
             Hprev Hpaid).
  - intros Hlt. rewrite <- (lastBalance_eq prev prev' seg Hprev). apply Hshort. exact Hlt.
  - apply (IH segs _ (lastBalance prev seg)); [apply lastBalance_eq; exact Hprev | exact Hrest].
Qed.

(** From a balance of one cent or less no term adds an entry. *)
Lemma termsSized_idle (params : MortgageParams) (total : Z) (periods : list RenewalPeriod) :
  forall count prev,
    prev <= 0.01 ->
    termsSized Math_pow params total count prev periods (map (fun _ => []) periods).
Proof.
  induction periods as [| term rest IH]; intros count prev Hprev; cbn [map termsSized].
  - exact I.
  - cbn [paidWith List.length lastBalance fold_left]. repeat split; trivial; try lia.
    rewrite Z.add_0_r. apply IH. exact Hprev.
Qed.

Lemma concat_idle (periods : list RenewalPeriod) :
  List.concat (map (fun _ : RenewalPeriod => @nil PaymentDetail) periods) = [].
Proof. induction periods; cbn; trivial. Qed.

(** The outer loop adds one segment for each period. *)
Lemma processTerms_spec (params : MortgageParams) (total : Z)
  (periods : list RenewalPeriod) :
  forall termIndex st,
    exists segs,
      ledger (processTerms Math_pow params total termIndex periods st)
      = ledger st ++ List.concat segs /\
      termsSized Math_pow params total (paymentNumber st - 1) (balance st) periods segs.
Proof.
  induction periods as [| term rest IH]; intros termIndex st; cbn [processTerms].
  - exists []. cbn. rewrite app_nil_r. split; trivial.
  - set (r := getPeriodicRate Math_pow (rp_annualRate term) (paymentFrequency params)).
    set (termEnd := match rest with
                    | nextTerm :: _ => (rp_startPayment nextTerm - 1)%Z
                    | [] => total
                    end).
    set (P := norm (calculatePayment Math_pow (balance st) r
                      (total - paymentNumber st + 1))).
    set (turns := Z.to_nat (termEnd - rp_startPayment term + 1)).
    destruct (generatePayments_spec params term termIndex r P turns st)
      as (seg & El & Hlen & En & Hpaid & Hall & Ebal & Hshort).
    set (st' := generatePayments turns params term termIndex r P st) in *.
    assert (Hhead :
      paidWith params r
        (calculatePayment Math_pow (balance st) r (total - (paymentNumber st - 1)))
        (paymentNumber st - 1) (balance st) seg /\
      (Z.of_nat (List.length seg) <= Z.max 0 (termEnd - rp_startPayment term + 1))%Z /\
      ((Z.of_nat (List.length seg) < termEnd - rp_startPayment term + 1)%Z ->
       lastBalance (balance st) seg <= 0.01) /\
      Forall (fun e => pd_interestRate e = rp_annualRate term) seg).
    { split; [| split; [| split]].
      - replace (total - (paymentNumber st - 1))%Z
          with (total - paymentNumber st + 1)%Z by lia.
        apply (paidWith_eq params r P _ (balance st) (balance st)); trivial;
          [apply norm_eq | reflexivity].
      - subst turns. lia.
      - intros Hlt. rewrite <- Ebal. apply Hshort. subst turns. lia.
      - eapply Forall_impl; [| exact Hall]. intros e [He _]. exact He. }
    destruct Hhead as (H1 & H2 & H3 & H4).
    destruct (Qltb (balance st') (1 # 100)) eqn:Hdone.
    + apply Qltb_lt in Hdone.
      exists (seg :: map (fun _ => []) rest). cbn [List.concat termsSized].
      rewrite concat_idle, app_nil_r. split; [exact El |].
      fold r termEnd. repeat split; trivial.
      apply termsSized_idle. rewrite <- Ebal. lra.
    + destruct (IH (termIndex + 1)%Z st') as (segs & El' & Hsized).
      exists (seg :: segs). cbn [List.concat termsSized].
      split; [rewrite El', El, <- app_assoc; reflexivity |].
      fold r termEnd. repeat split; trivial.
      rewrite En in Hsized.
      replace (paymentNumber st + Z.of_nat (List.length seg) - 1)%Z
        with (paymentNumber st - 1 + Z.of_nat (List.length seg))%Z in Hsized by lia.
      apply (termsSized_eq params total rest segs _ (balance st')); [exact Ebal | exact Hsized].
Qed.

(** The ledger of a run is [List.concat segs], one segment for each sorted period. *)
Lemma runSchedule_segments (params : MortgageParams) :
  exists segs,
    ledger (runSchedule Math_pow params) = List.concat segs /\
    termsSized Math_pow params
      (getPaymentCount (amortizationYears params) (paymentFrequency params))
      0 (principal params) (sortPeriods (renewalPeriods params)) segs.
Proof.
  unfold runSchedule.
  destruct (processTerms_spec params
              (getPaymentCount (amortizationYears params) (paymentFrequency params))
              (sortPeriods (renewalPeriods params)) 0%Z (initialState params))
    as (segs & El & Hsized).
  exists segs. split; [exact El | exact Hsized].
Qed.

(** ** Sizing and paying off

    From here [Math_pow] is exact at integer exponents and at least 1 on a
    base of at least 1 with an exponent that is not negative. *)

Section Sizing.

Hypothesis pow_int : forall (b : Q) (n : Z), Math_pow b (inject_Z n) == b ^ n.
Hypothesis pow_ge_1 : forall b e : Q, 1 <= b -> 0 <= e -> 1 <= Math_pow b e.

Lemma getPeriodicRate_nonneg (annualRate : Q) (frequency : PaymentFrequency) :
  0 <= annualRate -> 0 <= getPeriodicRate Math_pow annualRate frequency.
Proof.
  intros H. unfold getPeriodicRate.
  assert (1 <= Math_pow (1 + annualRate / 2)
                         (2 / inject_Z (getPaymentsPerYear frequency))).
  { apply pow_ge_1.
    - unfold Qdiv. change (/ 2) with (1 # 2). lra.
    - destruct frequency; vm_compute; discriminate. }
  lra.
Qed.

Lemma calculatePayment_linear (b r : Q) (n : Z) :
  calculatePayment Math_pow b r n == b * levelFactor Math_pow r n.
Proof.
  unfold levelFactor, calculatePayment. destruct (Qeq_bool r 0).
  - unfold Qdiv. ring.
  - unfold Qdiv. ring.
Qed.

Lemma levelFactor_zero_rate (r : Q) (n : Z) :
  r == 0 -> levelFactor Math_pow r n == 1 / inject_Z n.
Proof.
  intros H. unfold levelFactor, calculatePayment.
  apply Qeq_bool_iff in H. rewrite H. reflexivity.
Qed.

Lemma levelFactor_annuity (r : Q) (n : Z) :
  ~ r == 0 ->
  levelFactor Math_pow r n == r * (1 + r) ^ n / ((1 + r) ^ n - 1).
Proof.
  intros H. unfold levelFactor, calculatePayment.
  destruct (Qeq_bool r 0) eqn:E; [apply Qeq_bool_iff in E; contradiction |].
  rewrite pow_int. unfold Qdiv. ring.
Qed.

Lemma power_succ (q : Q) (n : Z) : (1 <= n)%Z -> 0 < q -> q ^ n == q * q ^ (n - 1).
Proof.
  intros Hn Hq. replace n with (1 + (n - 1))%Z at 1 by lia.
  rewrite Qpower_plus by lra. reflexivity.
Qed.

Lemma power_gt_1 (r : Q) (n : Z) : 0 < r -> (1 <= n)%Z -> 1 < (1 + r) ^ n.
Proof.
  intros Hr Hn. apply Qpower_1_lt; [lra | lia].
Qed.

Lemma inject_Z_pred (n : Z) : inject_Z (n - 1) == inject_Z n - 1.
Proof. unfold Z.sub. rewrite inject_Z_plus, inject_Z_opp. reflexivity. Qed.

Lemma inject_Z_pos (n : Z) : (1 <= n)%Z -> 1 <= inject_Z n.
Proof. intros H. change 1 with (inject_Z 1). rewrite <- Zle_Qle. exact H. Qed.

Lemma levelFactor_one (r : Q) : 0 <= r -> levelFactor Math_pow r 1 == 1 + r.
Proof.
  intros Hr. destruct (Qeq_dec r 0) as [E | E].
  - rewrite (levelFactor_zero_rate r 1 E), E. reflexivity.
  - rewrite (levelFactor_annuity r 1 E). change ((1 + r) ^ 1) with (1 + r).
    field. lra.
Qed.

Lemma levelFactor_lower (r : Q) (n : Z) :
  0 <= r -> (1 <= n)%Z -> r <= levelFactor Math_pow r n /\ 0 < levelFactor Math_pow r n.
Proof.
  intros Hr Hn. pose proof (inject_Z_pos n Hn) as Hn'.
  destruct (Qeq_dec r 0) as [E | E].
  - rewrite (levelFactor_zero_rate r n E).
    assert (0 < 1 / inject_Z n).
    { apply Qlt_shift_div_l; lra. }
    lra.
  - rewrite (levelFactor_annuity r n E).
    assert (Hr' : 0 < r) by lra.
    pose proof (power_gt_1 r n Hr' Hn) as Hx.
    set (x := (1 + r) ^ n) in *.
    split.
    + apply Qle_shift_div_l; [lra |]. nra.
    + apply Qlt_shift_div_l; [lra |]. nra.
Qed.

Lemma levelFactor_step (r : Q) (n : Z) :
  0 <= r -> (2 <= n)%Z ->
  levelFactor Math_pow r n * (1 + levelFactor Math_pow r (n - 1)) == (1 + r) * levelFactor Math_pow r (n - 1).
Proof.
  intros Hr Hn. destruct (Qeq_dec r 0) as [E | E].
  - rewrite (levelFactor_zero_rate r n E), (levelFactor_zero_rate r (n - 1) E).
    rewrite inject_Z_pred, E.
    assert (2 <= inject_Z n).
    { change 2 with (inject_Z 2). rewrite <- Zle_Qle. exact Hn. }
    field. split; lra.
  - rewrite (levelFactor_annuity r n E), (levelFactor_annuity r (n - 1) E).
    assert (Hr' : 0 < r) by lra.
    assert (Hx : 1 < (1 + r) ^ (n - 1)) by (apply power_gt_1; [exact Hr' | lia]).
    rewrite (power_succ (1 + r) n) by (try lia; lra).
    set (x := (1 + r) ^ (n - 1)) in *.
    field. split; nra.
Qed.

(** *** Paying a balance off *)

Variable params : MortgageParams.

Hypothesis amounts_nonneg : nonnegAmounts params.

Lemma getAdditionalPaymentStep_cases (index : Z) (total : Q) (rule : AdditionalPayment) :
  getAdditionalPaymentStep index total rule = total \/
  getAdditionalPaymentStep index total rule = total + ap_amount rule.
Proof.
  unfold getAdditionalPaymentStep.
  destruct (ap_enabled rule) as [[|] |]; auto;
    destruct (index <? ap_startPayment rule)%Z; auto;
    destruct (match ap_endPayment rule with Some _ => _ | None => _ end); auto;
    destruct (ap_type rule); auto;
    match goal with |- context [if ?c then _ else _] => destruct c end; auto.
Qed.

Lemma getAdditionalPaymentAmount_nonneg (index : Z) :
  0 <= getAdditionalPaymentAmount index (additionalPayments params).
Proof.
  unfold getAdditionalPaymentAmount. unfold nonnegAmounts in amounts_nonneg.
  assert (H : forall rules total, Forall (fun rule => 0 <= ap_amount rule) rules ->
               0 <= total -> 0 <= fold_left (getAdditionalPaymentStep index) rules total).
  { induction rules as [| rule rules IH]; intros total Hall Htotal; cbn [fold_left].
    - exact Htotal.
    - inversion Hall as [| ? ? Hrule Hrules]; subst. apply IH; [exact Hrules |].
      destruct (getAdditionalPaymentStep_cases index total rule) as [-> | ->]; lra. }
  apply H; [exact amounts_nonneg | lra].
Qed.

(** One payment, when the level payment covers the balance over [m] more
    payments: nothing in it is negative, the balance does not grow, it is
    zero when [m] is 1, and the level payment covers it over [m - 1]. *)
Lemma entryPaid_covers (r P prev : Q) (count m : Z) (e : PaymentDetail) :
  0 <= r -> (1 <= m)%Z ->
  prev * levelFactor Math_pow r m <= P ->
  entryPaid params r P prev count e ->
  0 <= pd_principal e /\ 0 <= pd_additionalPayment e /\
  0 <= pd_balance e /\ pd_balance e <= prev /\
  (m = 1%Z -> pd_balance e == 0) /\
  ((2 <= m)%Z -> pd_balance e * levelFactor Math_pow r (m - 1) <= P).
Proof.
  intros Hr Hm Hcover (Hprev & _ & Hi & Hpr & _ & Hadd & Hbal).
  destruct (levelFactor_lower r m Hr Hm) as [Hk _].
  pose proof (getAdditionalPaymentAmount_nonneg (count + 1)) as Hextra.
  set (A := getAdditionalPaymentAmount (count + 1)%Z (additionalPayments params)) in *.
  set (k := levelFactor Math_pow r m) in *.
  assert (Hint : prev * r <= P) by nra.
  destruct (Math_min_spec (P - prev * r) prev) as [[Hc Hmin] | [Hc Hmin]];
    rewrite Hmin in Hpr;
    destruct (Math_min_spec A (prev - pd_principal e)) as [[Hc' Hmin'] | [Hc' Hmin']];
    rewrite Hmin' in Hadd.
  - repeat split; try lra.
    + intros ->. subst k. rewrite (levelFactor_one r Hr) in Hcover. lra.
    + intros Hm2. destruct (levelFactor_lower r (m - 1) Hr ltac:(lia)) as [_ Hk'].
      pose proof (levelFactor_step r m Hr Hm2) as Hstep. fold k in Hstep.
      set (k' := levelFactor Math_pow r (m - 1)) in *.
      assert (pd_balance e <= prev * (1 + r) - P) by lra.
      assert (prev * k * (1 + k') <= P * (1 + k')) by nra.
      assert (prev * ((1 + r) * k') <= P * (1 + k')) by (rewrite <- Hstep; lra).
      nra.
  - repeat split; try lra.
    intros Hm2. destruct (levelFactor_lower r (m - 1) Hr ltac:(lia)) as [_ Hk'].
    assert (pd_balance e == 0) by lra. nra.
  - repeat split; try lra.
    intros Hm2. destruct (levelFactor_lower r (m - 1) Hr ltac:(lia)) as [_ Hk'].
    assert (pd_balance e == 0) by lra. nra.
  - repeat split; try lra.
    intros Hm2. destruct (levelFactor_lower r (m - 1) Hr ltac:(lia)) as [_ Hk'].
    assert (pd_balance e == 0) by lra. nra.
Qed.

Lemma lastBalance_app (b : Q) (l1 l2 : list PaymentDetail) :
  lastBalance b (l1 ++ l2) = lastBalance (lastBalance b l1) l2.
Proof. unfold lastBalance. apply fold_left_app. Qed.

Lemma nonIncreasing_eq (b b' : Q) (l : list PaymentDetail) :
  b == b' -> nonIncreasing b l -> nonIncreasing b' l.
Proof.
  intros H. destruct l as [| e l]; cbn [nonIncreasing]; trivial.
  intros [He Hl]. split; [lra | exact Hl].
Qed.

Lemma nonIncreasing_app (b : Q) (l1 l2 : list PaymentDetail) :
  nonIncreasing b l1 -> nonIncreasing (lastBalance b l1) l2 ->
  nonIncreasing b (l1 ++ l2).
Proof.
  revert b. induction l1 as [| e l1 IH]; intros b H1 H2; cbn [app nonIncreasing].
  - exact H2.
  - destruct H1 as [He H1]. split; [exact He |]. apply IH; assumption.
Qed.

(** A segment whose level payment covers the balance over [m] payments has at
    most [m] entries, its balances do not grow, and after [m] entries the
    balance is zero. *)
Lemma paidWith_payoff (r P : Q) (seg : list PaymentDetail) :
  0 <= r ->
  forall (m : Z) (prev : Q) (count : Z),
    (1 <= m)%Z ->
    prev * levelFactor Math_pow r m <= P ->
    paidWith params r P count prev seg ->
    (Z.of_nat (List.length seg) <= m)%Z /\
    nonIncreasing prev seg /\
    (0 <= prev -> 0 <= lastBalance prev seg) /\
    (Z.of_nat (List.length seg) = m -> lastBalance prev seg == 0).
Proof.
  intros Hr. induction seg as [| e seg IH]; intros m prev count Hm Hcover Hpaid.
  - cbn. repeat split; trivial; lia.
  - destruct Hpaid as [He Hseg].
    destruct (entryPaid_covers r P prev count m e Hr Hm Hcover He)
      as (_ & _ & Hb0 & Hble & Hone & Hnext).
    rewrite lastBalance_cons. cbn [List.length nonIncreasing].
    destruct (Z.eq_dec m 1) as [-> | Hm1].
    + specialize (Hone eq_refl).
      destruct seg as [| e' seg'].
      * cbn. repeat split; trivial; try lia; lra.
      * destruct Hseg as [(Habs & _) _]. lra.
    + destruct (IH (m - 1)%Z (pd_balance e) (count + 1)%Z ltac:(lia)
                  (Hnext ltac:(lia)) Hseg) as (Hlen & Hmono & Hpos & Hzero).
      split; [lia |]. split; [split; assumption |].
      split; [intros _; apply Hpos; exact Hb0 |].
      intros Hfull. apply Hzero. lia.
Qed.

Lemma paidWith_idle (r P prev : Q) (count : Z) (seg : list PaymentDetail) :
  prev <= 0.01 -> paidWith params r P count prev seg -> seg = [].
Proof.
  intros Hprev. destruct seg as [| e seg]; trivial.
  intros [(Habs & _) _]. lra.
Qed.

Section Terms.

Variable total : Z.

(** Every run of terms at rates that are not negative stays within the
    payments that are left, and its balances do not grow. *)
Lemma termsSized_payoff (periods : list RenewalPeriod) :
  Forall (fun term => 0 <= rp_annualRate term) periods ->
  forall segs count prev,
    termsSized Math_pow params total count prev periods segs ->
    (prev <= 0.01 -> List.concat segs = []) /\
    ((count < total)%Z ->
     (count + Z.of_nat (List.length (List.concat segs)) <= total)%Z /\
     nonIncreasing prev (List.concat segs)).
Proof.
  induction 1 as [| term rest Hrate Hrates IH]; intros [| seg segs] count prev;
    cbn [termsSized]; try contradiction.
  - intros _. cbn. split; trivial. intros Hlt. split; [lia | exact I].
  - intros (Hpaid & _ & _ & _ & Hrest).
    destruct (IH segs _ _ Hrest) as [IHidle IHrun].
    cbn [List.concat]. split.
    + intros Hprev. rewrite (paidWith_idle _ _ _ _ _ Hprev Hpaid) in *.
      cbn [app]. apply IHidle. exact Hprev.
    + intros Hlt.
      pose proof (getPeriodicRate_nonneg (rp_annualRate term) (paymentFrequency params) Hrate)
        as Hr.
      set (r := getPeriodicRate Math_pow (rp_annualRate term) (paymentFrequency params)) in *.
      assert (Hcover : prev * levelFactor Math_pow r (total - count)
                       <= calculatePayment Math_pow prev r (total - count))
        by (rewrite calculatePayment_linear; lra).
      destruct (paidWith_payoff r _ seg Hr (total - count)%Z prev count ltac:(lia)
                  Hcover Hpaid) as (Hlen & Hmono & _ & Hzero).
      rewrite length_app, Nat2Z.inj_add.
      destruct (Z.eq_dec (Z.of_nat (List.length seg)) (total - count)) as [Hfull | Hshort].
      * specialize (Hzero Hfull).
        rewrite (IHidle ltac:(lra)), app_nil_r. cbn [List.length].
        split; [lia | exact Hmono].
      * destruct (IHrun ltac:(lia)) as [Hlen' Hmono'].
        split; [lia |]. apply nonIncreasing_app; assumption.
Qed.

(** When the periods are in ascending order and the first one starts at the
    next payment, the run ends on a balance of one cent or less. *)
Lemma termsSized_final (periods : list RenewalPeriod) :
  Forall (fun term => 0 <= rp_annualRate term) periods ->
  forall segs count prev,
    ascending periods ->
    (match periods with
     | term :: _ => rp_startPayment term = (count + 1)%Z
     | [] => False
     end \/ prev <= 0.01) ->
    ((count < total)%Z \/ prev <= 0.01) ->
    termsSized Math_pow params total count prev periods segs ->
    lastBalance prev (List.concat segs) <= 0.01.
Proof.
  induction 1 as [| term rest Hrate Hrates IH]; intros [| seg segs] count prev;
    cbn [termsSized]; try contradiction.
  - intros _ [[] | Hprev] _ _. exact Hprev.
  - intros Hasc Hstart Hcount (Hpaid & Hlen & Hshort & _ & Hrest).
    cbn [List.concat]. rewrite lastBalance_app.
    destruct (Qlt_le_dec (1 # 100) prev) as [Hprev | Hprev].
    + destruct Hstart as [Hstart | Habs]; [| lra].
      destruct Hcount as [Hcount | Habs]; [| lra].
      pose proof (getPeriodicRate_nonneg (rp_annualRate term) (paymentFrequency params) Hrate)
        as Hr.
      set (r := getPeriodicRate Math_pow (rp_annualRate term) (paymentFrequency params)) in *.
      assert (Hcover : prev * levelFactor Math_pow r (total - count)
                       <= calculatePayment Math_pow prev r (total - count))
        by (rewrite calculatePayment_linear; lra).
      destruct (paidWith_payoff r _ seg Hr (total - count)%Z prev count ltac:(lia)
                  Hcover Hpaid) as (Hlen' & _ & _ & Hzero).
      destruct rest as [| nextTerm rest'].
      * destruct segs as [| ? ?]; [| contradiction]. cbn [List.concat lastBalance fold_left].
        fold (lastBalance prev seg).
        destruct (Z.eq_dec (Z.of_nat (List.length seg)) (total - count)) as [Hfull | Hless].
        -- rewrite (Hzero Hfull). discriminate.
        -- apply Hshort. lia.
      * destruct Hasc as [Hle Hasc].
        destruct (Z_lt_le_dec (Z.of_nat (List.length seg))
                    (rp_startPayment nextTerm - 1 - rp_startPayment term + 1))
          as [Hless | Hfull].
        -- specialize (Hshort Hless).
           refine (IH segs _ _ Hasc _ _ Hrest); right; exact Hshort.
        -- refine (IH segs _ _ Hasc _ _ Hrest); [left; lia |].
           destruct (Z.eq_dec (Z.of_nat (List.length seg)) (total - count)) as [Hall | Hnot].
           ++ right. rewrite (Hzero Hall). discriminate.
           ++ left. lia.
    + rewrite (paidWith_idle _ _ _ _ _ Hprev Hpaid) in *.
      cbn [lastBalance fold_left List.length] in *. rewrite Z.add_0_r in Hrest.
      destruct rest as [| nextTerm rest'].
      * destruct segs as [| ? ?]; [| contradiction]. exact Hprev.
      * destruct Hasc as [_ Hasc].
        refine (IH segs _ _ Hasc _ _ Hrest); right; exact Hprev.
Qed.

End Terms.

End Sizing.

End Properties.

(** ** The schedule as a whole *)

Lemma insertPeriod_head (p : RenewalPeriod) (l : list RenewalPeriod) :
  match l with
  | q :: _ => (rp_startPayment p <= rp_startPayment q)%Z
  | [] => True
  end ->
  insertPeriod p l = p :: l.
Proof.
  destruct l as [| q l]; cbn [insertPeriod]; trivial.
  intros H. apply Z.leb_le in H. rewrite H. reflexivity.
Qed.

Lemma sortPeriods_ascending (l : list RenewalPeriod) :
  ascending l -> sortPeriods l = l.
Proof.
  unfold sortPeriods. induction l as [| p l IH]; intros H; cbn [fold_right]; trivial.
  destruct l as [| q l'].
  - reflexivity.
  - destruct H as [Hle H]. rewrite (IH H). apply insertPeriod_head. exact Hle.
Qed.

Lemma Forall_insertPeriod (A : RenewalPeriod -> Prop) (p : RenewalPeriod)
  (l : list RenewalPeriod) :
  A p -> Forall A l -> Forall A (insertPeriod p l).
Proof.
  intros Hp. induction 1 as [| q l Hq Hl IH]; cbn [insertPeriod].
  - constructor; [exact Hp | constructor].
  - destruct (rp_startPayment p <=? rp_startPayment q)%Z.
    + constructor; [exact Hp | constructor; assumption].
    + constructor; assumption.
Qed.

Lemma Forall_sortPeriods (A : RenewalPeriod -> Prop) (l : list RenewalPeriod) :
  Forall A l -> Forall A (sortPeriods l).
Proof.
  unfold sortPeriods. induction 1 as [| p l Hp Hl IH]; cbn [fold_right].
  - constructor.
  - apply Forall_insertPeriod; assumption.
Qed.

Lemma lastBalance_last (b : Q) (l : list PaymentDetail) (e : PaymentDetail) :
  nth_error l (List.length l - 1) = Some e -> lastBalance b l = pd_balance e.
Proof.
  destruct l as [| x l _] using rev_ind; [discriminate |].
  rewrite length_app, lastBalance_snoc. cbn [List.length].
  replace (List.length l + 1 - 1)%nat with (List.length l) by lia.
  rewrite nth_error_app2 by lia. rewrite Nat.sub_diag. cbn.
  intros H. injection H as <-. reflexivity.
Qed.

Section Sizer.

Variable Math_pow : Q -> Q -> Q.

Lemma calculatePayment_cases (b r : Q) (n : Z) :
  (r == 0 -> calculatePayment Math_pow b r n == b / inject_Z n) /\
  (~ r == 0 ->
   calculatePayment Math_pow b r n ==
   b * r * Math_pow (1 + r) (inject_Z n) / (Math_pow (1 + r) (inject_Z n) - 1)).
Proof.
  unfold calculatePayment. split; intros H.
  - apply Qeq_bool_iff in H. rewrite H. reflexivity.
  - destruct (Qeq_bool r 0) eqn:E; [apply Qeq_bool_iff in E; contradiction |].
    unfold Qdiv. ring.
Qed.

Lemma getPaymentCount_25_monthly (years : Q) :
  years == 25 -> getPaymentCount years monthly = 300%Z.
Proof.
  intros H. unfold getPaymentCount, Math_round. rewrite H. reflexivity.
Qed.

Lemma paidWith_head (params : MortgageParams) (r P : Q) (count : Z) (prev : Q)
  (seg : list PaymentDetail) (e : PaymentDetail) :
  paidWith params r P count prev seg ->
  nth_error seg 0 = Some e ->
  entryPaid params r P prev count e.
Proof.
  destruct seg as [| x seg]; [discriminate |].
  intros [Hx _] He. cbn in He. injection He as <-. exact Hx.
Qed.

(** With two periods that start at payments 1 and 61 and 300 payments in all,
    the 61st entry is the first entry of the second period. *)
Lemma second_term_entry (params : MortgageParams) (t1 t2 : RenewalPeriod)
  (segs : list (list PaymentDetail)) (e60 e61 : PaymentDetail) :
  rp_startPayment t1 = 1%Z -> rp_startPayment t2 = 61%Z ->
  termsSized Math_pow params 300 0 (principal params) [t1; t2] segs ->
  nth_error (List.concat segs) 59 = Some e60 ->
  nth_error (List.concat segs) 60 = Some e61 ->
  let r := getPeriodicRate Math_pow (rp_annualRate t2) (paymentFrequency params) in
  entryPaid params r (calculatePayment Math_pow (pd_balance e60) r 240)
    (pd_balance e60) 60 e61 /\
  pd_interestRate e61 = rp_annualRate t2.
Proof.
  intros H1 H2 Hsized H60 H61 r.
  destruct segs as [| seg1 [| seg2 [| ? ?]]]; cbn [termsSized] in Hsized;
    [contradiction | destruct Hsized as (_ & _ & _ & _ & []) | |
     destruct Hsized as (_ & _ & _ & _ & _ & _ & _ & _ & [])].
  destruct Hsized as (_ & Hlen1 & Hshort1 & _ & Hpaid2 & _ & _ & Hrate2 & _).
  fold r in Hpaid2. rewrite H1, H2 in *.
  cbn [List.concat] in H60, H61. rewrite app_nil_r in H60, H61.
  assert (Hfull : List.length seg1 = 60%nat).
  { destruct (Nat.eq_dec (List.length seg1) 60) as [E | E]; [exact E |].
    assert (Hidle : seg2 = []).
    { apply (paidWith_idle params _ _ _ _ _ (Hshort1 ltac:(lia)) Hpaid2). }
    subst seg2. rewrite app_nil_r in H61.
    assert (nth_error seg1 60 <> None) by congruence.
    apply nth_error_Some in H. lia. }
  rewrite nth_error_app1 in H60 by lia.
  rewrite nth_error_app2, Hfull in H61 by lia. cbn [Nat.sub] in H61.
  assert (Hlast : lastBalance (principal params) seg1 = pd_balance e60).
  { apply lastBalance_last. rewrite Hfull. exact H60. }
  rewrite Hlast, Hfull in Hpaid2. cbn in Hpaid2.
  split.
  - apply (paidWith_head params _ _ _ _ seg2 e61 Hpaid2 H61).
  - rewrite Forall_forall in Hrate2. apply Hrate2.
    apply (nth_error_In _ _ H61).
Qed.

(** C4: the level payment is the payment sizer's: [balance / remainingCount]
    at a periodic rate of 0, and otherwise the annuity value
    [balance * rate * (1+rate)^n / ((1+rate)^n - 1)].  The ledger is one
    segment for each rate term, and in [termsSized] the entries of a segment
    are paid with the level payment sized, at the entry to the term, on the
    balance outstanding then and on the payments left to the end of the whole
    amortization, [total - count].  For 25 years of monthly payments with a
    second term from payment 61, entry 61 is paid with the payment sized on
    the balance after entry 60 and 240 payments. *)
Theorem payment_sized_at_term_entry :
  (forall b r n,
      (r == 0 -> calculatePayment Math_pow b r n == b / inject_Z n) /\
      (~ r == 0 ->
       calculatePayment Math_pow b r n ==
       b * r * Math_pow (1 + r) (inject_Z n) / (Math_pow (1 + r) (inject_Z n) - 1))) /\
  (forall params s,
      calculateAmortizationSchedule Math_pow params = Ok s ->
      exists segs,
        payments s = List.concat segs /\
        termsSized Math_pow params
          (getPaymentCount (amortizationYears params) (paymentFrequency params))
          0 (principal params) (sortPeriods (renewalPeriods params)) segs) /\
  (forall params s t1 t2 e60 e61,
      calculateAmortizationSchedule Math_pow params = Ok s ->
      paymentFrequency params = monthly ->
      amortizationYears params == 25 ->
      renewalPeriods params = [t1; t2] ->
      rp_startPayment t1 = 1%Z -> rp_startPayment t2 = 61%Z ->
      nth_error (payments s) 59 = Some e60 ->
      nth_error (payments s) 60 = Some e61 ->
      let r := getPeriodicRate Math_pow (rp_annualRate t2) monthly in
      let balance60 := pd_balance e60 in
      let payment := calculatePayment Math_pow balance60 r 240 in
      pd_paymentNumber e61 = 61%Z /\
      pd_interestRate e61 = rp_annualRate t2 /\
      pd_interest e61 == balance60 * r /\
      pd_principal e61 == Math_min (payment - balance60 * r) balance60 /\
      pd_payment e61 == pd_principal e61 + pd_interest e61).
Proof.
  split; [apply calculatePayment_cases |]. split.
  - intros params s Hs. rewrite (schedule_payments Math_pow params s Hs).
    apply runSchedule_segments.
  - intros params s t1 t2 e60 e61 Hs Hfreq Hyears Hperiods H1 H2 H60 H61.
    rewrite (schedule_payments Math_pow params s Hs) in H60, H61.
    destruct (runSchedule_segments Math_pow params) as (segs & El & Hsized).
    rewrite El in H60, H61.
    rewrite Hfreq, (getPaymentCount_25_monthly _ Hyears), Hperiods in Hsized.
    rewrite sortPeriods_ascending in Hsized by (cbn; split; [lia | exact I]).
    destruct (second_term_entry params t1 t2 segs e60 e61 H1 H2 Hsized H60 H61)
      as ((_ & Hn & Hi & Hp & Hpay & _) & Hrate).
    rewrite Hfreq in *. cbv zeta. repeat split; assumption.
Qed.

End Sizer.

(** ** The second run *)

Lemma Qltb_eq (a b c d : Q) : a == c -> b == d -> Qltb a b = Qltb c d.
Proof. intros H1 H2. unfold Qltb. rewrite H1, H2. reflexivity. Qed.

Lemma ascending_tail (term : RenewalPeriod) (rest : list RenewalPeriod) :
  ascending (term :: rest) -> ascending rest.
Proof. destruct rest as [| nextTerm rest']; [intros _; exact I | intros [_ H]; exact H]. Qed.

Section SecondRun.

Variable Math_pow : Q -> Q -> Q.
Hypothesis pow_int : forall (b : Q) (n : Z), Math_pow b (inject_Z n) == b ^ n.
Hypothesis pow_ge_1 : forall b e : Q, 1 <= b -> 0 <= e -> 1 <= Math_pow b e.

Variable params : MortgageParams.
Hypothesis no_prepayments : additionalPayments params = [].

Lemma no_prepayments_nonneg : nonnegAmounts params.
Proof. unfold nonnegAmounts. rewrite no_prepayments. constructor. Qed.

Lemma makePayment_sameRun (term : RenewalPeriod) (termIndex : Z) (r P P' : Q)
  (st : LoopState) (sh : ShadowState) :
  sameRun st sh -> P == P' ->
  sameRun (makePayment params term termIndex r P st) (shadowPayment r P' sh).
Proof.
  intros (Hb & Hi & Hn) HP.
  destruct (makePayment_fields params term termIndex r P st)
    as (Eb & En & Ei & _).
  rewrite no_prepayments in Eb.
  change (getAdditionalPaymentAmount (paymentNumber st) []) with 0 in Eb.
  unfold sameRun, shadowPayment.
  cbn [balanceWithout totalInterestWithout currentPaymentNumber].
  rewrite Eb, En, Ei, !norm_eq.
  assert (Hmin : Math_min (P - balance st * r) (balance st)
                 == Math_min (P' - balanceWithout sh * r) (balanceWithout sh)).
  { apply Math_min_eq; [rewrite HP, Hb; reflexivity | exact Hb]. }
  pose proof (Math_min_le_r (P - balance st * r) (balance st)) as Hle.
  split; [| split; [rewrite Hi, Hb; reflexivity | lia]].
  destruct (Math_min_spec 0 (balance st - Math_min (P - balance st * r) (balance st)))
    as [[_ ->] | [Habs ->]]; lra.
Qed.

Lemma generatePayments_idle (term : RenewalPeriod) (termIndex : Z) (r P : Q)
  (turns : nat) (st : LoopState) :
  balance st <= 0.01 ->
  generatePayments turns params term termIndex r P st = st.
Proof.
  intros H. apply Qltb_ge in H. destruct turns; cbn [generatePayments]; trivial.
  rewrite H. reflexivity.
Qed.

Lemma processTerms_idle (total : Z) (periods : list RenewalPeriod) :
  forall termIndex st,
    balance st <= 0.01 ->
    processTerms Math_pow params total termIndex periods st = st.
Proof.
  induction periods as [| term rest IH]; intros termIndex st H; cbn [processTerms].
  - reflexivity.
  - rewrite (generatePayments_idle _ _ _ _ _ _ H).
    destruct (Qltb (balance st) (1 # 100)); trivial. apply IH. exact H.
Qed.

Lemma shadowPayments_idle (termEnd total : Z) (r P : Q) (turns : nat)
  (sh : ShadowState) :
  balanceWithout sh <= 0.01 ->
  shadowPayments turns termEnd total r P sh = sh.
Proof.
  intros H. apply Qltb_ge in H. destruct turns; cbn [shadowPayments]; trivial.
  rewrite H, andb_false_r. reflexivity.
Qed.

Lemma shadowPayments_past (termEnd total : Z) (r P : Q) (turns : nat)
  (sh : ShadowState) :
  (termEnd < currentPaymentNumber sh)%Z ->
  shadowPayments turns termEnd total r P sh = sh.
Proof.
  intros H. apply Z.leb_gt in H. destruct turns; cbn [shadowPayments]; trivial.
  rewrite H. reflexivity.
Qed.

Lemma shadowTerms_idle (frequency : PaymentFrequency) (total : Z)
  (periods : list RenewalPeriod) (sh : ShadowState) :
  balanceWithout sh <= 0.01 ->
  shadowTerms Math_pow frequency total periods sh = sh.
Proof.
  intros H. apply Qltb_ge in H. destruct periods; cbn [shadowTerms]; trivial.
  rewrite H. reflexivity.
Qed.

(** The inner loops of the two runs go together through a term, as long as
    the level payment covers the balance over the payments that are left. *)
Lemma generatePayments_sameRun (term : RenewalPeriod) (termIndex : Z)
  (r P P' : Q) (termEnd total : Z) :
  0 <= r -> P == P' ->
  forall (turns : nat) (st : LoopState) (sh : ShadowState) (fuel : nat),
    sameRun st sh ->
    Z.of_nat turns = Z.max 0 (termEnd - paymentNumber st + 1) ->
    (balance st <= 0.01 \/
     ((paymentNumber st - 1 < total)%Z /\
      balance st * levelFactor Math_pow r (total - (paymentNumber st - 1)) <= P)) ->
    (Z.min termEnd total - paymentNumber st + 1 <= Z.of_nat fuel)%Z ->
    let st' := generatePayments turns params term termIndex r P st in
    let sh' := shadowPayments fuel termEnd total r P' sh in
    sameRun st' sh' /\
    (balance st' <= 0.01 \/ (paymentNumber st' - 1 < total)%Z).
Proof.
  intros Hr HP. induction turns as [| turns IH]; intros st sh fuel Hsame Hturns Hcover Hfuel.
  - cbn [generatePayments]. destruct Hsame as (Hb & Hi & Hn).
    rewrite shadowPayments_past by lia.
    split; [repeat split; assumption |]. destruct Hcover as [H | [H _]]; auto.
  - cbn [generatePayments]. pose proof Hsame as (Hb & Hi & Hn).
    destruct (Qltb (1 # 100) (balance st)) eqn:Hpos.
    + apply Qltb_lt in Hpos.
      destruct Hcover as [Habs | [Hleft Hcover]]; [lra |].
      destruct fuel as [| fuel]; [lia |]. cbn [shadowPayments].
      replace ((currentPaymentNumber sh <=? termEnd)%Z
               && Qltb (1 # 100) (balanceWithout sh)
               && (currentPaymentNumber sh <=? total)%Z) with true.
      2:{ symmetry. rewrite !andb_true_iff. repeat split.
          - apply Z.leb_le. lia.
          - rewrite <- (Qltb_eq _ _ _ _ (Qeq_refl _) Hb). apply Qltb_lt. exact Hpos.
          - apply Z.leb_le. lia. }
      pose proof (makePayment_sameRun term termIndex r P P' st sh Hsame HP) as Hsame1.
      destruct (makePayment_entryPaid params term termIndex r P st Hpos)
        as (e & _ & En & He & _ & _ & Ebal & Hnonneg).
      destruct (entryPaid_covers Math_pow pow_int params no_prepayments_nonneg
                  r P (balance st) (paymentNumber st - 1)
                  (total - (paymentNumber st - 1)) e Hr ltac:(lia) Hcover He)
        as (_ & _ & _ & _ & Hone & Hnext).
      set (st1 := makePayment params term termIndex r P st) in *.
      set (sh1 := shadowPayment r P' sh) in *.
      destruct (Qltb (balance st1) (1 # 100)) eqn:Hdone.
      * apply Qltb_lt in Hdone.
        rewrite shadowPayments_idle by (destruct Hsame1 as (Hb1 & _); lra).
        split; [exact Hsame1 | left; lra].
      * apply Qltb_ge in Hdone. apply IH.
        -- exact Hsame1.
        -- rewrite En. lia.
        -- destruct (Z.eq_dec (total - (paymentNumber st - 1)) 1) as [E | E].
           ++ left. rewrite Ebal, (Hone E). discriminate.
           ++ right. rewrite En. split; [lia |].
              replace (total - (paymentNumber st + 1 - 1))%Z
                with (total - (paymentNumber st - 1) - 1)%Z by lia.
              rewrite Ebal. apply Hnext. lia.
        -- rewrite En. cbn [shadowPayment currentPaymentNumber] in *. lia.
    + apply Qltb_ge in Hpos. rewrite shadowPayments_idle by lra.
      split; [exact Hsame | left; exact Hpos].
Qed.

(** The two runs go together through the periods. *)
Lemma processTerms_sameRun (total : Z) (periods : list RenewalPeriod) :
  Forall (fun term => 0 <= rp_annualRate term) periods ->
  ascending periods ->
  forall termIndex st sh,
    sameRun st sh ->
    (balance st <= 0.01 \/
     (match periods with
      | term :: _ => rp_startPayment term = paymentNumber st
      | [] => True
      end /\ (paymentNumber st - 1 < total)%Z)) ->
    sameRun (processTerms Math_pow params total termIndex periods st)
            (shadowTerms Math_pow (paymentFrequency params) total periods sh).
Proof.
  induction 1 as [| term rest Hrate Hrates IH]; intros Hasc termIndex st sh Hsame Hat.
  - exact Hsame.
  - pose proof Hsame as (Hb & Hi & Hn).
    destruct (Qlt_le_dec (1 # 100) (balance st)) as [Hpos | Hidle].
    + destruct Hat as [Habs | [Hstart Hleft]]; [lra |].
      cbn [processTerms shadowTerms].
      replace (Qltb (1 # 100) (balanceWithout sh)) with true
        by (symmetry; rewrite <- (Qltb_eq _ _ _ _ (Qeq_refl _) Hb); apply Qltb_lt; exact Hpos).
      set (r := getPeriodicRate Math_pow (rp_annualRate term) (paymentFrequency params)).
      set (termEnd := match rest with
                      | nextTerm :: _ => (rp_startPayment nextTerm - 1)%Z
                      | [] => total
                      end).
      set (P := norm (calculatePayment Math_pow (balance st) r
                        (total - paymentNumber st + 1))).
      set (P' := norm (calculatePayment Math_pow (balanceWithout sh) r
                         (total - currentPaymentNumber sh + 1))).
      set (turns := Z.to_nat (termEnd - rp_startPayment term + 1)).
      set (fuel := Z.to_nat (Z.min termEnd total - currentPaymentNumber sh + 1)).
      assert (Hr : 0 <= r) by (apply getPeriodicRate_nonneg; assumption).
      assert (HP : P == P').
      { subst P P'. rewrite !norm_eq, <- Hn. apply calculatePayment_eq. exact Hb. }
      assert (Hcover : balance st
                       * levelFactor Math_pow r (total - (paymentNumber st - 1)) <= P).
      { subst P. rewrite norm_eq, calculatePayment_linear.
        replace (total - (paymentNumber st - 1))%Z with (total - paymentNumber st + 1)%Z
          by lia. lra. }
      destruct (generatePayments_sameRun term termIndex r P P' termEnd total Hr HP
                  turns st sh fuel Hsame ltac:(subst turns; lia)
                  (or_intror (conj Hleft Hcover)) ltac:(subst fuel; lia))
        as [Hsame' Hpost].
      destruct (generatePayments_spec params term termIndex r P turns st)
        as (seg & _ & Hlen & En & _ & _ & _ & Hshort).
      set (st' := generatePayments turns params term termIndex r P st) in *.
      set (sh' := shadowPayments fuel termEnd total r P' sh) in *.
      destruct (Qltb (balance st') (1 # 100)) eqn:Hdone.
      * apply Qltb_lt in Hdone.
        rewrite shadowTerms_idle by (destruct Hsame' as (Hb' & _); lra).
        exact Hsame'.
      * apply IH; [exact (ascending_tail _ _ Hasc) | exact Hsame' |].
        destruct (Nat.eq_dec (List.length seg) turns) as [Hfull | Hless].
        -- destruct Hpost as [Hidle | Hleft']; [left; exact Hidle |].
           right. split; [| exact Hleft'].
           destruct rest as [| nextTerm rest']; [exact I |].
           destruct Hasc as [Hle _]. subst turns termEnd. rewrite En, Hfull. lia.
        -- left. apply Hshort. lia.
    + rewrite processTerms_idle by exact Hidle.
      rewrite shadowTerms_idle by lra. exact Hsame.
Qed.

End SecondRun.

Section SecondRunTheorem.

Variable Math_pow : Q -> Q -> Q.
Hypothesis pow_int : forall (b : Q) (n : Z), Math_pow b (inject_Z n) == b ^ n.
Hypothesis pow_ge_1 : forall b e : Q, 1 <= b -> 0 <= e -> 1 <= Math_pow b e.

(** The second run is the first loop on the parameters without prepayments. *)
Theorem second_run_is_run_without_prepayments (params : MortgageParams) :
  Forall (fun term => 0 <= rp_annualRate term) (renewalPeriods params) ->
  ascending (renewalPeriods params) ->
  (forall term, nth_error (renewalPeriods params) 0 = Some term ->
                rp_startPayment term = 1%Z) ->
  (1 <= getPaymentCount (amortizationYears params) (paymentFrequency params))%Z ->
  interestWithoutAdditional Math_pow params ==
  totalInterestPaid (runSchedule Math_pow (withoutPrepayments params)).
Proof.
  intros Hrates Hasc Hstart Htotal.
  unfold interestWithoutAdditional, runSchedule.
  cbn [withoutPrepayments renewalPeriods amortizationYears paymentFrequency].
  rewrite (sortPeriods_ascending _ Hasc).
  change (paymentFrequency params) with (paymentFrequency (withoutPrepayments params)) at 2.
  symmetry.
  apply (processTerms_sameRun Math_pow pow_int pow_ge_1 (withoutPrepayments params)
           eq_refl _ _ Hrates Hasc).
  - repeat split; reflexivity.
  - right. cbn [initialState paymentNumber]. split; [| lia].
    destruct (renewalPeriods params) as [| term rest]; [exact I |].
    apply Hstart. reflexivity.
Qed.

End SecondRunTheorem.

(** ** Savings *)

Section Savings.

Variable Math_pow : Q -> Q -> Q.

(** The bound on the turns of the inner [while] of the second run is never
    what stops it: when the turns are used up its guard is false. *)
Lemma shadowPayments_guard (termEnd total : Z) (r P : Q) (turns : nat) :
  forall st,
    (Z.min termEnd total - currentPaymentNumber st + 1 <= Z.of_nat turns)%Z ->
    let st' := shadowPayments turns termEnd total r P st in
    (currentPaymentNumber st' <=? termEnd)%Z
    && Qltb (1 # 100) (balanceWithout st')
    && (currentPaymentNumber st' <=? total)%Z = false.
Proof.
  induction turns as [| turns IH]; intros st Hturns; cbn [shadowPayments].
  - cbn in Hturns.
    destruct (currentPaymentNumber st <=? termEnd)%Z eqn:E1; trivial.
    destruct (currentPaymentNumber st <=? total)%Z eqn:E2;
      [| rewrite andb_false_r; reflexivity].
    apply Z.leb_le in E1, E2. lia.
  - destruct ((currentPaymentNumber st <=? termEnd)%Z
              && Qltb (1 # 100) (balanceWithout st)
              && (currentPaymentNumber st <=? total)%Z) eqn:E; [| exact E].
    apply IH. cbn [shadowPayment currentPaymentNumber]. lia.
Qed.

Lemma savings_formulas (params : MortgageParams) (s : AmortizationSchedule) :
  calculateAmortizationSchedule Math_pow params = Ok s ->
  sm_actualPayoffMonths (summary s) =
    Math_round (inject_Z (Z.of_nat (List.length (payments s)))
                / inject_Z (getPaymentsPerYear (paymentFrequency params)) * 12) /\
  sm_timeSaved (summary s) ==
    amortizationYears params * 12 - inject_Z (sm_actualPayoffMonths (summary s)) /\
  (0 < sm_totalAdditionalPayments (summary s) ->
   sm_interestSaved (summary s) ==
     Math_max 0 (interestWithoutAdditional Math_pow params
                 - sm_totalInterestPaid (summary s))) /\
  (sm_totalAdditionalPayments (summary s) <= 0 -> sm_interestSaved (summary s) == 0).
Proof.
  intros Hs. destruct (schedule_ok Math_pow params s Hs) as (d & _ & ->).
  cbn [summary buildSchedule payments sm_actualPayoffMonths sm_timeSaved
       sm_totalAdditionalPayments sm_interestSaved sm_totalInterestPaid].
  split; [reflexivity |]. split; [reflexivity |]. split.
  - intros Hpos. apply Qltb_lt in Hpos. rewrite Hpos. reflexivity.
  - intros Hzero. apply Qltb_ge in Hzero. rewrite Hzero. reflexivity.
Qed.

End Savings.

(** ** Comparing the two runs *)

Lemma sumInterest_app (l1 l2 : list PaymentDetail) :
  sumInterest (l1 ++ l2) == sumInterest l1 + sumInterest l2.
Proof.
  unfold sumInterest. induction l1 as [| e l1 IH]; cbn [app fold_right].
  - ring.
  - rewrite IH. ring.
Qed.

Lemma sumAdditional_app (l1 l2 : list PaymentDetail) :
  sumAdditional (l1 ++ l2) == sumAdditional l1 + sumAdditional l2.
Proof.
  unfold sumAdditional. induction l1 as [| e l1 IH]; cbn [app fold_right].
  - ring.
  - rewrite IH. ring.
Qed.

Lemma sumInterest_snoc (l : list PaymentDetail) (e : PaymentDetail) :
  sumInterest (l ++ [e]) == sumInterest l + pd_interest e.
Proof. rewrite sumInterest_app. unfold sumInterest. cbn [fold_right]. ring. Qed.

Lemma sumAdditional_snoc (l : list PaymentDetail) (e : PaymentDetail) :
  sumAdditional (l ++ [e]) == sumAdditional l + pd_additionalPayment e.
Proof. rewrite sumAdditional_app. unfold sumAdditional. cbn [fold_right]. ring. Qed.

Section Totals.

Variable Math_pow : Q -> Q -> Q.

(** The two running totals of the first loop are the sums over its ledger,
    and without limits no entry is flagged. *)
Lemma totals_run (params : MortgageParams) :
  let st := runSchedule Math_pow params in
  totalInterestPaid st == sumInterest (ledger st) /\
  totalAdditionalPayments st == sumAdditional (ledger st) /\
  (prepaymentLimits params = None ->
   Forall (fun e => pd_exceedsLimit e = None) (ledger st)).
Proof.
  apply (runSchedule_invariant Math_pow (fun st =>
    totalInterestPaid st == sumInterest (ledger st) /\
    totalAdditionalPayments st == sumAdditional (ledger st) /\
    (prepaymentLimits params = None ->
     Forall (fun e => pd_exceedsLimit e = None) (ledger st)))).
  - split; [reflexivity | split; [reflexivity | intros _; constructor]].
  - intros term termIndex P st (Hi & Ha & Hf) _.
    set (r := getPeriodicRate Math_pow (rp_annualRate term) (paymentFrequency params)).
    destruct (makePayment_fields params term termIndex r P st)
      as (_ & _ & Ei & Ea & e & El & _ & _ & _ & _ & Eint & Eadd & _).
    destruct (makePayment_tracking params term termIndex r P st)
      as (e' & El' & Echeck & Hcases).
    rewrite El in El'. apply app_inj_tail in El'. destruct El' as [_ <-].
    rewrite El, Ei, Ea, <- Eadd, <- Eint, !norm_eq, sumInterest_snoc, sumAdditional_snoc.
    rewrite Hi, Ha.
    split; [reflexivity | split; [reflexivity |]].
    intros Hnone. apply Forall_app. split; [apply Hf; exact Hnone |].
    constructor; [| constructor].
    rewrite Hnone in Echeck.
    rewrite checkPrepaymentLimits_idle in Echeck by (left; reflexivity).
    destruct Hcases as [Hflag | Hflag]; [| exact Hflag].
    rewrite Hflag in Echeck. discriminate Echeck.
Qed.

End Totals.

Section Compare.

Variable Math_pow : Q -> Q -> Q.
Variables params params0 : MortgageParams.
Hypothesis amounts_nonneg : nonnegAmounts params.
Hypothesis no_prepayments : additionalPayments params0 = [].
Variables r P : Q.
Hypothesis r_nonneg : 0 <= r.

(** One payment of each run, the run with prepayments from the lower
    balance. *)
Lemma entryPaid_compare (b1 b0 : Q) (count : Z) (e1 e0 : PaymentDetail) :
  b1 <= b0 ->
  entryPaid params r P b1 count e1 ->
  entryPaid params0 r P b0 count e0 ->
  pd_interest e1 <= pd_interest e0 /\
  (b1 < b0 -> 0 < r -> pd_interest e1 < pd_interest e0) /\
  0 <= pd_additionalPayment e1 /\
  0 <= pd_balance e1 /\
  pd_balance e1 + pd_additionalPayment e1 <= pd_balance e0.
Proof.
  intros Hle (Hp1 & _ & Hi1 & Hpr1 & _ & Ha1 & Hb1) (Hp0 & _ & Hi0 & Hpr0 & _ & Ha0 & Hb0).
  rewrite no_prepayments in Ha0.
  change (getAdditionalPaymentAmount (count + 1) []) with 0 in Ha0.
  pose proof (getAdditionalPaymentAmount_nonneg params amounts_nonneg (count + 1)) as HA.
  set (A := getAdditionalPaymentAmount (count + 1)%Z (additionalPayments params)) in *.
  destruct (Math_min_spec (P - b1 * r) b1) as [[Hc1 Hm1] | [Hc1 Hm1]]; rewrite Hm1 in Hpr1;
    destruct (Math_min_spec (P - b0 * r) b0) as [[Hc0 Hm0] | [Hc0 Hm0]]; rewrite Hm0 in Hpr0;
    destruct (Math_min_spec A (b1 - pd_principal e1)) as [[Hd1 Hn1] | [Hd1 Hn1]];
    rewrite Hn1 in Ha1;
    destruct (Math_min_spec 0 (b0 - pd_principal e0)) as [[Hd0 Hn0] | [Hd0 Hn0]];
    rewrite Hn0 in Ha0;
    repeat split; try intros Hlt Hr; try nra.
Qed.

Lemma sumInterest_nonneg (seg : list PaymentDetail) :
  forall count prev, paidWith params0 r P count prev seg -> 0 <= sumInterest seg.
Proof.
  unfold sumInterest. induction seg as [| e seg IH]; intros count prev; cbn [paidWith fold_right].
  - intros _. lra.
  - intros [(Hp & _ & Hi & _) Hseg]. specialize (IH _ _ Hseg). nra.
Qed.

(** The run without prepayments, from a balance that is not lower and with
    every payment the term allows, charges at least the interest of the run
    with prepayments. *)
Lemma paidWith_compare (slots : Z) (seg1 : list PaymentDetail) :
  forall seg0 count b1 b0,
    b1 <= b0 ->
    paidWith params r P count b1 seg1 ->
    paidWith params0 r P count b0 seg0 ->
    (count + Z.of_nat (List.length seg1) <= slots)%Z ->
    ((count + Z.of_nat (List.length seg0) < slots)%Z -> lastBalance b0 seg0 <= 0.01) ->
    sumInterest seg1 <= sumInterest seg0.
Proof.
  induction seg1 as [| e1 seg1 IH]; intros seg0 count b1 b0 Hle H1 H0 Hlen Hfull.
  - cbn. apply (sumInterest_nonneg seg0 count b0 H0).
  - destruct H1 as [He1 H1]. pose proof He1 as (Hp1 & _).
    destruct seg0 as [| e0 seg0].
    + cbn in Hfull, Hlen. specialize (Hfull ltac:(lia)). lra.
    + destruct H0 as [He0 H0].
      destruct (entryPaid_compare b1 b0 count e1 e0 Hle He1 He0)
        as (Hi & _ & Ha & Hb & Hbal).
      cbn [List.length] in Hlen, Hfull. rewrite lastBalance_cons in Hfull.
      specialize (IH seg0 (count + 1)%Z (pd_balance e1) (pd_balance e0)
                    ltac:(lra) H1 H0 ltac:(lia) ltac:(intros; apply Hfull; lia)).
      unfold sumInterest in *. cbn [fold_right]. lra.
Qed.

(** From a strictly lower balance, at a positive rate, it charges more. *)
Lemma paidWith_compare_lt (slots : Z) (seg1 seg0 : list PaymentDetail)
  (count : Z) (b1 b0 : Q) :
  0 < r -> b1 < b0 -> 0.01 < b0 -> (count < slots)%Z ->
  paidWith params r P count b1 seg1 ->
  paidWith params0 r P count b0 seg0 ->
  (count + Z.of_nat (List.length seg1) <= slots)%Z ->
  ((count + Z.of_nat (List.length seg0) < slots)%Z -> lastBalance b0 seg0 <= 0.01) ->
  sumInterest seg1 < sumInterest seg0.
Proof.
  intros Hr Hlt Hb0 Hslot H1 H0 Hlen Hfull.
  destruct seg0 as [| e0 seg0].
  - cbn in Hfull. specialize (Hfull ltac:(lia)). lra.
  - destruct H0 as [He0 H0]. pose proof He0 as (_ & _ & Hi0 & _).
    cbn [List.length] in Hfull. rewrite lastBalance_cons in Hfull.
    destruct seg1 as [| e1 seg1].
    + pose proof (sumInterest_nonneg seg0 _ _ H0) as Hrest.
      unfold sumInterest in *. cbn [fold_right]. nra.
    + destruct H1 as [He1 H1].
      destruct (entryPaid_compare b1 b0 count e1 e0 ltac:(lra) He1 He0)
        as (_ & Hi & Ha & Hb & Hbal).
      cbn [List.length] in Hlen.
      pose proof (paidWith_compare slots seg1 seg0 (count + 1)%Z (pd_balance e1)
                    (pd_balance e0) ltac:(lra) H1 H0 ltac:(lia)
                    ltac:(intros; apply Hfull; lia)) as Hrest.
      specialize (Hi Hlt Hr). unfold sumInterest in *. cbn [fold_right]. lra.
Qed.

(** An extra payment above one cent, made before the last payment of the
    term, brings the interest strictly down. *)
Lemma paidWith_compare_extra (slots : Z) (seg1 : list PaymentDetail) :
  0 < r ->
  forall seg0 count b1 b0,
    b1 <= b0 ->
    paidWith params r P count b1 seg1 ->
    paidWith params0 r P count b0 seg0 ->
    (count + Z.of_nat (List.length seg1) <= slots)%Z ->
    ((count + Z.of_nat (List.length seg0) < slots)%Z -> lastBalance b0 seg0 <= 0.01) ->
    Exists (fun e => 0.01 < pd_additionalPayment e /\ (pd_paymentNumber e < slots)%Z) seg1 ->
    sumInterest seg1 < sumInterest seg0.
Proof.
  intros Hr. induction seg1 as [| e1 seg1 IH]; intros seg0 count b1 b0 Hle H1 H0 Hlen Hfull Hex.
  - inversion Hex.
  - destruct H1 as [He1 H1]. pose proof He1 as (Hp1 & Hn1 & _).
    destruct seg0 as [| e0 seg0].
    + cbn in Hfull, Hlen. specialize (Hfull ltac:(lia)). lra.
    + destruct H0 as [He0 H0].
      destruct (entryPaid_compare b1 b0 count e1 e0 Hle He1 He0)
        as (Hi & _ & Ha & Hb & Hbal).
      cbn [List.length] in Hlen, Hfull. rewrite lastBalance_cons in Hfull.
      assert (Hstep : sumInterest seg1 < sumInterest seg0 ->
                      sumInterest (e1 :: seg1) < sumInterest (e0 :: seg0)).
      { unfold sumInterest. cbn [fold_right]. lra. }
      apply Hstep. inversion Hex as [? ? [Hextra Hslot] | ? ? Hlater]; subst.
      * apply (paidWith_compare_lt slots seg1 seg0 (count + 1)%Z (pd_balance e1)
                 (pd_balance e0)); trivial; try lra; try lia.
        intros; apply Hfull; lia.
      * apply (IH seg0 (count + 1)%Z (pd_balance e1) (pd_balance e0)); trivial;
          try lra; try lia.
        intros; apply Hfull; lia.
Qed.

End Compare.

Lemma getAdditionalPaymentStep_one_time_off (index : Z) (total : Q)
  (rule : AdditionalPayment) :
  ap_type rule = one_time -> index <> ap_startPayment rule ->
  getAdditionalPaymentStep index total rule = total.
Proof.
  intros Htype Hoff. unfold getAdditionalPaymentStep. rewrite Htype.
  apply Z.eqb_neq in Hoff. rewrite Hoff.
  destruct (ap_enabled rule) as [[|] |]; trivial;
    destruct (index <? ap_startPayment rule)%Z; trivial;
    destruct (match ap_endPayment rule with Some _ => _ | None => _ end); trivial.
Qed.

Section OneExtra.

Variable params : MortgageParams.
Variable rule : AdditionalPayment.
Hypothesis one_rule : additionalPayments params = [rule].
Hypothesis rule_one_time : ap_type rule = one_time.

Lemma one_rule_off (index : Z) :
  index <> ap_startPayment rule ->
  getAdditionalPaymentAmount index (additionalPayments params) = 0.
Proof.
  intros H. rewrite one_rule. unfold getAdditionalPaymentAmount. cbn [fold_left].
  apply getAdditionalPaymentStep_one_time_off; assumption.
Qed.

Lemma entryPaid_off (r P prev : Q) (count : Z) (e : PaymentDetail) :
  (count + 1)%Z <> ap_startPayment rule ->
  entryPaid params r P prev count e -> pd_additionalPayment e == 0.
Proof.
  intros Hoff (_ & _ & _ & Hpr & _ & Ha & _).
  rewrite (one_rule_off _ Hoff) in Ha. rewrite Ha.
  pose proof (Math_min_le_r (P - prev * r) prev) as Hle.
  destruct (Math_min_spec 0 (prev - pd_principal e)) as [[_ ->] | [Habs ->]]; lra.
Qed.

Lemma paidWith_after (r P : Q) (seg : list PaymentDetail) :
  forall count prev,
    (ap_startPayment rule <= count)%Z ->
    paidWith params r P count prev seg -> sumAdditional seg == 0.
Proof.
  unfold sumAdditional.
  induction seg as [| e seg IH]; intros count prev Hafter; cbn [paidWith fold_right].
  - intros _. reflexivity.
  - intros [He Hseg]. rewrite (IH (count + 1)%Z _ ltac:(lia) Hseg).
    rewrite (entryPaid_off r P prev count e ltac:(lia) He). reflexivity.
Qed.

(** With a single one-time rule, the extra payments of a term sum to the one
    of the entry at the rule's payment. *)
Lemma paidWith_one_extra (r P : Q) (seg : list PaymentDetail) (e : PaymentDetail) :
  forall count prev (i : nat),
    ap_startPayment rule = (count + Z.of_nat i + 1)%Z ->
    nth_error seg i = Some e ->
    paidWith params r P count prev seg ->
    sumAdditional seg == pd_additionalPayment e.
Proof.
  induction seg as [| x seg IH]; intros count prev i Hat Hnth; [destruct i; discriminate |].
  intros [Hx Hseg]. unfold sumAdditional. cbn [fold_right].
  fold (sumAdditional seg). destruct i as [| i].
  - cbn in Hnth. injection Hnth as <-.
    rewrite (paidWith_after r P seg (count + 1)%Z _ ltac:(lia) Hseg). ring.
  - cbn in Hnth.
    rewrite (IH (count + 1)%Z (pd_balance x) i ltac:(lia) Hnth Hseg).
    rewrite (entryPaid_off r P prev count x ltac:(lia) Hx). ring.
Qed.

Lemma paidWith_number (r P : Q) (seg : list PaymentDetail) (e : PaymentDetail) :
  forall count prev (i : nat),
    nth_error seg i = Some e ->
    paidWith params r P count prev seg ->
    pd_paymentNumber e = (count + Z.of_nat i + 1)%Z.
Proof.
  induction seg as [| x seg IH]; intros count prev i Hnth; [destruct i; discriminate |].
  intros [Hx Hseg]. destruct i as [| i].
  - cbn in Hnth. injection Hnth as <-. destruct Hx as (_ & -> & _). lia.
  - cbn in Hnth. rewrite (IH (count + 1)%Z _ i Hnth Hseg). lia.
Qed.

End OneExtra.

Lemma paidWith_nth (params : MortgageParams) (r P : Q) (seg : list PaymentDetail)
  (e : PaymentDetail) :
  forall count prev (i : nat),
    nth_error seg i = Some e ->
    paidWith params r P count prev seg ->
    exists prev', entryPaid params r P prev' (count + Z.of_nat i) e.
Proof.
  induction seg as [| x seg IH]; intros count prev i Hnth; [destruct i; discriminate |].
  intros [Hx Hseg]. destruct i as [| i].
  - cbn in Hnth. injection Hnth as <-. exists prev. rewrite Z.add_0_r. exact Hx.
  - cbn in Hnth. destruct (IH (count + 1)%Z _ i Hnth Hseg) as (prev' & He).
    exists prev'. replace (count + Z.of_nat (S i))%Z with (count + 1 + Z.of_nat i)%Z by lia.
    exact He.
Qed.

Lemma termsSized_single (Math_pow : Q -> Q -> Q) (params : MortgageParams)
  (total : Z) (prev : Q) (term : RenewalPeriod) (segs : list (list PaymentDetail)) :
  termsSized Math_pow params total 0 prev [term] segs ->
  exists seg,
    List.concat segs = seg /\
    paidWith params
      (getPeriodicRate Math_pow (rp_annualRate term) (paymentFrequency params))
      (calculatePayment Math_pow prev
         (getPeriodicRate Math_pow (rp_annualRate term) (paymentFrequency params))
         total) 0 prev seg /\
    (Z.of_nat (List.length seg) <= Z.max 0 (total - rp_startPayment term + 1))%Z /\
    ((Z.of_nat (List.length seg) < total - rp_startPayment term + 1)%Z ->
     lastBalance prev seg <= 0.01).
Proof.
  destruct segs as [| seg [| ? ?]]; cbn [termsSized];
    [contradiction | | intros (_ & _ & _ & _ & [])].
  intros (Hpaid & Hlen & Hshort & _). exists seg. cbn [List.concat].
  rewrite app_nil_r, Z.sub_0_r in *. repeat split; assumption.
Qed.

Section LumpSum.

Variable Math_pow : Q -> Q -> Q.
Hypothesis pow_int : forall (b : Q) (n : Z), Math_pow b (inject_Z n) == b ^ n.
Hypothesis pow_ge_1 : forall b e : Q, 1 <= b -> 0 <= e -> 1 <= Math_pow b e.

(** One extra payment in a single term at a positive rate: when the entry at
    the rule's payment carries the amount in full and is not the last of the
    amortization, the total of the extra payments is that amount and the
    interest saved is positive. *)
Theorem one_extra_payment_saves_interest (params : MortgageParams)
  (s : AmortizationSchedule) (term : RenewalPeriod) (rule : AdditionalPayment)
  (k : nat) (e : PaymentDetail) :
  calculateAmortizationSchedule Math_pow params = Ok s ->
  renewalPeriods params = [term] ->
  rp_startPayment term = 1%Z ->
  0 <= rp_annualRate term ->
  0 < getPeriodicRate Math_pow (rp_annualRate term) (paymentFrequency params) ->
  additionalPayments params = [rule] ->
  ap_type rule = one_time ->
  ap_startPayment rule = Z.of_nat (S k) ->
  (Z.of_nat (S k)
   < getPaymentCount (amortizationYears params) (paymentFrequency params))%Z ->
  nth_error (payments s) k = Some e ->
  0.01 < pd_additionalPayment e ->
  sm_totalAdditionalPayments (summary s) == pd_additionalPayment e /\
  0 < sm_interestSaved (summary s).
Proof.
  intros Hs Hperiods Hstart Hrate Hr Hrules Htype Hat Hslots Hnth Hextra.
  set (total := getPaymentCount (amortizationYears params) (paymentFrequency params)) in *.
  set (r := getPeriodicRate Math_pow (rp_annualRate term) (paymentFrequency params)) in *.
  destruct (savings_formulas Math_pow params s Hs) as (_ & _ & Hsaved & _).
  destruct (schedule_ok Math_pow params s Hs) as (d & _ & Hbuild).
  assert (Htot : sm_totalAdditionalPayments (summary s)
                 = totalAdditionalPayments (runSchedule Math_pow params))
    by (rewrite Hbuild; reflexivity).
  assert (Hint : sm_totalInterestPaid (summary s)
                 = totalInterestPaid (runSchedule Math_pow params))
    by (rewrite Hbuild; reflexivity).
  rewrite (schedule_payments Math_pow params s Hs) in Hnth.
  (* the run with the extra payment *)
  destruct (totals_run Math_pow params) as (Hi1 & Ha1 & _).
  destruct (runSchedule_segments Math_pow params) as (segs1 & El1 & Hsized1).
  fold total in Hsized1. rewrite Hperiods in Hsized1. cbn [sortPeriods fold_right insertPeriod] in Hsized1.
  destruct (termsSized_single Math_pow params total _ term segs1 Hsized1)
    as (seg1 & Ec1 & Hpaid1 & Hlen1 & _).
  fold r in Hpaid1. rewrite Ec1 in El1. rewrite El1 in Hi1, Ha1, Hnth.
  (* the run without *)
  set (params0 := withoutPrepayments params).
  destruct (totals_run Math_pow params0) as (Hi0 & _ & _).
  destruct (runSchedule_segments Math_pow params0) as (segs0 & El0 & Hsized0).
  cbn [params0 withoutPrepayments amortizationYears paymentFrequency renewalPeriods
       principal] in Hsized0.
  fold total in Hsized0. rewrite Hperiods in Hsized0.
  cbn [sortPeriods fold_right insertPeriod] in Hsized0.
  destruct (termsSized_single Math_pow _ total _ term segs0 Hsized0)
    as (seg0 & Ec0 & Hpaid0 & _ & Hshort0).
  cbn [withoutPrepayments paymentFrequency] in Hpaid0. fold r params0 in Hpaid0.
  rewrite Ec0 in El0. rewrite El0 in Hi0.
  assert (Hsecond : interestWithoutAdditional Math_pow params
                    == totalInterestPaid (runSchedule Math_pow params0)).
  { apply (second_run_is_run_without_prepayments Math_pow pow_int pow_ge_1 params).
    - rewrite Hperiods. repeat constructor. exact Hrate.
    - rewrite Hperiods. exact I.
    - rewrite Hperiods. intros t Ht. cbn in Ht. injection Ht as <-. exact Hstart.
    - fold total. lia. }
  (* the extra payments *)
  assert (Hsum : sumAdditional seg1 == pd_additionalPayment e).
  { apply (paidWith_one_extra params rule Hrules Htype r _ seg1 e 0%Z _ k
             ltac:(rewrite Hat; lia) Hnth Hpaid1). }
  assert (Hextra' : 0 < sm_totalAdditionalPayments (summary s))
    by (rewrite Htot, Ha1, Hsum; lra).
  split; [rewrite Htot, Ha1; exact Hsum |].
  rewrite (Hsaved Hextra'), Hsecond, Hint, Hi0, Hi1.
  (* the amount is not negative *)
  assert (Hamount : nonnegAmounts params).
  { unfold nonnegAmounts. rewrite Hrules. constructor; [| constructor].
    destruct (paidWith_nth params r _ seg1 e 0%Z _ k Hnth Hpaid1)
      as (prev' & _ & _ & _ & _ & _ & Ha & _).
    rewrite Hrules in Ha. unfold getAdditionalPaymentAmount in Ha. cbn [fold_left] in Ha.
    destruct (getAdditionalPaymentStep_cases (0 + Z.of_nat k + 1) 0 rule) as [E | E];
      rewrite E in Ha;
      match type of Ha with
      | _ == Math_min ?a ?b => pose proof (Math_min_le_l a b) as Hle
      end; lra. }
  (* the interest *)
  assert (Hlt : sumInterest seg1 < sumInterest seg0).
  { apply (paidWith_compare_extra params params0 Hamount eq_refl r
             (calculatePayment Math_pow (principal params) r total) ltac:(lra)
             total seg1 Hr seg0 0%Z (principal params) (principal params)
             ltac:(lra) Hpaid1 Hpaid0).
    - lia.
    - intros Hshort. apply Hshort0. rewrite Hstart. lia.
    - apply Exists_exists. exists e. split; [apply (nth_error_In _ _ Hnth) |].
      split; [exact Hextra |].
      rewrite (paidWith_number params r _ seg1 e 0%Z _ k Hnth Hpaid1). lia. }
  destruct (Math_max_spec 0 (sumInterest seg0 - sumInterest seg1)) as [[_ ->] | [Habs ->]]; lra.
Qed.

End LumpSum.

(** ** Runs on the parameter sets *)

Lemma schedule_lump_sum_run :
  calculateAmortizationSchedule pow_approx params_lump_sum = schedule_lump_sum.
Proof. vm_compute. reflexivity. Qed.

(** C6: the months to pay off are [round(ledgerLength / paymentsPerYear * 12)]
    and the time saved is the nominal [amortizationYears * 12] less those;
    when the total of the extra payments is positive the interest saved is
    [max(0, interestWithoutExtra - interestActual)], the first term being the
    interest of a second run over the same periods and cadence that reads no
    additional payment and no limit, and otherwise it is 0.  When the periods
    are in ascending order from payment 1 and no rate is negative, the second
    run charges the interest the first loop charges on the same parameters
    without prepayments.  Without limits no entry is flagged.  With a single
    one-time extra payment of 10000 at payment 12, in a single term at a
    positive rate, when entry 12 carries the 10000 and is not the last of the
    amortization, the total of the extra payments is 10000 and the interest
    saved is strictly positive; [params_lump_sum] is such a run. *)
Theorem savings_from_second_run :
  (forall Math_pow params s,
      calculateAmortizationSchedule Math_pow params = Ok s ->
      sm_actualPayoffMonths (summary s) =
        Math_round (inject_Z (Z.of_nat (List.length (payments s)))
                    / inject_Z (getPaymentsPerYear (paymentFrequency params)) * 12) /\
      sm_timeSaved (summary s) ==
        amortizationYears params * 12 - inject_Z (sm_actualPayoffMonths (summary s)) /\
      (0 < sm_totalAdditionalPayments (summary s) ->
       sm_interestSaved (summary s) ==
         Math_max 0 (interestWithoutAdditional Math_pow params
                     - sm_totalInterestPaid (summary s))) /\
      (sm_totalAdditionalPayments (summary s) <= 0 ->
       sm_interestSaved (summary s) == 0)) /\
  (forall Math_pow params,
      interestWithoutAdditional Math_pow params =
      interestWithoutAdditional Math_pow (withoutPrepayments params)) /\
  (forall Math_pow params,
      (forall (b : Q) (n : Z), Math_pow b (inject_Z n) == b ^ n) ->
      (forall b e : Q, 1 <= b -> 0 <= e -> 1 <= Math_pow b e) ->
      Forall (fun term => 0 <= rp_annualRate term) (renewalPeriods params) ->
      ascending (renewalPeriods params) ->
      (forall term, nth_error (renewalPeriods params) 0 = Some term ->
                    rp_startPayment term = 1%Z) ->
      (1 <= getPaymentCount (amortizationYears params) (paymentFrequency params))%Z ->
      interestWithoutAdditional Math_pow params ==
      totalInterestPaid (runSchedule Math_pow (withoutPrepayments params))) /\
  (forall Math_pow params s,
      calculateAmortizationSchedule Math_pow params = Ok s ->
      prepaymentLimits params = None ->
      Forall (fun e => pd_exceedsLimit e = None) (payments s)) /\
  (forall Math_pow params s term rule e12,
      (forall (b : Q) (n : Z), Math_pow b (inject_Z n) == b ^ n) ->
      (forall b e : Q, 1 <= b -> 0 <= e -> 1 <= Math_pow b e) ->
      calculateAmortizationSchedule Math_pow params = Ok s ->
      renewalPeriods params = [term] ->
      rp_startPayment term = 1%Z ->
      0 <= rp_annualRate term ->
      0 < getPeriodicRate Math_pow (rp_annualRate term) (paymentFrequency params) ->
      additionalPayments params = [rule] ->
      ap_type rule = one_time ->
      ap_amount rule == 10000 ->
      ap_startPayment rule = 12%Z ->
      (12 < getPaymentCount (amortizationYears params) (paymentFrequency params))%Z ->
      nth_error (payments s) 11 = Some e12 ->
      pd_additionalPayment e12 == 10000 ->
      sm_totalAdditionalPayments (summary s) == 10000 /\
      0 < sm_interestSaved (summary s)) /\
  (exists s,
      calculateAmortizationSchedule pow_approx params_lump_sum = Ok s /\
      map (fun e => (pd_paymentNumber e, pd_additionalPayment e))
        (filter (fun e => Qltb 0 (pd_additionalPayment e)) (payments s))
      = [(12%Z, 10000)] /\
      sm_totalAdditionalPayments (summary s) == 10000 /\
      0 < sm_interestSaved (summary s) /\
      Forall (fun e => pd_exceedsLimit e = None) (payments s)).
Proof.
  split; [exact savings_formulas |]. split; [reflexivity |].
  split; [intros Math_pow params Hint Hge;
          exact (second_run_is_run_without_prepayments Math_pow Hint Hge params) |].
  split.
  { intros Math_pow params s Hs Hnone. rewrite (schedule_payments Math_pow params s Hs).
    apply (totals_run Math_pow params). exact Hnone. }
  split.
  { intros Math_pow params s term rule e12 Hint Hge Hs Hperiods Hstart Hrate Hr Hrules
      Htype _ Hat Hslots Hnth Hextra.
    destruct (one_extra_payment_saves_interest Math_pow Hint Hge params s term rule
                11%nat e12 Hs Hperiods Hstart Hrate Hr Hrules Htype Hat Hslots Hnth
                ltac:(rewrite Hextra; reflexivity)) as [Htotal Hsaved].
    split; [rewrite Htotal; exact Hextra | exact Hsaved]. }
  rewrite schedule_lump_sum_run. unfold schedule_lump_sum.
  eexists. split; [reflexivity |].
  split; [vm_compute; reflexivity |].
  split; [vm_compute; reflexivity |].
  split; [vm_compute; reflexivity |].
  repeat constructor.
Qed.

(** C1 fails as stated: the engine accepts [params_other_principal], whose
    insurance total is 400000, and starts from its [principal] field, 1000. *)
Lemma starting_balance_counterexample :
  exists s d e,
    calculateAmortizationSchedule pow_approx params_other_principal = Ok s /\
    calculateMortgageWithInsurance (purchasePrice params_other_principal)
      (downPaymentPercent params_other_principal)
      (additionalFinancing params_other_principal)
      (cmhcPstRate params_other_principal) = Ok d /\
    ins_totalPrincipal d == 400000 /\
    nth_error (payments s) 0 = Some e /\
    pd_balance e + pd_principal e + pd_additionalPayment e == 1000 /\
    ~ balance (initialState params_other_principal) == ins_totalPrincipal d.
Proof.
  eexists. eexists. eexists.
  split; [vm_compute; reflexivity |].
  split; [vm_compute; reflexivity |].
  split; [vm_compute; reflexivity |].
  split; [vm_compute; reflexivity |].
  split; [vm_compute; reflexivity |].
  vm_compute. discriminate.
Qed.

Lemma starting_balance_is_principal_field_witness :
  exists s,
    calculateAmortizationSchedule pow_approx params_other_principal = Ok s /\
    totalPrincipal s = 1000.
Proof.
  eexists. split; [vm_compute; reflexivity |].
  apply (starting_balance_is_principal_field pow_approx params_other_principal).
  vm_compute. reflexivity.
Defined.

Lemma ledger_payment_split_and_balance_chain_witness :
  exists s,
    calculateAmortizationSchedule pow_approx params_other_principal = Ok s /\
    forall e, In e (payments s) -> pd_payment e == pd_principal e + pd_interest e.
Proof.
  eexists. split; [vm_compute; reflexivity |].
  apply (ledger_payment_split_and_balance_chain pow_approx params_other_principal).
  vm_compute. reflexivity.
Defined.

Lemma schedule_late_start_run :
  calculateAmortizationSchedule pow_approx params_late_start = schedule_late_start.
Proof. vm_compute. reflexivity. Qed.


Lemma schedule_empty_beyond_horizon :
  exists s,
    calculateAmortizationSchedule pow_approx params_beyond_horizon = Ok s /\
    payments s = [].
Proof. eexists. split; vm_compute; reflexivity. Qed.

Lemma ledger_two_terms_run :
  ledger (runSchedule pow_approx params_two_terms) = ledger_two_terms.
Proof. vm_compute. reflexivity. Qed.

Lemma payment_sized_at_term_entry_witness :
  exists s e60 e61,
    calculateAmortizationSchedule pow_approx params_two_terms = Ok s /\
    nth_error (payments s) 59 = Some e60 /\
    nth_error (payments s) 60 = Some e61 /\
    pd_balance e60 == 240000 /\
    pd_paymentNumber e61 = 61%Z /\
    pd_principal e61 ==
      Math_min (calculatePayment pow_approx (pd_balance e60)
                  (getPeriodicRate pow_approx rate_half_percent monthly) 240
                - pd_balance e60 * getPeriodicRate pow_approx rate_half_percent monthly)
               (pd_balance e60).
Proof.
  assert (Hok : exists d, calculateAmortizationSchedule pow_approx params_two_terms
                          = Ok (buildSchedule pow_approx params_two_terms d)).
  { eexists. unfold calculateAmortizationSchedule.
    cbn [renewalPeriods params_two_terms List.length Nat.eqb].
    unfold calculateMortgageWithInsurance.
    replace (getCMHCPremiumRate (downPaymentPercent params_two_terms)) with (@Ok Q 0)
      by (vm_compute; reflexivity).
    cbn [bind]. reflexivity. }
  destruct Hok as (d & Hok).
  assert (H60 : exists e, nth_error (payments (buildSchedule pow_approx params_two_terms d)) 59
                          = Some e /\ pd_balance e == 240000).
  { cbn [payments buildSchedule]. rewrite ledger_two_terms_run.
    eexists. split; [reflexivity | reflexivity]. }
  assert (H61 : exists e, nth_error (payments (buildSchedule pow_approx params_two_terms d)) 60
                          = Some e).
  { cbn [payments buildSchedule]. rewrite ledger_two_terms_run.
    eexists. reflexivity. }
  destruct H60 as (e60 & H60 & Hbal). destruct H61 as (e61 & H61).
  exists (buildSchedule pow_approx params_two_terms d), e60, e61.
  split; [exact Hok |]. split; [exact H60 |]. split; [exact H61 |].
  split; [exact Hbal |].
  destruct (proj2 (proj2 (payment_sized_at_term_entry pow_approx))
              params_two_terms _ _ _ e60 e61 Hok eq_refl (Qeq_refl _) eq_refl
              eq_refl eq_refl H60 H61) as (Hn & _ & _ & Hp & _).
  split; [exact Hn | exact Hp].
Defined.

(** ** The ledger, entry by entry *)

Lemma balanceBefore_app (b : Q) (l l' : list PaymentDetail) (i : nat) :
  (i <= List.length l)%nat -> balanceBefore b (l ++ l') i = balanceBefore b l i.
Proof.
  intros H. unfold balanceBefore. rewrite firstn_app.
  replace (i - List.length l)%nat with 0%nat by lia.
  cbn [firstn]. rewrite app_nil_r. reflexivity.
Qed.

Lemma balanceBefore_all (b : Q) (l : list PaymentDetail) :
  balanceBefore b l (List.length l) = lastBalance b l.
Proof. unfold balanceBefore. rewrite firstn_all. reflexivity. Qed.

Section Entries.

Variable Math_pow : Q -> Q -> Q.

Lemma entriesInvariant_run (params : MortgageParams) :
  entriesInvariant Math_pow params (runSchedule Math_pow params).
Proof.
  apply runSchedule_invariant.
  - split; [reflexivity |]. split; [reflexivity |].
    intros i e He. destruct i; discriminate.
  - intros term termIndex P st (Hnum & Hbal & Hall) Hpos.
    set (r := getPeriodicRate Math_pow (rp_annualRate term) (paymentFrequency params)).
    destruct (makePayment_entryPaid params term termIndex r P st Hpos)
      as (e & El & En & He & Er & _ & Ebal & _).
    destruct (makePayment_fields params term termIndex r P st)
      as (_ & _ & _ & _ & e' & El' & _ & Ed & _).
    rewrite El in El'. apply app_inj_tail in El'. destruct El' as [_ <-].
    unfold entriesInvariant. rewrite El, En, length_app, lastBalance_snoc.
    cbn [List.length]. split; [lia |]. split; [exact Ebal |].
    intros i x Hx.
    destruct (Nat.lt_ge_cases i (List.length (ledger st))) as [Hlt | Hge].
    + rewrite nth_error_app1 in Hx by exact Hlt.
      rewrite balanceBefore_app by lia. apply Hall. exact Hx.
    + rewrite nth_error_app2 in Hx by exact Hge.
      destruct (i - List.length (ledger st))%nat as [| k] eqn:Ei;
        [| destruct k; discriminate].
      cbn in Hx. injection Hx as <-.
      assert (i = List.length (ledger st)) by lia. subst i.
      rewrite balanceBefore_app, balanceBefore_all by lia.
      exists P. split.
      * rewrite Er. fold r.
        replace (Z.of_nat (List.length (ledger st))) with (paymentNumber st - 1)%Z by lia.
        apply (entryPaid_eq params r P P (balance st) _ _ e (Qeq_refl P) Hbal He).
      * rewrite Ed. f_equal. f_equal. lia.
Qed.

End Entries.

Lemma getDaysForPayment_monthly (n : Z) :
  getDaysForPayment n monthly = ((3044 * (n - 1) + 50) / 100)%Z.
Proof.
  unfold getDaysForPayment, Math_round, Qfloor, Qplus, Qmult, inject_Z.
  cbn [Qnum Qden Pos.mul].
  replace ((n - 1) * 3044 * 2 + 1 * 100)%Z with ((3044 * (n - 1) + 50) * 2)%Z by lia.
  match goal with |- (_ / ?d)%Z = _ => change d with (100 * 2)%Z end.
  apply Z.div_mul_cancel_r; lia.
Qed.

Lemma getDaysForPayment_gap (n : Z) (frequency : PaymentFrequency) :
  let gap := (getDaysForPayment (n + 1) frequency - getDaysForPayment n frequency)%Z in
  match frequency with
  | monthly => gap = 30%Z \/ gap = 31%Z
  | weekly => gap = 7%Z
  | bi_weekly | accelerated_bi_weekly => gap = 14%Z
  end.
Proof.
  destruct frequency; cbv zeta; try (cbn [getDaysForPayment]; lia).
  rewrite !getDaysForPayment_monthly.
  pose proof (Z.div_mod (3044 * (n + 1 - 1) + 50) 100 ltac:(lia)) as H1.
  pose proof (Z.mod_pos_bound (3044 * (n + 1 - 1) + 50) 100 ltac:(lia)) as H2.
  pose proof (Z.div_mod (3044 * (n - 1) + 50) 100 ltac:(lia)) as H3.
  pose proof (Z.mod_pos_bound (3044 * (n - 1) + 50) 100 ltac:(lia)) as H4.
  lia.
Qed.

Lemma balanceBefore_cons (b : Q) (e : PaymentDetail) (l : list PaymentDetail) (i : nat) :
  balanceBefore b (e :: l) (S i) = balanceBefore (pd_balance e) l i.
Proof. reflexivity. Qed.

Lemma sumPayments_split (l : list PaymentDetail) :
  Forall (fun e => pd_payment e == pd_principal e + pd_interest e) l ->
  sumPayments l == sumPrincipal l + sumInterest l.
Proof.
  unfold sumPayments, sumPrincipal, sumInterest.
  induction 1 as [| e l He Hl IH]; cbn [fold_right]; [reflexivity |].
  rewrite IH, He. ring.
Qed.

Lemma totalPayments_sum (l : list PaymentDetail) :
  forall total,
    fold_left (fun sum p => norm (sum + pd_payment p)) l total == total + sumPayments l.
Proof.
  unfold sumPayments.
  induction l as [| e l IH]; intros total; cbn [fold_left fold_right].
  - ring.
  - rewrite IH, norm_eq. ring.
Qed.

(** A ledger whose entries take their principal and extra payment off the
    balance before them splits the starting balance into what was paid and
    what is left. *)
Lemma ledger_conservation (l : list PaymentDetail) :
  forall b,
    (forall i e, nth_error l i = Some e ->
       pd_balance e == balanceBefore b l i - pd_principal e - pd_additionalPayment e) ->
    b == sumPrincipal l + sumAdditional l + lastBalance b l.
Proof.
  unfold sumPrincipal, sumAdditional.
  induction l as [| e l IH]; intros b H; cbn [fold_right].
  - cbn. ring.
  - rewrite lastBalance_cons.
    pose proof (H 0%nat e eq_refl) as H0. cbn in H0.
    assert (Hl : pd_balance e ==
                 fold_right (fun e total => pd_principal e + total) 0 l
                 + fold_right (fun e total => pd_additionalPayment e + total) 0 l
                 + lastBalance (pd_balance e) l).
    { apply IH. intros i x Hx. rewrite <- (balanceBefore_cons b e l i). apply (H (S i)). exact Hx. }
    lra.
Qed.

Section Ledger.

Variable Math_pow : Q -> Q -> Q.

Lemma schedule_entry (params : MortgageParams) (s : AmortizationSchedule)
  (i : nat) (e : PaymentDetail) :
  calculateAmortizationSchedule Math_pow params = Ok s ->
  nth_error (payments s) i = Some e ->
  exists P,
    entryPaid params
      (getPeriodicRate Math_pow (pd_interestRate e) (paymentFrequency params)) P
      (balanceBefore (principal params) (payments s) i) (Z.of_nat i) e /\
    pd_paymentDate e =
      addDays (startDate params)
        (getDaysForPayment (Z.of_nat i + 1) (paymentFrequency params)).
Proof.
  intros Hs He. rewrite (schedule_payments Math_pow params s Hs) in *.
  destruct (entriesInvariant_run Math_pow params) as (_ & _ & Hall).
  apply Hall. exact He.
Qed.

(** X1: the entries of the ledger are numbered 1, 2, 3, ... without a gap,
    whatever the start payments of the periods are; entry [n] is dated
    [getDaysForPayment n] days after the start date, so the first payment
    falls on the start date itself and two payments in a row are 7 days apart
    (weekly), 14 days apart (bi-weekly and accelerated bi-weekly), or 30 or 31
    days apart (monthly). *)
Theorem ledger_numbers_and_dates (params : MortgageParams) (s : AmortizationSchedule) :
  calculateAmortizationSchedule Math_pow params = Ok s ->
  (forall i e, nth_error (payments s) i = Some e ->
     pd_paymentNumber e = (Z.of_nat i + 1)%Z /\
     pd_paymentDate e =
       addDays (startDate params)
         (getDaysForPayment (pd_paymentNumber e) (paymentFrequency params))) /\
  (forall e, nth_error (payments s) 0 = Some e -> pd_paymentDate e = startDate params) /\
  (forall i prev e,
     nth_error (payments s) i = Some prev ->
     nth_error (payments s) (S i) = Some e ->
     let gap := (pd_paymentDate e - pd_paymentDate prev)%Z in
     match paymentFrequency params with
     | monthly => gap = 30%Z \/ gap = 31%Z
     | weekly => gap = 7%Z
     | bi_weekly | accelerated_bi_weekly => gap = 14%Z
     end).
Proof.
  intros Hs.
  assert (Hall : forall i e, nth_error (payments s) i = Some e ->
            pd_paymentNumber e = (Z.of_nat i + 1)%Z /\
            pd_paymentDate e =
              addDays (startDate params)
                (getDaysForPayment (Z.of_nat i + 1) (paymentFrequency params))).
  { intros i e He. destruct (schedule_entry params s i e Hs He) as (P & Hpaid & Hdate).
    split; [apply Hpaid | exact Hdate]. }
  split; [| split].
  - intros i e He. destruct (Hall i e He) as [Hn Hd]. rewrite Hn. split; trivial.
  - intros e He. destruct (Hall 0%nat e He) as [_ Hd]. rewrite Hd.
    unfold addDays. destruct (paymentFrequency params); cbn; lia.
  - intros i prev e Hprev He.
    destruct (Hall i prev Hprev) as [_ Hd1]. destruct (Hall (S i) e He) as [_ Hd2].
    cbv zeta. rewrite Hd1, Hd2. unfold addDays.
    pose proof (getDaysForPayment_gap (Z.of_nat i + 1) (paymentFrequency params)) as Hgap.
    cbv zeta in Hgap. rewrite Nat2Z.inj_succ.
    replace (Z.succ (Z.of_nat i) + 1)%Z with (Z.of_nat i + 1 + 1)%Z by lia.
    destruct (paymentFrequency params); lia.
Qed.

(** X2: every payment is made from a balance above one cent, and its interest
    is that balance (the principal field for the first entry, the balance of
    the entry before for the others) times the periodic rate of the annual rate
    the entry carries. *)
Theorem interest_charged_on_balance_before (params : MortgageParams)
  (s : AmortizationSchedule) :
  calculateAmortizationSchedule Math_pow params = Ok s ->
  (forall i e, nth_error (payments s) i = Some e ->
     0.01 < balanceBefore (principal params) (payments s) i /\
     pd_interest e ==
       balanceBefore (principal params) (payments s) i *
       getPeriodicRate Math_pow (pd_interestRate e) (paymentFrequency params)) /\
  (forall i prev e,
     nth_error (payments s) i = Some prev ->
     nth_error (payments s) (S i) = Some e ->
     0.01 < pd_balance prev /\
     pd_interest e ==
       pd_balance prev *
       getPeriodicRate Math_pow (pd_interestRate e) (paymentFrequency params)).
Proof.
  intros Hs.
  assert (Hall : forall i e, nth_error (payments s) i = Some e ->
     0.01 < balanceBefore (principal params) (payments s) i /\
     pd_interest e ==
       balanceBefore (principal params) (payments s) i *
       getPeriodicRate Math_pow (pd_interestRate e) (paymentFrequency params)).
  { intros i e He. destruct (schedule_entry params s i e Hs He) as (P & Hpaid & _).
    split; apply Hpaid. }
  split; [exact Hall |].
  intros i prev e Hprev He. specialize (Hall (S i) e He).
  assert (Hb : balanceBefore (principal params) (payments s) (S i) = pd_balance prev).
  { unfold balanceBefore. apply nth_error_split in Hprev.
    destruct Hprev as (l1 & l2 & Heq & Hlen). rewrite Heq.
    replace (S i) with (List.length (l1 ++ [prev])) by (rewrite length_app; cbn; lia).
    replace (l1 ++ prev :: l2) with ((l1 ++ [prev]) ++ l2)
      by (rewrite <- app_assoc; reflexivity).
    rewrite firstn_app, firstn_all, Nat.sub_diag. cbn [firstn].
    rewrite app_nil_r. apply lastBalance_snoc. }
  rewrite Hb in Hall. exact Hall.
Qed.

End Ledger.

Section Accounts.

Variable Math_pow : Q -> Q -> Q.

(** X3: the floor at zero of the balance column never acts: every entry's
    balance is the balance before it less the entry's principal portion and
    extra payment, and is not negative.  So the principal field splits into
    the principal portions paid, the extra payments paid and the balance the
    ledger ends on. *)
Theorem ledger_conserves_principal (params : MortgageParams) (s : AmortizationSchedule) :
  calculateAmortizationSchedule Math_pow params = Ok s ->
  (forall i e, nth_error (payments s) i = Some e ->
     pd_balance e ==
       balanceBefore (principal params) (payments s) i
       - pd_principal e - pd_additionalPayment e /\
     0 <= pd_balance e) /\
  principal params ==
    sumPrincipal (payments s) + sumAdditional (payments s)
    + lastBalance (principal params) (payments s).
Proof.
  intros Hs.
  assert (Hall : forall i e, nth_error (payments s) i = Some e ->
     pd_balance e ==
       balanceBefore (principal params) (payments s) i
       - pd_principal e - pd_additionalPayment e /\
     0 <= pd_balance e).
  { intros i e He. destruct (schedule_entry Math_pow params s i e Hs He)
      as (P & (_ & _ & _ & Hp & _ & Ha & Hb) & _).
    split; [exact Hb |].
    set (prev := balanceBefore (principal params) (payments s) i) in *.
    pose proof (Math_min_le_r
                  (getAdditionalPaymentAmount (Z.of_nat i + 1) (additionalPayments params))
                  (prev - pd_principal e)) as Hle.
    lra. }
  split; [exact Hall |].
  apply ledger_conservation. intros i e He. apply Hall. exact He.
Qed.

(** X4: no payment takes more than is owed.  The principal portion of an
    entry is at most the balance before it; the extra payment is at most what
    the rules resolve at the entry's number and at most what the principal
    portion leaves; and an entry that leaves a balance above zero carries the
    resolved extra amount in full. *)
Theorem payments_never_exceed_balance (params : MortgageParams)
  (s : AmortizationSchedule) :
  calculateAmortizationSchedule Math_pow params = Ok s ->
  forall i e, nth_error (payments s) i = Some e ->
    let prev := balanceBefore (principal params) (payments s) i in
    let resolved :=
      getAdditionalPaymentAmount (pd_paymentNumber e) (additionalPayments params) in
    pd_principal e <= prev /\
    pd_additionalPayment e <= resolved /\
    pd_additionalPayment e <= prev - pd_principal e /\
    (0 < pd_balance e -> pd_additionalPayment e == resolved).
Proof.
  intros Hs i e He. cbv zeta.
  destruct (schedule_entry Math_pow params s i e Hs He)
    as (P & (_ & Hn & Hi & Hp & _ & Ha & Hb) & _).
  rewrite Hn.
  set (prev := balanceBefore (principal params) (payments s) i) in *.
  set (resolved := getAdditionalPaymentAmount (Z.of_nat i + 1) (additionalPayments params))
    in *.
  pose proof (Math_min_le_r (P - prev * getPeriodicRate Math_pow (pd_interestRate e)
                                          (paymentFrequency params)) prev) as H1.
  pose proof (Math_min_le_l resolved (prev - pd_principal e)) as H2.
  pose proof (Math_min_le_r resolved (prev - pd_principal e)) as H3.
  split; [lra |]. split; [lra |]. split; [lra |].
  intros Hpos.
  destruct (Math_min_spec resolved (prev - pd_principal e)) as [[_ E] | [_ E]];
    rewrite E in Ha; [exact Ha | lra].
Qed.

(** X5: the totals the schedule reports are the sums of the ledger's columns:
    the total interest, the total of the regular payments (principal portions
    plus interest) and the total of the extra payments; and the summary's
    [totalPaid], the principal field plus the interest, is what the ledger
    pays in regular and extra payments plus the balance it ends on. *)
Theorem schedule_totals_are_ledger_sums (params : MortgageParams)
  (s : AmortizationSchedule) :
  calculateAmortizationSchedule Math_pow params = Ok s ->
  totalInterest s == sumInterest (payments s) /\
  sm_totalInterestPaid (summary s) == sumInterest (payments s) /\
  totalPayments s == sumPrincipal (payments s) + sumInterest (payments s) /\
  sm_totalAdditionalPayments (summary s) == sumAdditional (payments s) /\
  sm_totalPaid (summary s) ==
    totalPayments s + sm_totalAdditionalPayments (summary s)
    + lastBalance (principal params) (payments s).
Proof.
  intros Hs.
  assert (Hcons : principal params ==
            sumPrincipal (payments s) + sumAdditional (payments s)
            + lastBalance (principal params) (payments s)).
  { apply ledger_conservation. intros i e He.
    destruct (schedule_entry Math_pow params s i e Hs He)
      as (P & (_ & _ & _ & _ & _ & _ & Hb) & _). exact Hb. }
  destruct (schedule_ok Math_pow params s Hs) as (d & _ & Hbuild).
  destruct (totals_run Math_pow params) as (Hi & Ha & _).
  destruct (chainInvariant_run Math_pow params) as (Hsplit & _).
  assert (Htp : totalPayments s == sumPrincipal (payments s) + sumInterest (payments s)).
  { rewrite Hbuild. cbn [totalPayments payments buildSchedule].
    rewrite totalPayments_sum, (sumPayments_split _ Hsplit). ring. }
  assert (Hti : totalInterest s == sumInterest (payments s))
    by (rewrite Hbuild; exact Hi).
  assert (Hta : sm_totalAdditionalPayments (summary s) == sumAdditional (payments s))
    by (rewrite Hbuild; exact Ha).
  split; [exact Hti |]. split; [rewrite Hbuild; exact Hi |].
  split; [exact Htp |]. split; [exact Hta |].
  rewrite Htp, Hta.
  assert (E : sm_totalPaid (summary s) == principal params + sumInterest (payments s)).
  { rewrite Hbuild. cbn [sm_totalPaid summary buildSchedule payments].
    rewrite Hi. reflexivity. }
  rewrite E. lra.
Qed.

End Accounts.

(** ** The periods and their windows *)

Lemma insertPeriod_sorted (p : RenewalPeriod) (l : list RenewalPeriod) :
  ascending l -> ascending (insertPeriod p l).
Proof.
  induction l as [| q l IH]; intros H; cbn [insertPeriod].
  - exact I.
  - destruct (rp_startPayment p <=? rp_startPayment q)%Z eqn:E.
    + apply Z.leb_le in E. split; [exact E | exact H].
    + apply Z.leb_gt in E. specialize (IH (ascending_tail _ _ H)).
      destruct l as [| q' l'].
      * cbn [insertPeriod]. split; [lia | exact I].
      * destruct H as [Hqq' H]. cbn [insertPeriod] in *.
        destruct (rp_startPayment p <=? rp_startPayment q')%Z eqn:E'.
        -- split; [lia | exact IH].
        -- split; [exact Hqq' | exact IH].
Qed.

Lemma sortPeriods_sorted (l : list RenewalPeriod) : ascending (sortPeriods l).
Proof.
  unfold sortPeriods. induction l as [| p l IH]; cbn [fold_right].
  - exact I.
  - apply insertPeriod_sorted. exact IH.
Qed.

Lemma ascending_app_head (done : list RenewalPeriod) (term nextTerm : RenewalPeriod)
  (rest : list RenewalPeriod) :
  ascending (done ++ term :: nextTerm :: rest) ->
  (rp_startPayment term <= rp_startPayment nextTerm)%Z.
Proof.
  induction done as [| d done IH]; intros H.
  - destruct H as [H _]. exact H.
  - apply IH. apply (ascending_tail d). exact H.
Qed.

Section Windows.

Variable Math_pow : Q -> Q -> Q.
Variable params : MortgageParams.
Variable total : Z.

Lemma paidWith_nil (r P : Q) (count : Z) (prev : Q) (seg : list PaymentDetail) :
  prev <= 0.01 -> paidWith params r P count prev seg -> seg = [].
Proof.
  intros Hprev. destruct seg as [| e seg]; trivial.
  intros [(Hpos & _) _]. lra.
Qed.

Lemma processTerms_windows (all : list RenewalPeriod) :
  ascending all ->
  forall rest done st,
    all = done ++ rest ->
    match rest with
    | term :: _ => balance st <= 0.01 \/ paymentNumber st = rp_startPayment term
    | [] => True
    end ->
    Forall (inWindow all) (ledger st) ->
    Forall (inWindow all)
      (ledger (processTerms Math_pow params total (Z.of_nat (List.length done)) rest st)).
Proof.
  intros Hasc. induction rest as [| term rest IH]; intros done st Hall Hat Hled;
    cbn [processTerms]; [exact Hled |].
  set (r := getPeriodicRate Math_pow (rp_annualRate term) (paymentFrequency params)).
  set (termEnd := match rest with
                  | nextTerm :: _ => (rp_startPayment nextTerm - 1)%Z
                  | [] => total
                  end).
  set (P := norm (calculatePayment Math_pow (balance st) r
                    (total - paymentNumber st + 1))).
  set (turns := Z.to_nat (termEnd - rp_startPayment term + 1)).
  destruct (generatePayments_spec params term (Z.of_nat (List.length done)) r P turns st)
    as (seg & El & Hlen & En & Hpaid & Hseg & Ebal & Hshort).
  set (st' := generatePayments turns params term (Z.of_nat (List.length done)) r P st) in *.
  assert (Hnth : nth_error all (List.length done) = Some term).
  { rewrite Hall, nth_error_app2, Nat.sub_diag by lia. reflexivity. }
  assert (Hled' : Forall (inWindow all) (ledger st')).
  { rewrite El. apply Forall_app. split; [exact Hled |].
    destruct Hat as [Hidle | Hstart].
    - rewrite (paidWith_nil r P _ _ seg Hidle Hpaid). constructor.
    - apply Forall_forall. intros e He.
      destruct (In_nth_error _ _ He) as (i & Hi).
      pose proof (paidWith_number params r P seg e _ _ i Hi Hpaid) as Hnum.
      assert (Hilt : (i < List.length seg)%nat).
      { apply nth_error_Some. rewrite Hi. discriminate. }
      rewrite Forall_forall in Hseg. destruct (Hseg e He) as [Hrate Hterm].
      exists (List.length done), term.
      split; [exact Hnth |]. split; [exact Hterm |]. split; [exact Hrate |].
      split; [lia |].
      intros nextTerm Hnext.
      rewrite Hall, nth_error_app2 in Hnext by lia.
      replace (S (List.length done) - List.length done)%nat with 1%nat in Hnext by lia.
      destruct rest as [| nextTerm' rest']; [discriminate |].
      cbn in Hnext. injection Hnext as <-.
      subst turns termEnd. lia. }
  destruct (Qltb (balance st') (1 # 100)) eqn:Hdone; [exact Hled' |].
  replace (Z.of_nat (List.length done) + 1)%Z
    with (Z.of_nat (List.length (done ++ [term])))
    by (rewrite length_app; cbn [List.length]; lia).
  apply IH.
  - rewrite Hall, <- app_assoc. reflexivity.
  - destruct rest as [| nextTerm rest']; [exact I |].
    destruct (Nat.lt_ge_cases (List.length seg) turns) as [Hlt | Hge].
    + left. apply Hshort. exact Hlt.
    + destruct Hat as [Hidle | Hstart].
      * left. rewrite Ebal, (paidWith_nil r P _ _ seg Hidle Hpaid). exact Hidle.
      * right. rewrite En.
        assert (Hle : (rp_startPayment term <= rp_startPayment nextTerm)%Z).
        { apply (ascending_app_head done term nextTerm rest'). rewrite <- Hall. exact Hasc. }
        subst turns termEnd. lia.
  - exact Hled'.
Qed.

End Windows.

(** X6: when the earliest period starts at payment 1, every entry belongs to
    the period whose window holds its payment number: the entry's term number
    is the period's place in the order of the start payments, its rate is the
    period's, and its number is at least the period's start payment and below
    the next period's. *)
Theorem entry_is_in_the_window_of_its_period (Math_pow : Q -> Q -> Q)
  (params : MortgageParams) (s : AmortizationSchedule) :
  calculateAmortizationSchedule Math_pow params = Ok s ->
  (forall term, nth_error (sortPeriods (renewalPeriods params)) 0 = Some term ->
                rp_startPayment term = 1%Z) ->
  Forall (inWindow (sortPeriods (renewalPeriods params))) (payments s).
Proof.
  intros Hs Hfirst. rewrite (schedule_payments Math_pow params s Hs).
  unfold runSchedule.
  apply (processTerms_windows Math_pow params _ (sortPeriods (renewalPeriods params))
           (sortPeriods_sorted _) (sortPeriods (renewalPeriods params)) []
           (initialState params)).
  - reflexivity.
  - destruct (sortPeriods (renewalPeriods params)) as [| term rest]; [exact I |].
    right. symmetry. apply (Hfirst term). reflexivity.
  - constructor.
Qed.

Lemma insertPeriod_swap (a b : RenewalPeriod) (l : list RenewalPeriod) :
  rp_startPayment a <> rp_startPayment b ->
  insertPeriod a (insertPeriod b l) = insertPeriod b (insertPeriod a l).
Proof.
  intros Hne. induction l as [| q l IH]; cbn [insertPeriod].
  - destruct (rp_startPayment a <=? rp_startPayment b)%Z eqn:Eab;
      destruct (rp_startPayment b <=? rp_startPayment a)%Z eqn:Eba;
      try reflexivity.
    + apply Z.leb_le in Eab, Eba. lia.
    + apply Z.leb_gt in Eab, Eba. lia.
  - destruct (rp_startPayment b <=? rp_startPayment q)%Z eqn:Ebq;
      destruct (rp_startPayment a <=? rp_startPayment q)%Z eqn:Eaq;
      cbn [insertPeriod];
      destruct (rp_startPayment a <=? rp_startPayment b)%Z eqn:Eab;
      destruct (rp_startPayment b <=? rp_startPayment a)%Z eqn:Eba;
      rewrite ?Ebq, ?Eaq; try reflexivity;
      try (apply Z.leb_le in Eab, Eba; lia);
      try (apply Z.leb_gt in Eab, Eba; lia);
      try (rewrite IH; reflexivity);
      repeat match goal with
             | H : (_ <=? _)%Z = true |- _ => apply Z.leb_le in H
             | H : (_ <=? _)%Z = false |- _ => apply Z.leb_gt in H
             end; lia.
Qed.

Lemma sortPeriods_permutation (l l' : list RenewalPeriod) :
  Permutation l l' ->
  NoDup (map rp_startPayment l) ->
  sortPeriods l = sortPeriods l'.
Proof.
  unfold sortPeriods.
  induction 1 as [| x l l' Hperm IH | x y l | l l' l'' H1 IH1 H2 IH2]; intros Hnodup;
    cbn [fold_right].
  - reflexivity.
  - rewrite IH; [reflexivity |]. cbn [map] in Hnodup. inversion Hnodup. assumption.
  - apply insertPeriod_swap. cbn [map] in Hnodup. inversion Hnodup as [| ? ? Hnotin _].
    intros Heq. apply Hnotin. left. symmetry. exact Heq.
  - rewrite IH1 by exact Hnodup. apply IH2.
    apply (Permutation_NoDup (Permutation_map rp_startPayment H1)). exact Hnodup.
Qed.

Section Periods.

Variable Math_pow : Q -> Q -> Q.
Variable params : MortgageParams.
Variable periods : list RenewalPeriod.

Local Abbreviation listed := (withPeriods periods params).

Lemma generatePayments_withPeriods (term : RenewalPeriod) (termIndex : Z) (r P : Q)
  (turns : nat) :
  forall st,
    generatePayments turns listed term termIndex r P st
    = generatePayments turns params term termIndex r P st.
Proof.
  induction turns as [| turns IH]; intros st; cbn [generatePayments]; trivial.
  change (makePayment listed term termIndex r P st)
    with (makePayment params term termIndex r P st).
  rewrite IH. reflexivity.
Qed.

Lemma processTerms_withPeriods (total : Z) (sorted : list RenewalPeriod) :
  forall termIndex st,
    processTerms Math_pow listed total termIndex sorted st
    = processTerms Math_pow params total termIndex sorted st.
Proof.
  induction sorted as [| term rest IH]; intros termIndex st; cbn [processTerms]; trivial.
  change (paymentFrequency listed) with (paymentFrequency params).
  rewrite generatePayments_withPeriods, IH. reflexivity.
Qed.

End Periods.

(** X7: the engine puts the renewal periods in the order of their start
    payments itself: listed in any other order, periods with distinct start
    payments give the same result, schedule or error. *)
Theorem order_of_periods_is_irrelevant (Math_pow : Q -> Q -> Q)
  (params : MortgageParams) (periods : list RenewalPeriod) :
  Permutation (renewalPeriods params) periods ->
  NoDup (map rp_startPayment (renewalPeriods params)) ->
  calculateAmortizationSchedule Math_pow (withPeriods periods params)
  = calculateAmortizationSchedule Math_pow params.
Proof.
  intros Hperm Hnodup.
  unfold calculateAmortizationSchedule, buildSchedule, runSchedule, interestWithoutAdditional.
  cbn [renewalPeriods purchasePrice downPaymentPercent additionalFinancing cmhcPstRate
       amortizationYears paymentFrequency principal prepaymentLimits withPeriods].
  rewrite <- (Permutation_length Hperm).
  rewrite <- (sortPeriods_permutation _ _ Hperm Hnodup).
  rewrite processTerms_withPeriods. reflexivity.
Qed.

(** ** What the limits do *)

Lemma checkPrepaymentLimits_counts (limits : option PrepaymentLimits)
  (principal : Q) (start date : Date) (extra lumpSum : Q) (identifier : string)
  (violations : Z) :
  let '(flag, (_, _, violations')) :=
    checkPrepaymentLimits limits principal start date extra lumpSum identifier violations in
  violations' = (violations + if flag then 1 else 0)%Z /\
  (flag = true -> 0 < extra /\ limits <> None).
Proof.
  unfold checkPrepaymentLimits. destruct limits as [l |].
  - destruct (Qltb 0 extra) eqn:E.
    + apply Qltb_lt in E.
      destruct (negb (String.eqb _ _)); cbv zeta;
        destruct (Qltb _ _); (split; [lia |]); intros H; try discriminate;
        (split; [exact E | discriminate]).
    + split; [lia | discriminate].
  - split; [lia | discriminate].
Qed.

Lemma countFlagged_snoc (l : list PaymentDetail) (e : PaymentDetail) :
  countFlagged (l ++ [e]) = (countFlagged l + if flagged e then 1 else 0)%Z.
Proof.
  unfold countFlagged. rewrite filter_app, length_app. cbn [filter].
  destruct (flagged e); cbn [List.length]; lia.
Qed.

Section Violations.

Variable Math_pow : Q -> Q -> Q.

Lemma violations_run (params : MortgageParams) :
  let st := runSchedule Math_pow params in
  prepaymentLimitViolations st = countFlagged (ledger st) /\
  Forall (fun e => flagged e = true ->
                   0 < pd_additionalPayment e /\ prepaymentLimits params <> None)
    (ledger st).
Proof.
  apply (runSchedule_invariant Math_pow
           (fun st => prepaymentLimitViolations st = countFlagged (ledger st) /\
                      Forall (fun e => flagged e = true ->
                                0 < pd_additionalPayment e /\
                                prepaymentLimits params <> None) (ledger st))).
  - split; [reflexivity | constructor].
  - intros term termIndex P st [Hcount Hall] _.
    set (r := getPeriodicRate Math_pow (rp_annualRate term) (paymentFrequency params)).
    destruct (makePayment_tracking params term termIndex r P st) as (e & El & Echeck & _).
    pose proof (checkPrepaymentLimits_counts (prepaymentLimits params) (principal params)
                  (startDate params) (pd_paymentDate e) (pd_additionalPayment e)
                  (currentPeriodLumpSum st) (currentPeriodIdentifier st)
                  (prepaymentLimitViolations st)) as Hc.
    rewrite Echeck in Hc. fold (flagged e) in Hc. destruct Hc as [Hv Hf].
    rewrite El, countFlagged_snoc, Hv, Hcount. split; [reflexivity |].
    apply Forall_app. split; [exact Hall |]. constructor; [exact Hf | constructor].
Qed.

(** X9: with limits set, the number of violations the summary reports is the
    number of entries of the ledger that are flagged, and without limits the
    summary reports none.  A flagged entry always carries an extra payment
    above zero. *)
Theorem violations_are_the_flagged_entries (params : MortgageParams)
  (s : AmortizationSchedule) :
  calculateAmortizationSchedule Math_pow params = Ok s ->
  sm_prepaymentLimitViolations (summary s) =
    match prepaymentLimits params with
    | Some _ => Some (countFlagged (payments s))
    | None => None
    end /\
  (forall e, In e (payments s) -> flagged e = true -> 0 < pd_additionalPayment e).
Proof.
  intros Hs. destruct (schedule_ok Math_pow params s Hs) as (d & _ & ->).
  cbn [payments summary buildSchedule sm_prepaymentLimitViolations].
  destruct (violations_run params) as [Hcount Hall]. rewrite Hcount.
  rewrite Forall_forall in Hall.
  split; [reflexivity |].
  intros e He Hf. apply (Hall e He Hf).
Qed.

End Violations.

Section Frequency.

Variable Math_pow : Q -> Q -> Q.
Variable params : MortgageParams.

Local Abbreviation accelerated := (withFrequency accelerated_bi_weekly params).
Local Abbreviation plain := (withFrequency bi_weekly params).

Lemma makePayment_accelerated (term : RenewalPeriod) (termIndex : Z) (r P : Q)
  (st : LoopState) :
  makePayment accelerated term termIndex r P st = makePayment plain term termIndex r P st.
Proof. reflexivity. Qed.

Lemma generatePayments_accelerated (term : RenewalPeriod) (termIndex : Z) (r P : Q)
  (turns : nat) :
  forall st,
    generatePayments turns accelerated term termIndex r P st
    = generatePayments turns plain term termIndex r P st.
Proof.
  induction turns as [| turns IH]; intros st; cbn [generatePayments]; trivial.
  rewrite makePayment_accelerated, IH. reflexivity.
Qed.

Lemma processTerms_accelerated (total : Z) (periods : list RenewalPeriod) :
  forall termIndex st,
    processTerms Math_pow accelerated total termIndex periods st
    = processTerms Math_pow plain total termIndex periods st.
Proof.
  induction periods as [| term rest IH]; intros termIndex st; cbn [processTerms]; trivial.
  change (paymentFrequency accelerated) with accelerated_bi_weekly.
  change (paymentFrequency plain) with bi_weekly.
  change (getPeriodicRate Math_pow (rp_annualRate term) accelerated_bi_weekly)
    with (getPeriodicRate Math_pow (rp_annualRate term) bi_weekly).
  rewrite generatePayments_accelerated, IH. reflexivity.
Qed.

Lemma runSchedule_accelerated :
  runSchedule Math_pow accelerated = runSchedule Math_pow plain.
Proof. unfold runSchedule. apply processTerms_accelerated. Qed.

Lemma shadowTerms_accelerated (total : Z) (periods : list RenewalPeriod) :
  forall st,
    shadowTerms Math_pow accelerated_bi_weekly total periods st
    = shadowTerms Math_pow bi_weekly total periods st.
Proof.
  induction periods as [| term rest IH]; intros st; cbn [shadowTerms]; trivial.
  change (getPeriodicRate Math_pow (rp_annualRate term) accelerated_bi_weekly)
    with (getPeriodicRate Math_pow (rp_annualRate term) bi_weekly).
  rewrite IH. reflexivity.
Qed.

Lemma interestWithoutAdditional_accelerated :
  interestWithoutAdditional Math_pow accelerated = interestWithoutAdditional Math_pow plain.
Proof. unfold interestWithoutAdditional. apply f_equal, shadowTerms_accelerated. Qed.

Lemma buildSchedule_accelerated (d : InsuranceDetails) :
  buildSchedule Math_pow plain d
  = reportFrequency bi_weekly (buildSchedule Math_pow accelerated d).
Proof.
  unfold buildSchedule, reportFrequency.
  rewrite runSchedule_accelerated, interestWithoutAdditional_accelerated. reflexivity.
Qed.

End Frequency.

(** X10: the accelerated bi-weekly frequency is the bi-weekly one under another
    name: the engine gives both 26 payments a year, the same periodic rate,
    the same level payment and the same dates, so the two schedules are the
    same but for the frequency the summary names. *)
Theorem accelerated_bi_weekly_is_bi_weekly (Math_pow : Q -> Q -> Q)
  (params : MortgageParams) (s : AmortizationSchedule) :
  calculateAmortizationSchedule Math_pow (withFrequency accelerated_bi_weekly params) = Ok s ->
  calculateAmortizationSchedule Math_pow (withFrequency bi_weekly params)
  = Ok (reportFrequency bi_weekly s).
Proof.
  intros Hs. destruct (schedule_ok Math_pow _ s Hs) as (d & Hd & ->).
  unfold calculateAmortizationSchedule in *.
  cbn [renewalPeriods purchasePrice downPaymentPercent additionalFinancing cmhcPstRate
       withFrequency] in *.
  destruct (List.length (renewalPeriods params) =? 0)%nat; [discriminate |].
  rewrite Hd. cbn [bind]. rewrite buildSchedule_accelerated. reflexivity.
Qed.

Section Limits.

Variable Math_pow : Q -> Q -> Q.
Variable params : MortgageParams.
Variable limits : option PrepaymentLimits.

Local Abbreviation tracked := (withLimits limits params).
Local Abbreviation free := (withLimits None params).

Lemma makePayment_untracked (term : RenewalPeriod) (termIndex : Z) (r P : Q)
  (st : LoopState) :
  makePayment free term termIndex r P (untracked st)
  = untracked (makePayment tracked term termIndex r P st).
Proof.
  unfold makePayment.
  destruct (checkPrepaymentLimits (prepaymentLimits tracked) _ _ _ _ _ _ _)
    as [flag [[lumpSum identifier] violations]].
  unfold untracked.
  cbn [balance totalInterestPaid totalAdditionalPayments paymentNumber ledger
       prepaymentLimitViolations currentPeriodLumpSum currentPeriodIdentifier
       prepaymentLimits additionalPayments paymentFrequency startDate principal
       withLimits checkPrepaymentLimits].
  rewrite map_app. reflexivity.
Qed.

Lemma generatePayments_untracked (term : RenewalPeriod) (termIndex : Z) (r P : Q)
  (turns : nat) :
  forall st,
    generatePayments turns free term termIndex r P (untracked st)
    = untracked (generatePayments turns tracked term termIndex r P st).
Proof.
  induction turns as [| turns IH]; intros st; cbn [generatePayments]; trivial.
  rewrite makePayment_untracked.
  change (balance (untracked st)) with (balance st).
  change (balance (untracked (makePayment tracked term termIndex r P st)))
    with (balance (makePayment tracked term termIndex r P st)).
  destruct (Qltb (1 # 100) (balance st)); [| reflexivity].
  destruct (Qltb _ (1 # 100)); [reflexivity | apply IH].
Qed.

Lemma processTerms_untracked (total : Z) (periods : list RenewalPeriod) :
  forall termIndex st,
    processTerms Math_pow free total termIndex periods (untracked st)
    = untracked (processTerms Math_pow tracked total termIndex periods st).
Proof.
  induction periods as [| term rest IH]; intros termIndex st; cbn [processTerms]; trivial.
  change (paymentFrequency free) with (paymentFrequency params).
  change (paymentFrequency tracked) with (paymentFrequency params).
  change (balance (untracked st)) with (balance st).
  change (paymentNumber (untracked st)) with (paymentNumber st).
  rewrite generatePayments_untracked.
  match goal with
  | |- context [untracked (generatePayments ?n tracked term termIndex ?r ?P st)] =>
      change (balance (untracked (generatePayments n tracked term termIndex r P st)))
        with (balance (generatePayments n tracked term termIndex r P st));
      destruct (Qltb (balance (generatePayments n tracked term termIndex r P st)) (1 # 100))
  end; [reflexivity | apply IH].
Qed.

Lemma runSchedule_untracked :
  runSchedule Math_pow free = untracked (runSchedule Math_pow tracked).
Proof.
  unfold runSchedule.
  change (initialState free) with (untracked (initialState tracked)).
  apply processTerms_untracked.
Qed.

Lemma totalPayments_untracked (l : list PaymentDetail) :
  forall total,
    fold_left (fun sum p => norm (sum + pd_payment p)) (map withoutFlag l) total
    = fold_left (fun sum p => norm (sum + pd_payment p)) l total.
Proof.
  induction l as [| e l IH]; intros total; cbn [map fold_left]; [reflexivity |].
  apply IH.
Qed.

Lemma buildSchedule_untracked (d : InsuranceDetails) :
  buildSchedule Math_pow free d = withoutFlags (buildSchedule Math_pow tracked d).
Proof.
  unfold buildSchedule, withoutFlags. rewrite runSchedule_untracked.
  cbn [payments totalInterest totalPrincipal totalPayments summary
       balance totalInterestPaid totalAdditionalPayments ledger untracked
       sm_purchasePrice sm_downPayment sm_downPaymentPercent sm_mortgageAmount
       sm_cmhcInsurance sm_cmhcPremiumRate sm_cmhcPst sm_cmhcPstRate
       sm_additionalFinancing sm_originalPrincipal sm_totalInterestPaid sm_totalPaid
       sm_totalAdditionalPayments sm_interestSaved sm_timeSaved sm_amortizationYears
       sm_actualPayoffMonths sm_paymentFrequency sm_prepaymentLimitViolations].
  rewrite length_map, totalPayments_untracked. reflexivity.
Qed.

End Limits.

(** X11: the prepayment limits only flag.  The schedule computed under limits
    is, once the flags and the count of violations are taken off, the schedule
    computed without limits: no amount, date, balance or total depends on
    them. *)
Theorem limits_only_flag (Math_pow : Q -> Q -> Q) (params : MortgageParams)
  (limits : option PrepaymentLimits) (s : AmortizationSchedule) :
  calculateAmortizationSchedule Math_pow (withLimits limits params) = Ok s ->
  calculateAmortizationSchedule Math_pow (withLimits None params) = Ok (withoutFlags s).
Proof.
  intros Hs. destruct (schedule_ok Math_pow _ s Hs) as (d & Hd & ->).
  unfold calculateAmortizationSchedule in *.
  cbn [renewalPeriods purchasePrice downPaymentPercent additionalFinancing cmhcPstRate
       withLimits] in *.
  destruct (List.length (renewalPeriods params) =? 0)%nat; [discriminate |].
  rewrite Hd. cbn [bind]. rewrite (buildSchedule_untracked Math_pow params limits d).
  reflexivity.
Qed.

Lemma Z_to_int_not_nil (z : Z) :
  Z.to_int z <> Decimal.Pos Decimal.Nil /\ Z.to_int z <> Decimal.Neg Decimal.Nil.
Proof.
  destruct z as [| p | p]; cbn; split; try discriminate.
  - intros H. injection H as H. revert H. apply DecimalPos.Unsigned.to_uint_nonnil.
  - intros H. injection H as H. revert H. apply DecimalPos.Unsigned.to_uint_nonnil.
Qed.

Lemma Z_toString_inj (a b : Z) : Z_toString a = Z_toString b -> a = b.
Proof.
  unfold Z_toString. intros H. apply DecimalZ.to_int_inj.
  destruct (Z_to_int_not_nil a) as [Ha1 Ha2]. destruct (Z_to_int_not_nil b) as [Hb1 Hb2].
  pose proof (NilZero.isi (Z.to_int a) Ha1 Ha2) as Ea.
  pose proof (NilZero.isi (Z.to_int b) Hb1 Hb2) as Eb.
  rewrite H in Ea. rewrite Ea in Eb. injection Eb. trivial.
Qed.

Lemma append_inj_l (p a b : string) : (p ++ a)%string = (p ++ b)%string -> a = b.
Proof.
  induction p as [| c p IH]; cbn [append]; [trivial |].
  intros H. injection H as H. apply IH. exact H.
Qed.

(** X12: the key of a limit period names the period and nothing else.  With
    the calendar reset two dates have the same key exactly when they are in
    the same year; with the anniversary reset, exactly when the same number of
    whole years of months lies between the start's month and theirs.  No
    calendar key is an anniversary key, and no key is the empty text the
    tracker starts from. *)
Theorem period_keys_name_the_period (date date' start : Date) :
  (getPeriodIdentifier date start calendar = getPeriodIdentifier date' start calendar
   <-> getFullYear date = getFullYear date') /\
  (getPeriodIdentifier date start anniversary = getPeriodIdentifier date' start anniversary
   <-> (((getFullYear date - getFullYear start) * 12
         + (getMonth date - getMonth start)) / 12
        = ((getFullYear date' - getFullYear start) * 12
           + (getMonth date' - getMonth start)) / 12)%Z) /\
  getPeriodIdentifier date start calendar <> getPeriodIdentifier date' start anniversary /\
  (forall resetPeriod, getPeriodIdentifier date start resetPeriod <> ""%string).
Proof.
  split; [| split; [| split]].
  - cbn [getPeriodIdentifier]. split; [apply Z_toString_inj | intros ->; reflexivity].
  - rewrite !getPeriodIdentifier_anniversary. split.
    + intros H. apply append_inj_l in H. apply Z_toString_inj. exact H.
    + intros ->. reflexivity.
  - rewrite getPeriodIdentifier_anniversary. cbn [getPeriodIdentifier].
    unfold Z_toString. intros H.
    destruct (Z.to_int (getFullYear date)) as [u | u]; cbn in H.
    + destruct u; discriminate.
    + discriminate.
  - intros []; [| rewrite getPeriodIdentifier_anniversary; discriminate].
    cbn [getPeriodIdentifier]. unfold Z_toString.
    destruct (Z.to_int (getFullYear date)) as [u | u]; cbn.
    + destruct u; discriminate.
    + discriminate.
Qed.

(** ** The payment slots of the periods *)

(** Periods in ascending order that start at payment [total + 1] at the
    latest have the slots from the first start payment to [total]. *)
Lemma paymentSlots_ascending (total : Z) (periods : list RenewalPeriod) :
  ascending periods ->
  Forall (fun term => (rp_startPayment term <= total + 1)%Z) periods ->
  paymentSlots total periods =
    match periods with
    | first :: _ => (total - rp_startPayment first + 1)%Z
    | [] => 0%Z
    end.
Proof.
  induction periods as [| term rest IH]; intros Hasc Hall; [reflexivity |].
  inversion Hall as [| ? ? Hterm Hrest]; subst.
  cbn [paymentSlots]. rewrite (IH (ascending_tail _ _ Hasc) Hrest).
  destruct rest as [| nextTerm rest']; [lia |].
  destruct Hasc as [Hle _]. lia.
Qed.

Lemma Forall_sorted_first (A : RenewalPeriod -> Prop) (periods : list RenewalPeriod)
  (first : RenewalPeriod) :
  Forall A periods -> nth_error (sortPeriods periods) 0 = Some first -> A first.
Proof.
  intros Hall Hfirst. apply (Forall_sortPeriods A) in Hall.
  destruct (sortPeriods periods) as [| term rest]; [discriminate |].
  injection Hfirst as <-. inversion Hall; assumption.
Qed.

Lemma balanceBefore_S (b : Q) (l : list PaymentDetail) (i : nat) (prev : PaymentDetail) :
  nth_error l i = Some prev -> balanceBefore b l (S i) = pd_balance prev.
Proof.
  intros Hprev. unfold balanceBefore. apply nth_error_split in Hprev.
  destruct Hprev as (l1 & l2 & Heq & Hlen). rewrite Heq.
  replace (S i) with (List.length (l1 ++ [prev])) by (rewrite length_app; cbn; lia).
  replace (l1 ++ prev :: l2) with ((l1 ++ [prev]) ++ l2)
    by (rewrite <- app_assoc; reflexivity).
  rewrite firstn_app, firstn_all, Nat.sub_diag. cbn [firstn].
  rewrite app_nil_r. apply lastBalance_snoc.
Qed.

Section Slots.

Variable Math_pow : Q -> Q -> Q.
Variable params : MortgageParams.

(** The segments of a run fill at most the slots of the periods; when a slot
    is left, the balance is down to one cent; and nothing is paid from a
    balance of one cent or less. *)
Lemma termsSized_slots (total : Z) (periods : list RenewalPeriod) :
  forall (segs : list (list PaymentDetail)) (count : Z) (prev : Q),
    termsSized Math_pow params total count prev periods segs ->
    (Z.of_nat (List.length (List.concat segs)) <= paymentSlots total periods)%Z /\
    ((Z.of_nat (List.length (List.concat segs)) < paymentSlots total periods)%Z ->
     lastBalance prev (List.concat segs) <= 0.01) /\
    (prev <= 0.01 -> List.concat segs = []).
Proof.
  induction periods as [| term rest IH]; intros [| seg segs'] count prev H;
    cbn [termsSized] in H; try contradiction.
  - cbn. split; [lia |]. split; [lia | reflexivity].
  - destruct H as (Hpaid & Hlen & Hshort & _ & Hrest).
    destruct (IH _ _ _ Hrest) as (IHlen & IHshort & IHidle).
    cbn [List.concat paymentSlots]. rewrite length_app, Nat2Z.inj_add, lastBalance_app.
    split; [lia |]. split.
    + intros Hlt.
      destruct (Z.lt_ge_cases (Z.of_nat (List.length seg))
                  (Z.max 0 (match rest with
                            | nextTerm :: _ => rp_startPayment nextTerm - 1
                            | [] => total
                            end - rp_startPayment term + 1))) as [Hseg | Hseg].
      * assert (Hdown : lastBalance prev seg <= 0.01) by (apply Hshort; lia).
        rewrite (IHidle Hdown). exact Hdown.
      * apply IHshort. lia.
    + intros Hprev.
      rewrite (paidWith_nil params _ _ _ _ _ Hprev Hpaid) in *.
      cbn [app]. apply IHidle. exact Hprev.
Qed.

Lemma ledger_slots :
  let total := getPaymentCount (amortizationYears params) (paymentFrequency params) in
  let slots := paymentSlots total (sortPeriods (renewalPeriods params)) in
  (Z.of_nat (List.length (ledger (runSchedule Math_pow params))) <= slots)%Z /\
  ((Z.of_nat (List.length (ledger (runSchedule Math_pow params))) < slots)%Z ->
   lastBalance (principal params) (ledger (runSchedule Math_pow params)) <= 0.01).
Proof.
  intros total slots.
  destruct (runSchedule_segments Math_pow params) as (segs & -> & Hsized).
  destruct (termsSized_slots _ _ _ _ _ Hsized) as (Hlen & Hshort & _).
  split; assumption.
Qed.

(** With every start payment from 1 to [total + 1], the slots are those from
    the earliest start payment to [total]. *)
Lemma ledger_slots_within (first : RenewalPeriod) :
  let total := getPaymentCount (amortizationYears params) (paymentFrequency params) in
  Forall (fun term => (1 <= rp_startPayment term <= total + 1)%Z) (renewalPeriods params) ->
  nth_error (sortPeriods (renewalPeriods params)) 0 = Some first ->
  paymentSlots total (sortPeriods (renewalPeriods params))
  = (total - rp_startPayment first + 1)%Z /\
  (1 <= rp_startPayment first)%Z.
Proof.
  intros total Hall Hfirst.
  pose proof (Forall_sorted_first _ _ _ Hall Hfirst) as Hbounds. cbv beta in Hbounds.
  split; [| lia].
  rewrite (paymentSlots_ascending total _ (sortPeriods_sorted _)).
  - destruct (sortPeriods (renewalPeriods params)) as [| term rest]; [discriminate |].
    injection Hfirst as <-. reflexivity.
  - apply Forall_sortPeriods.
    apply (Forall_impl _ (fun term H => proj2 H) Hall).
Qed.

End Slots.

(** ** The time saved *)

Lemma Math_round_inject_Z (x : Q) (z : Z) : x == inject_Z z -> Math_round x = z.
Proof.
  intros H. unfold Math_round. rewrite H.
  unfold Qfloor, Qplus, inject_Z. cbn [Qnum Qden Pos.mul].
  pose proof (Z.div_mod (z * 2 + 1 * 1) 2 ltac:(lia)) as Hd.
  pose proof (Z.mod_pos_bound (z * 2 + 1 * 1) 2 ltac:(lia)) as Hm.
  change (Z.pos (1 * 2)) with 2%Z. lia.
Qed.

Lemma Math_round_le (x : Q) (z : Z) : x <= inject_Z z -> (Math_round x <= z)%Z.
Proof.
  intros H. rewrite <- (Math_round_inject_Z (inject_Z z) z (Qeq_refl _)).
  unfold Math_round. apply Qfloor_resp_le. lra.
Qed.

Lemma getPaymentCount_whole_years (years : Q) (n : Z) (frequency : PaymentFrequency) :
  years == inject_Z n ->
  getPaymentCount years frequency = (n * getPaymentsPerYear frequency)%Z.
Proof.
  intros H. unfold getPaymentCount. apply Math_round_inject_Z.
  rewrite H, inject_Z_mult. reflexivity.
Qed.

Section TimeSaved.

Variable Math_pow : Q -> Q -> Q.

Lemma ledger_length_within (params : MortgageParams) :
  let total := getPaymentCount (amortizationYears params) (paymentFrequency params) in
  Forall (fun term => (1 <= rp_startPayment term <= total + 1)%Z) (renewalPeriods params) ->
  (0 <= total)%Z ->
  (Z.of_nat (List.length (ledger (runSchedule Math_pow params))) <= total)%Z.
Proof.
  intros total Hall Htotal.
  destruct (ledger_slots Math_pow params) as (Hlen & _). cbv zeta in Hlen. fold total in Hlen.
  destruct (sortPeriods (renewalPeriods params)) as [| first rest] eqn:Esorted.
  - cbn [paymentSlots] in Hlen. lia.
  - destruct (ledger_slots_within params first Hall) as (Hslots & Hstart).
    { rewrite Esorted. reflexivity. }
    cbv zeta in Hslots. fold total in Hslots. rewrite Esorted in Hslots.
    rewrite Hslots in Hlen. lia.
Qed.

(** X13: for an amortization of a whole number of years, [N] payments in all,
    whose renewal periods all start at a payment from 1 to [N + 1]: [N] is the
    years times the payments of a year, the months to pay off are at most the
    nominal [12 * years], and the time saved is a whole number of months that
    is not negative; it is 0 when the ledger has every nominal payment. *)
Theorem time_saved_is_not_negative (params : MortgageParams) (s : AmortizationSchedule)
  (years : Z) :
  calculateAmortizationSchedule Math_pow params = Ok s ->
  amortizationYears params == inject_Z years ->
  (1 <= years)%Z ->
  let total := getPaymentCount (amortizationYears params) (paymentFrequency params) in
  Forall (fun term => (1 <= rp_startPayment term <= total + 1)%Z) (renewalPeriods params) ->
  total = (years * getPaymentsPerYear (paymentFrequency params))%Z /\
  (sm_actualPayoffMonths (summary s) <= 12 * years)%Z /\
  sm_timeSaved (summary s) == inject_Z (12 * years - sm_actualPayoffMonths (summary s)) /\
  0 <= sm_timeSaved (summary s) /\
  (Z.of_nat (List.length (payments s)) = total -> sm_timeSaved (summary s) == 0).
Proof.
  intros Hs Hyears Hpos total Hstarts.
  assert (Htotal : total = (years * getPaymentsPerYear (paymentFrequency params))%Z)
    by (apply getPaymentCount_whole_years; exact Hyears).
  assert (Hppy : (1 <= getPaymentsPerYear (paymentFrequency params))%Z)
    by (destruct (paymentFrequency params); cbn; lia).
  pose proof (ledger_length_within params Hstarts ltac:(fold total; nia)) as Hlen.
  fold total in Hlen.
  destruct (savings_formulas Math_pow params s Hs) as (Hmonths & Htime & _).
  rewrite (schedule_payments Math_pow params s Hs) in *.
  set (len := Z.of_nat (List.length (ledger (runSchedule Math_pow params)))) in *.
  assert (Hx : inject_Z len / inject_Z (getPaymentsPerYear (paymentFrequency params)) * 12
               <= inject_Z (12 * years)).
  { assert (Hq : inject_Z len
                 <= inject_Z years * inject_Z (getPaymentsPerYear (paymentFrequency params))).
    { rewrite <- inject_Z_mult, <- Zle_Qle. lia. }
    rewrite inject_Z_mult.
    destruct (paymentFrequency params); cbn [getPaymentsPerYear] in *;
      unfold Qdiv;
      [change (/ inject_Z 12) with (1 # 12) | change (/ inject_Z 26) with (1 # 26)
       | change (/ inject_Z 52) with (1 # 52) | change (/ inject_Z 26) with (1 # 26)];
      change (inject_Z 12) with 12 in *; change (inject_Z 26) with 26 in *;
      change (inject_Z 52) with 52 in *; lra. }
  assert (Hm : (sm_actualPayoffMonths (summary s) <= 12 * years)%Z).
  { rewrite Hmonths. apply Math_round_le. exact Hx. }
  assert (Ht : sm_timeSaved (summary s)
               == inject_Z (12 * years - sm_actualPayoffMonths (summary s))).
  { rewrite Htime, Hyears. unfold Zminus. rewrite inject_Z_plus, inject_Z_opp, inject_Z_mult.
    change (inject_Z 12) with 12. ring. }
  split; [exact Htotal |]. split; [exact Hm |]. split; [exact Ht |]. split.
  - rewrite Ht. change 0 with (inject_Z 0). rewrite <- Zle_Qle. lia.
  - intros Hfull. rewrite Ht.
    assert (Hround : sm_actualPayoffMonths (summary s) = (12 * years)%Z).
    { rewrite Hmonths. apply Math_round_inject_Z.
      rewrite Hfull, Htotal, !inject_Z_mult.
      destruct (paymentFrequency params); cbn [getPaymentsPerYear];
        change (inject_Z 12) with 12; change (inject_Z 26) with 26;
        change (inject_Z 52) with 52; field. }
    rewrite Hround, Z.sub_diag. reflexivity.
Qed.

End TimeSaved.

(** ** The resolver and the insurance calculator again *)

Lemma getAdditionalPaymentStep_shift (index : Z) (total : Q) (rule : AdditionalPayment) :
  getAdditionalPaymentStep index total rule
  == total + getAdditionalPaymentStep index 0 rule.
Proof.
  unfold getAdditionalPaymentStep.
  destruct (ap_enabled rule) as [[|] |];
    try (destruct (index <? ap_startPayment rule)%Z);
    try (destruct (match ap_endPayment rule with
                   | Some endPayment => negb (endPayment =? 0)%Z && (index >? endPayment)%Z
                   | None => false
                   end));
    try (destruct (ap_type rule));
    try (destruct (index =? ap_startPayment rule)%Z);
    try (destruct (Z.rem _ _ =? 0)%Z);
    ring.
Qed.

Lemma getAdditionalPaymentAmount_fold (index : Z) (rules : list AdditionalPayment) :
  forall total,
    fold_left (getAdditionalPaymentStep index) rules total
    == total + getAdditionalPaymentAmount index rules.
Proof.
  unfold getAdditionalPaymentAmount.
  induction rules as [| rule rules IH]; intros total; cbn [fold_left].
  - ring.
  - rewrite IH, (IH (getAdditionalPaymentStep index 0 rule)),
      getAdditionalPaymentStep_shift. ring.
Qed.

Lemma getAdditionalPaymentAmount_cons (index : Z) (rule : AdditionalPayment)
  (rules : list AdditionalPayment) :
  getAdditionalPaymentAmount index (rule :: rules)
  == getAdditionalPaymentAmount index [rule] + getAdditionalPaymentAmount index rules.
Proof.
  unfold getAdditionalPaymentAmount at 1. cbn [fold_left].
  rewrite getAdditionalPaymentAmount_fold. reflexivity.
Qed.

Lemma getAdditionalPaymentAmount_one (index : Z) (rule : AdditionalPayment) :
  (getAdditionalPaymentAmount index [rule] == 0 \/
   getAdditionalPaymentAmount index [rule] == ap_amount rule) /\
  ((index < ap_startPayment rule)%Z -> getAdditionalPaymentAmount index [rule] == 0).
Proof.
  unfold getAdditionalPaymentAmount. cbn [fold_left]. split.
  - destruct (getAdditionalPaymentStep_cases index 0 rule) as [-> | ->];
      [left; reflexivity | right; ring].
  - intros Hlt. unfold getAdditionalPaymentStep.
    apply Z.ltb_lt in Hlt. rewrite Hlt. destruct (ap_enabled rule) as [[|] |]; reflexivity.
Qed.

(** X14: the amount the rules resolve at a payment is the sum of what each rule
    resolves alone: the amount of two lists put together is the sum of their
    amounts, the order of the rules does not matter, nothing is resolved before
    the first start payment, and with amounts that are not negative the amount
    is between 0 and the sum of all the rules' amounts. *)
Theorem resolved_amount_is_additive :
  (forall index rules rules',
      getAdditionalPaymentAmount index (rules ++ rules')
      == getAdditionalPaymentAmount index rules
         + getAdditionalPaymentAmount index rules') /\
  (forall index rules rules',
      Permutation rules rules' ->
      getAdditionalPaymentAmount index rules == getAdditionalPaymentAmount index rules') /\
  (forall index rules,
      Forall (fun rule => (index < ap_startPayment rule)%Z) rules ->
      getAdditionalPaymentAmount index rules == 0) /\
  (forall index rules,
      Forall (fun rule => 0 <= ap_amount rule) rules ->
      0 <= getAdditionalPaymentAmount index rules /\
      getAdditionalPaymentAmount index rules <= sumAmounts rules).
Proof.
  split; [| split; [| split]].
  - intros index rules rules'. unfold getAdditionalPaymentAmount at 1.
    rewrite fold_left_app, getAdditionalPaymentAmount_fold. reflexivity.
  - intros index rules rules' Hperm.
    induction Hperm as [| x l l' _ IH | x y l | l l' l'' _ IH1 _ IH2].
    + reflexivity.
    + rewrite (getAdditionalPaymentAmount_cons index x l),
        (getAdditionalPaymentAmount_cons index x l'), IH. reflexivity.
    + rewrite (getAdditionalPaymentAmount_cons index y (x :: l)),
        (getAdditionalPaymentAmount_cons index x l),
        (getAdditionalPaymentAmount_cons index x (y :: l)),
        (getAdditionalPaymentAmount_cons index y l). ring.
    + rewrite IH1. exact IH2.
  - intros index rules Hall. induction Hall as [| rule rules Hrule _ IH].
    + reflexivity.
    + rewrite getAdditionalPaymentAmount_cons, IH,
        (proj2 (getAdditionalPaymentAmount_one index rule) Hrule). reflexivity.
  - intros index rules Hall. induction Hall as [| rule rules Hrule _ IH].
    + cbn. split; apply Qle_refl.
    + rewrite getAdditionalPaymentAmount_cons. cbn [sumAmounts fold_right].
      fold (sumAmounts rules).
      destruct (proj1 (getAdditionalPaymentAmount_one index rule)) as [E | E];
        rewrite E; lra.
Qed.

Lemma premium_rate_values (p rate : Q) :
  getCMHCPremiumRate p = Ok rate ->
  5 <= p /\
  ((20 <= p /\ rate = 0) \/ (15 <= p /\ p < 20 /\ rate = (28 # 1000)) \/
   (10 <= p /\ p < 15 /\ rate = (31 # 1000)) \/ (p < 10 /\ rate = (4 # 100))).
Proof.
  unfold getCMHCPremiumRate.
  destruct (Qle_bool 20 p) eqn:E20; [apply Qle_bool_iff in E20 | apply Qle_bool_false in E20];
  (destruct (Qle_bool 15 p) eqn:E15; [apply Qle_bool_iff in E15 | apply Qle_bool_false in E15]);
  (destruct (Qle_bool 10 p) eqn:E10; [apply Qle_bool_iff in E10 | apply Qle_bool_false in E10]);
  (destruct (Qle_bool 5 p) eqn:E5; [apply Qle_bool_iff in E5 | apply Qle_bool_false in E5]);
  intros H; try discriminate; injection H as <-;
    (split; [lra |]); try lra;
    first [ left; split; [lra | reflexivity]
          | right; left; split; [lra | split; [lra | reflexivity]]
          | right; right; left; split; [lra | split; [lra | reflexivity]]
          | right; right; right; split; [lra | reflexivity] ].
Qed.

(** X15: the insurance calculator splits the purchase price into the down
    payment and the loan amount, and a larger down payment never raises what
    is financed: for a price, a surtax rate and an extra financing that are not
    negative, and down payments of at most 100 percent, the premium rate, the
    loan amount and the total principal at the larger down payment are at most
    those at the smaller one. *)
Theorem larger_down_payment_finances_less (purchasePrice extraFinancing surtaxRate : Q)
  (p q : Q) (d d' : InsuranceDetails) :
  calculateMortgageWithInsurance purchasePrice p extraFinancing surtaxRate = Ok d ->
  calculateMortgageWithInsurance purchasePrice q extraFinancing surtaxRate = Ok d' ->
  ins_downPayment d + ins_mortgageAmount d == purchasePrice /\
  (0 <= purchasePrice -> 0 <= surtaxRate -> p <= q -> q <= 100 ->
   ins_cmhcPremiumRate d' <= ins_cmhcPremiumRate d /\
   ins_mortgageAmount d' <= ins_mortgageAmount d /\
   ins_cmhcInsurance d' <= ins_cmhcInsurance d /\
   ins_totalPrincipal d' <= ins_totalPrincipal d).
Proof.
  unfold calculateMortgageWithInsurance.
  destruct (getCMHCPremiumRate p) as [rate |] eqn:Ep; cbn [bind]; [| discriminate].
  destruct (getCMHCPremiumRate q) as [rate' |] eqn:Eq; cbn [bind]; [| discriminate].
  intros Hd Hd'. injection Hd as <-. injection Hd' as <-.
  cbn [ins_downPayment ins_mortgageAmount ins_cmhcPremiumRate ins_cmhcInsurance
       ins_totalPrincipal].
  split; [ring |].
  intros Hprice Hsurtax Hpq Hq.
  destruct (premium_rate_values p rate Ep) as [Hp5 Hrate].
  destruct (premium_rate_values q rate' Eq) as [Hq5 Hrate'].
  assert (Hr : rate' <= rate /\ 0 <= rate').
  { destruct Hrate as [[? ->] | [(? & ? & ->) | [(? & ? & ->) | [? ->]]]];
      destruct Hrate' as [[? ->] | [(? & ? & ->) | [(? & ? & ->) | [? ->]]]];
      split; try lra; try discriminate. }
  destruct Hr as [Hr Hr0].
  unfold Qdiv. change (/ 100) with (1 # 100).
  set (L := purchasePrice - purchasePrice * (p * (1 # 100))).
  set (L' := purchasePrice - purchasePrice * (q * (1 # 100))).
  assert (HL : L' <= L) by (subst L L'; nra).
  assert (HL0 : 0 <= L') by (subst L'; nra).
  assert (Hins : L' * rate' <= L * rate) by nra.
  split; [exact Hr |]. split; [exact HL |]. split; [exact Hins |].
  nra.
Qed.

(** ** At the edges *)

Lemma sumInterest_zero (l : list PaymentDetail) :
  Forall (fun e => pd_interest e == 0) l -> sumInterest l == 0.
Proof.
  unfold sumInterest. induction 1 as [| e l He _ IH]; cbn [fold_right].
  - reflexivity.
  - rewrite He, IH. reflexivity.
Qed.

(** The entries of a run carry the rates of the periods. *)
Lemma termsSized_rates (Math_pow : Q -> Q -> Q) (params : MortgageParams)
  (A : Q -> Prop) (total : Z) (periods : list RenewalPeriod) :
  Forall (fun term => A (rp_annualRate term)) periods ->
  forall segs count prev,
    termsSized Math_pow params total count prev periods segs ->
    Forall (fun e => A (pd_interestRate e)) (List.concat segs).
Proof.
  induction 1 as [| term rest Hterm _ IH]; intros [| seg segs] count prev;
    cbn [termsSized List.concat]; try contradiction.
  - intros _. constructor.
  - intros (_ & _ & _ & Hseg & Hrest). apply Forall_app. split.
    + eapply Forall_impl; [| exact Hseg]. intros e He. cbv beta in He.
      rewrite He. exact Hterm.
    + apply (IH segs _ _ Hrest).
Qed.

Section ZeroRate.

Variable Math_pow : Q -> Q -> Q.
Hypothesis pow_one : forall b e : Q, b == 1 -> Math_pow b e == 1.

Lemma getPeriodicRate_zero (frequency : PaymentFrequency) :
  getPeriodicRate Math_pow 0 frequency == 0.
Proof.
  unfold getPeriodicRate. rewrite pow_one; [reflexivity |]. reflexivity.
Qed.

Lemma shadowPayments_zero (termEnd total : Z) (r P : Q) (turns : nat) :
  r == 0 ->
  forall sh,
    totalInterestWithout sh == 0 ->
    totalInterestWithout (shadowPayments turns termEnd total r P sh) == 0.
Proof.
  intros Hr. induction turns as [| turns IH]; intros sh Hsh; cbn [shadowPayments];
    [exact Hsh |].
  destruct (_ && _ && _); [| exact Hsh].
  apply IH. unfold shadowPayment. cbn [totalInterestWithout].
  rewrite norm_eq, Hsh, Hr. ring.
Qed.

Lemma shadowTerms_zero (frequency : PaymentFrequency) (total : Z)
  (periods : list RenewalPeriod) :
  Forall (fun term => rp_annualRate term = 0) periods ->
  forall sh,
    totalInterestWithout sh == 0 ->
    totalInterestWithout (shadowTerms Math_pow frequency total periods sh) == 0.
Proof.
  induction 1 as [| term rest Hterm _ IH]; intros sh Hsh; cbn [shadowTerms];
    [exact Hsh |].
  destruct (Qltb (1 # 100) (balanceWithout sh)); [| exact Hsh].
  apply IH. apply shadowPayments_zero; [| exact Hsh].
  rewrite Hterm. apply getPeriodicRate_zero.
Qed.

(** X16: at a rate of 0, with [Math.pow] giving 1 on a base of 1, the engine
    charges no interest: when every period has the annual rate 0, every entry
    has an interest of 0 and a payment that is all principal, the totals of
    interest are 0, the total paid is the principal field, and no interest is
    reported as saved. *)
Theorem no_interest_at_rate_zero (params : MortgageParams) (s : AmortizationSchedule) :
  calculateAmortizationSchedule Math_pow params = Ok s ->
  Forall (fun term => rp_annualRate term = 0) (renewalPeriods params) ->
  (forall e, In e (payments s) ->
     pd_interest e == 0 /\ pd_payment e == pd_principal e) /\
  totalInterest s == 0 /\
  sm_totalPaid (summary s) == principal params /\
  sm_interestSaved (summary s) == 0.
Proof.
  intros Hs Hrates.
  assert (Hentries : forall e, In e (payments s) ->
            pd_interest e == 0 /\ pd_payment e == pd_principal e).
  { intros e He. destruct (In_nth_error _ _ He) as (i & Hi).
    destruct (schedule_entry Math_pow params s i e Hs Hi)
      as (P & (_ & _ & Hint & _ & Hpay & _) & _).
    assert (Hrate : pd_interestRate e = 0).
    { rewrite (schedule_payments Math_pow params s Hs) in He.
      destruct (runSchedule_segments Math_pow params) as (segs & El & Hsized).
      rewrite El in He.
      pose proof (termsSized_rates Math_pow params (fun rate => rate = 0) _ _
                    (Forall_sortPeriods _ _ Hrates) segs _ _ Hsized) as Hall.
      rewrite Forall_forall in Hall. apply (Hall e He). }
    rewrite Hrate, getPeriodicRate_zero in Hint.
    assert (Hi0 : pd_interest e == 0) by (rewrite Hint; ring).
    split; [exact Hi0 | rewrite Hpay, Hi0; ring]. }
  destruct (schedule_ok Math_pow params s Hs) as (d & _ & Hbuild).
  destruct (totals_run Math_pow params) as (Hti & _).
  assert (Hzero : totalInterestPaid (runSchedule Math_pow params) == 0).
  { rewrite Hti. apply sumInterest_zero. apply Forall_forall. intros e He.
    apply Hentries. rewrite Hbuild. exact He. }
  split; [exact Hentries |].
  rewrite Hbuild. cbn [totalInterest summary sm_totalPaid sm_interestSaved buildSchedule].
  split; [exact Hzero |]. split; [rewrite Hzero; ring |].
  destruct (Qltb 0 (totalAdditionalPayments (runSchedule Math_pow params)));
    [| reflexivity].
  assert (Hwithout : interestWithoutAdditional Math_pow params == 0).
  { unfold interestWithoutAdditional. apply shadowTerms_zero.
    - apply Forall_sortPeriods. exact Hrates.
    - reflexivity. }
  rewrite Hwithout, Hzero.
  destruct (Math_max_spec 0 (0 - 0)) as [[_ ->] | [_ ->]]; reflexivity.
Qed.

End ZeroRate.

Section Empty.

Variable Math_pow : Q -> Q -> Q.

(** X17: a principal of one cent or less, zero or negative too, is no error:
    the schedule is returned with an empty ledger, totals of 0, no months to
    pay off and the whole amortization as time saved.  A principal above one
    cent whose earliest period has at least one payment gives a ledger that is
    not empty. *)
Theorem empty_ledger_for_a_paid_principal (params : MortgageParams)
  (s : AmortizationSchedule) :
  calculateAmortizationSchedule Math_pow params = Ok s ->
  (principal params <= 0.01 ->
   payments s = [] /\ totalInterest s = 0 /\ totalPayments s = 0 /\
   sm_totalAdditionalPayments (summary s) = 0 /\
   sm_interestSaved (summary s) = 0 /\
   sm_actualPayoffMonths (summary s) = 0%Z /\
   sm_timeSaved (summary s) == amortizationYears params * 12) /\
  (0.01 < principal params ->
   (forall term, nth_error (sortPeriods (renewalPeriods params)) 0 = Some term ->
      (rp_startPayment term <=
       match nth_error (sortPeriods (renewalPeriods params)) 1 with
       | Some nextTerm => rp_startPayment nextTerm - 1
       | None => getPaymentCount (amortizationYears params) (paymentFrequency params)
       end)%Z) ->
   payments s <> []).
Proof.
  intros Hs. destruct (schedule_ok Math_pow params s Hs) as (d & _ & Hbuild). split.
  - intros Hpaid.
    assert (Hrun : runSchedule Math_pow params = initialState params).
    { unfold runSchedule. apply processTerms_idle. exact Hpaid. }
    rewrite Hbuild. unfold buildSchedule. rewrite Hrun.
    cbn [payments totalInterest totalPayments summary sm_totalAdditionalPayments
         sm_interestSaved sm_actualPayoffMonths sm_timeSaved
         ledger totalInterestPaid totalAdditionalPayments initialState
         fold_left List.length].
    do 5 (split; [reflexivity |]).
    assert (Hmonths : Math_round (inject_Z (Z.of_nat 0)
                        / inject_Z (getPaymentsPerYear (paymentFrequency params)) * 12) = 0%Z)
      by (destruct (paymentFrequency params); reflexivity).
    rewrite Hmonths. split; [reflexivity |]. change (inject_Z 0) with 0. ring.
  - intros Hpos Hfirst. rewrite (schedule_payments Math_pow params s Hs).
    assert (Hne : renewalPeriods params <> []).
    { intros Hnil. unfold calculateAmortizationSchedule in Hs. rewrite Hnil in Hs.
      discriminate. }
    unfold runSchedule.
    destruct (sortPeriods (renewalPeriods params)) as [| term rest] eqn:Esort.
    { exfalso. apply Hne. destruct (renewalPeriods params) as [| p l]; trivial.
      unfold sortPeriods in Esort. cbn [fold_right] in Esort.
      destruct (fold_right insertPeriod [] l) as [| q l']; cbn [insertPeriod] in Esort;
        [discriminate |].
      destruct (rp_startPayment p <=? rp_startPayment q)%Z; discriminate. }
    specialize (Hfirst term eq_refl).
    set (total := getPaymentCount (amortizationYears params) (paymentFrequency params)) in *.
    destruct (processTerms_spec Math_pow params total (term :: rest) 0%Z (initialState params))
      as (segs & El & Hsized).
    rewrite El. cbn [ledger initialState app].
    destruct segs as [| seg segs]; cbn [termsSized] in Hsized; [contradiction |].
    destruct Hsized as (_ & _ & Hshort & _).
    cbn [List.concat]. intros Hnil. apply app_eq_nil in Hnil. destruct Hnil as [-> _].
    cbn [List.length lastBalance fold_left balance initialState] in Hshort.
    assert (Habs : principal params <= 0.01).
    { apply Hshort. cbn [nth_error] in Hfirst.
      destruct rest as [| nextTerm rest']; cbn [nth_error] in Hfirst; lia. }
    lra.
Qed.

End Empty.

(** ** The form *)

Lemma removeAt_length {A : Type} (l : list A) :
  forall index,
    List.length (removeAt index l)
    = if (index <? List.length l)%nat then (List.length l - 1)%nat else List.length l.
Proof.
  induction l as [| x l IH]; intros index.
  - destruct index; reflexivity.
  - destruct index as [| index]; cbn [removeAt List.length].
    + change (0 <? S (List.length l))%nat with true. cbv iota. lia.
    + rewrite IH. change (S index <? S (List.length l))%nat with (index <? List.length l)%nat.
      destruct (index <? List.length l)%nat eqn:E; [apply Nat.ltb_lt in E; lia | reflexivity].
Qed.

Lemma ascending_snoc (l : list RenewalPeriod) (lastPeriod p : RenewalPeriod) :
  ascending l ->
  nth_error l (List.length l - 1) = Some lastPeriod ->
  (rp_startPayment lastPeriod <= rp_startPayment p)%Z ->
  ascending (l ++ [p]).
Proof.
  induction l as [| x l IH]; intros Hasc Hlast Hle; [discriminate |].
  destruct l as [| y l'].
  - cbn in Hlast. injection Hlast as <-. cbn. split; [exact Hle | exact I].
  - destruct Hasc as [Hxy Hasc]. cbn [app]. split; [exact Hxy |].
    apply IH; [exact Hasc | | exact Hle].
    cbn [List.length] in *. replace (S (S (List.length l')) - 1)%nat
      with (S (S (List.length l' - 0) - 1))%nat in Hlast by lia.
    replace (S (List.length l') - 1)%nat with (List.length l' - 0)%nat by lia.
    rewrite Nat.sub_0_r in *. cbn [Nat.sub] in Hlast. rewrite Nat.sub_0_r in Hlast.
    exact Hlast.
Qed.

(** X18: a click on Calculate alerts exactly when the down payment is below 5
    percent, and nothing is computed then.  Otherwise, with at least one
    renewal period, a schedule is shown whose principal is the total principal
    of the insurance calculator (loan amount, premium, surtax and extra
    financing), on which the first entry's interest is charged; with no
    renewal period the engine's error is thrown and not caught. *)
Theorem calculate_starts_from_the_insured_total (Math_pow : Q -> Q -> Q)
  (form : FormState) :
  (fs_downPaymentPercent form < 5 <->
   exists msg, handleCalculate Math_pow form = Alerted msg) /\
  (5 <= fs_downPaymentPercent form -> fs_renewalPeriods form <> [] ->
   exists s details,
     handleCalculate Math_pow form = Shown s /\
     calculateMortgageWithInsurance (fs_purchasePrice form) (fs_downPaymentPercent form)
       (fs_additionalFinancing form) (fs_cmhcPstRate form) = Ok details /\
     totalPrincipal s = ins_totalPrincipal details /\
     totalPrincipal s ==
       ins_mortgageAmount details + ins_cmhcInsurance details + ins_cmhcPst details
       + fs_additionalFinancing form /\
     (forall e, nth_error (payments s) 0 = Some e ->
        pd_interest e ==
          ins_totalPrincipal details *
          getPeriodicRate Math_pow (pd_interestRate e) (fs_paymentFrequency form))) /\
  (5 <= fs_downPaymentPercent form -> fs_renewalPeriods form = [] ->
   handleCalculate Math_pow form
   = Uncaught "At least one renewal period must be specified").
Proof.
  unfold handleCalculate, mortgageDetails.
  pose proof (calculateMortgageWithInsurance_throws (fs_purchasePrice form)
                (fs_downPaymentPercent form) (fs_additionalFinancing form)
                (fs_cmhcPstRate form)) as Hthrow.
  destruct (calculateMortgageWithInsurance (fs_purchasePrice form)
              (fs_downPaymentPercent form) (fs_additionalFinancing form)
              (fs_cmhcPstRate form)) as [details | msg] eqn:Edetails;
    cbn [is_Throw] in Hthrow.
  - assert (Hge : 5 <= fs_downPaymentPercent form).
    { apply Qnot_lt_le. intros Hlt. apply Hthrow in Hlt. discriminate. }
    split; [| split].
    + split.
      * intros Hlt. apply Qle_not_lt in Hge. contradiction.
      * intros [msg Hmsg].
        destruct (calculateAmortizationSchedule Math_pow (formParams form details));
          discriminate.
    + intros _ Hne.
      assert (Hok : calculateAmortizationSchedule Math_pow (formParams form details)
                    = Ok (buildSchedule Math_pow (formParams form details) details)).
      { unfold calculateAmortizationSchedule.
        cbn [renewalPeriods purchasePrice downPaymentPercent additionalFinancing
             cmhcPstRate formParams].
        destruct (fs_renewalPeriods form); [contradiction |].
        cbn [List.length Nat.eqb]. rewrite Edetails. reflexivity. }
      rewrite Hok. eexists. exists details.
      split; [reflexivity |]. split; [reflexivity |]. split; [reflexivity |]. split.
      * cbn [totalPrincipal buildSchedule principal formParams].
        revert Edetails. unfold calculateMortgageWithInsurance.
        destruct (getCMHCPremiumRate (fs_downPaymentPercent form)); cbn [bind];
          [| discriminate].
        intros H. injection H as <-. reflexivity.
      * intros e He. cbn [payments buildSchedule] in He.
        apply (firstInterestInvariant_run Math_pow (formParams form details)). exact He.
    + intros _ Hnil. unfold calculateAmortizationSchedule.
      cbn [renewalPeriods formParams]. rewrite Hnil. reflexivity.
  - assert (Hlt : fs_downPaymentPercent form < 5) by (apply Hthrow; reflexivity).
    split; [| split].
    + split; [intros _; eexists; reflexivity | intros _; exact Hlt].
    + intros Hge. apply Qle_not_lt in Hge. contradiction.
    + intros Hge. apply Qle_not_lt in Hge. contradiction.
Qed.

Lemma handleAddRenewalPeriod_spec (frequency : PaymentFrequency)
  (periods : list RenewalPeriod) :
  match nth_error periods (List.length periods - 1) with
  | Some lastPeriod =>
      handleAddRenewalPeriod frequency periods =
      Ok (periods ++
          [ {| rp_startPayment :=
                 rp_startPayment lastPeriod
                 + getPaymentCount (rp_termYears lastPeriod) frequency;
               rp_annualRate := 549 # 10000; rp_termYears := 5 |} ])
  | None => periods = [] /\ is_Throw (handleAddRenewalPeriod frequency periods) = true
  end.
Proof.
  unfold handleAddRenewalPeriod.
  destruct (nth_error periods (List.length periods - 1)) as [lastPeriod |] eqn:E.
  - unfold getPaymentCount. destruct frequency; reflexivity.
  - split; [| reflexivity]. apply nth_error_None in E.
    destruct periods; [reflexivity | cbn [List.length] in E; lia].
Qed.

(** X19: the form's list of renewal periods.  Adding a period appends one
    that starts where the last period's term ends: at the last start payment
    plus the payment count of its term years at the form's frequency; on an
    empty list it throws.  Removing leaves a list of one period as it is,
    and otherwise takes out the period at the index, or nothing when the index
    is past the end.  So a list the form gets to from its first one by
    adding and removing periods is never empty, and on such a list a click on
    Calculate never meets the engine's error for an empty list. *)
Theorem form_periods_are_never_empty (frequency : PaymentFrequency) :
  (forall periods lastPeriod,
      nth_error periods (List.length periods - 1) = Some lastPeriod ->
      exists added,
        handleAddRenewalPeriod frequency periods = Ok (periods ++ [added]) /\
        rp_startPayment added =
          (rp_startPayment lastPeriod
           + getPaymentCount (rp_termYears lastPeriod) frequency)%Z /\
        (ascending periods ->
         (0 <= getPaymentCount (rp_termYears lastPeriod) frequency)%Z ->
         ascending (periods ++ [added]))) /\
  is_Throw (handleAddRenewalPeriod frequency []) = true /\
  (forall index periods,
      List.length (handleRemoveRenewalPeriod index periods) =
        (if (1 <? List.length periods)%nat && (index <? List.length periods)%nat
         then List.length periods - 1 else List.length periods)%nat /\
      (periods <> [] -> handleRemoveRenewalPeriod index periods <> [])) /\
  (forall periods, formPeriods periods -> periods <> []) /\
  (forall Math_pow form,
      formPeriods (fs_renewalPeriods form) ->
      forall msg, handleCalculate Math_pow form <> Uncaught msg).
Proof.
  assert (Hremove : forall index periods,
      List.length (handleRemoveRenewalPeriod index periods) =
        (if (1 <? List.length periods)%nat && (index <? List.length periods)%nat
         then List.length periods - 1 else List.length periods)%nat /\
      (periods <> [] -> handleRemoveRenewalPeriod index periods <> [])).
  { intros index periods. unfold handleRemoveRenewalPeriod.
    destruct (1 <? List.length periods)%nat eqn:E; cbn [andb].
    - apply Nat.ltb_lt in E. pose proof (removeAt_length periods index) as Hlen.
      split; [exact Hlen |].
      intros _ Hnil. rewrite Hnil in Hlen. cbn [List.length] in Hlen.
      destruct (index <? List.length periods)%nat; lia.
    - split; [reflexivity | trivial]. }
  assert (Hbuilt : forall periods, formPeriods periods -> periods <> []).
  { intros periods H. induction H as [| selected l l' _ IH Hadd | index l _ IH].
    - discriminate.
    - pose proof (handleAddRenewalPeriod_spec selected l) as Hspec.
      destruct (nth_error l (List.length l - 1)) as [lastPeriod |].
      + rewrite Hspec in Hadd. injection Hadd as <-. intros Hnil.
        apply app_eq_nil in Hnil. destruct Hnil as [_ Hnil]. discriminate.
      + destruct Hspec as [Hnil _]. contradiction.
    - apply Hremove. exact IH. }
  split; [| split; [| split; [| split]]].
  - intros periods lastPeriod Hlast.
    pose proof (handleAddRenewalPeriod_spec frequency periods) as Hspec.
    rewrite Hlast in Hspec. eexists. split; [exact Hspec |]. split; [reflexivity |].
    intros Hasc Hcount. apply (ascending_snoc periods lastPeriod); trivial.
    cbn [rp_startPayment]. lia.
  - reflexivity.
  - exact Hremove.
  - exact Hbuilt.
  - intros Math_pow form Hform msg. unfold handleCalculate.
    destruct (mortgageDetails form) as [details |] eqn:Edetails; [| discriminate].
    unfold mortgageDetails in Edetails.
    destruct (calculateMortgageWithInsurance _ _ _ _) as [d |] eqn:Ed; [| discriminate].
    injection Edetails as ->.
    unfold calculateAmortizationSchedule.
    cbn [renewalPeriods purchasePrice downPaymentPercent additionalFinancing
         cmhcPstRate formParams].
    pose proof (Hbuilt _ Hform) as Hne.
    destruct (fs_renewalPeriods form); [contradiction |].
    cbn [List.length Nat.eqb]. rewrite Ed. discriminate.
Qed.

(** ** The stored profiles *)

Lemma string_append_assoc (a b c : string) :
  ((a ++ b) ++ c)%string = (a ++ (b ++ c))%string.
Proof. induction a as [| x a IH]; cbn [append]; [reflexivity | rewrite IH; reflexivity]. Qed.

Lemma string_length_append (a b : string) :
  String.length (a ++ b) = (String.length a + String.length b)%nat.
Proof. induction a as [| x a IH]; cbn [append String.length]; lia. Qed.

Lemma decodeField_encodeField (s rest : string) :
  decodeField (encodeField s ++ rest) = Some (s, rest).
Proof.
  induction s as [| c s IH]; cbn [encodeField append decodeField].
  - reflexivity.
  - rewrite IH. reflexivity.
Qed.

Lemma decodeProfile_encodeProfile (p : MortgageProfile unit) (rest : string) :
  decodeProfile (encodeProfile p ++ rest) = Some (p, rest).
Proof.
  unfold decodeProfile, encodeProfile. rewrite !string_append_assoc.
  rewrite !decodeField_encodeField. destruct p as [id name created updated []].
  reflexivity.
Qed.

Lemma encodeProfiles_length (profiles : list (MortgageProfile unit)) :
  (List.length profiles < String.length (encodeProfiles profiles))%nat.
Proof.
  induction profiles as [| p rest IH]; cbn [encodeProfiles String.length List.length].
  - lia.
  - rewrite string_length_append. lia.
Qed.

Lemma decodeProfilesFrom_encodeProfiles (profiles : list (MortgageProfile unit)) :
  forall fuel,
    (List.length profiles < fuel)%nat ->
    decodeProfilesFrom fuel (encodeProfiles profiles) = Some profiles.
Proof.
  induction profiles as [| p rest IH]; intros [| fuel] Hfuel;
    cbn [List.length] in Hfuel; try lia; cbn [decodeProfilesFrom encodeProfiles].
  - reflexivity.
  - rewrite decodeProfile_encodeProfile, IH by lia. reflexivity.
Qed.

Lemma decodeProfiles_encodeProfiles (profiles : list (MortgageProfile unit)) :
  decodeProfiles (encodeProfiles profiles) = Ok (ProfilesArray profiles).
Proof.
  unfold decodeProfiles.
  replace (String.eqb (encodeProfiles profiles) "null") with false
    by (destruct profiles; reflexivity).
  replace (String.eqb (encodeProfiles profiles) "[null]") with false
    by (destruct profiles; reflexivity).
  rewrite decodeProfilesFrom_encodeProfiles; [reflexivity |].
  pose proof (encodeProfiles_length profiles). lia.
Qed.

Lemma encodeProfiles_nonempty (profiles : list (MortgageProfile unit)) :
  String.eqb (encodeProfiles profiles) "" = false.
Proof. destruct profiles; reflexivity. Qed.

Lemma getItem_setItem_other (key value : string) (storage : LocalStorage) (k : string) :
  k <> key -> getItem k (setItem key value storage) = getItem k storage.
Proof.
  intros H. unfold getItem, setItem. apply String.eqb_neq in H. rewrite H. reflexivity.
Qed.

Section Profiles.

Variable ProfileData : Type.

Lemma hasId_same (p : MortgageProfile ProfileData) : hasId (mp_id p) p = true.
Proof. apply String.eqb_refl. Qed.

Lemma hasId_other (id id' : string) (p : MortgageProfile ProfileData) :
  id' <> id -> hasId id p = true -> hasId id' p = false.
Proof.
  unfold hasId. intros Hne H. apply String.eqb_eq in H. apply String.eqb_neq. congruence.
Qed.

Lemma find_append (f : MortgageProfile ProfileData -> bool) (l l' : list (MortgageProfile ProfileData)) :
  find f (l ++ l') = match find f l with Some p => Some p | None => find f l' end.
Proof.
  induction l as [| p l IH]; cbn [app find]; [reflexivity |].
  destruct (f p); [reflexivity | exact IH].
Qed.

Lemma filter_all_length (f : MortgageProfile ProfileData -> bool) (l : list (MortgageProfile ProfileData)) :
  List.length (filter f l) = List.length l -> filter f l = l.
Proof.
  induction l as [| p l IH]; cbn [filter]; [reflexivity |].
  pose proof (filter_length_le f l) as Hle.
  destruct (f p); cbn [List.length]; intros H; [rewrite IH by lia; reflexivity | lia].
Qed.

Lemma find_none_filter (id : string) (profiles : list (MortgageProfile ProfileData)) :
  find (hasId id) profiles = None <->
  filter (fun p => negb (hasId id p)) profiles = profiles.
Proof.
  induction profiles as [| p rest IH]; cbn [find filter]; [tauto |].
  destruct (hasId id p) eqn:E; cbn [negb].
  - split; [discriminate |]. intros H.
    pose proof (filter_length_le (fun p => negb (hasId id p)) rest) as Hlen.
    apply (f_equal (@List.length _)) in H. cbn [List.length] in H. lia.
  - rewrite IH. split; [intros ->; reflexivity | intros H; injection H; trivial].
Qed.

Lemma find_filter_other (id id' : string) (profiles : list (MortgageProfile ProfileData)) :
  id' <> id ->
  find (hasId id') (filter (fun p => negb (hasId id p)) profiles)
  = find (hasId id') profiles.
Proof.
  intros Hne. induction profiles as [| p rest IH]; cbn [find filter]; [reflexivity |].
  destruct (hasId id p) eqn:E; cbn [negb find].
  - rewrite (hasId_other id id' p Hne E). exact IH.
  - rewrite IH. reflexivity.
Qed.

Lemma find_filter_same (id : string) (profiles : list (MortgageProfile ProfileData)) :
  find (hasId id) (filter (fun p => negb (hasId id p)) profiles) = None.
Proof.
  induction profiles as [| p rest IH]; cbn [find filter]; [reflexivity |].
  destruct (hasId id p) eqn:E; cbn [negb find]; [exact IH |]. rewrite E. exact IH.
Qed.

Lemma findIndex_find (id : string) (profiles : list (MortgageProfile ProfileData)) :
  match findIndex id profiles with
  | Some index =>
      exists p, nth_error profiles index = Some p /\ find (hasId id) profiles = Some p
  | None => find (hasId id) profiles = None
  end.
Proof.
  induction profiles as [| p rest IH]; cbn [findIndex find]; [reflexivity |].
  destruct (hasId id p) eqn:E.
  - exists p. split; reflexivity.
  - destruct (findIndex id rest) as [index |]; cbn [option_map]; exact IH.
Qed.

Lemma find_setAt (id id' : string) (value : MortgageProfile ProfileData) (profiles : list (MortgageProfile ProfileData)) :
  forall index,
    findIndex id profiles = Some index ->
    hasId id value = true ->
    List.length (setAt index value profiles) = List.length profiles /\
    find (hasId id) (setAt index value profiles) = Some value /\
    (id' <> id ->
     find (hasId id') (setAt index value profiles) = find (hasId id') profiles).
Proof.
  induction profiles as [| q rest IH]; intros index Hindex Hvalue;
    cbn [findIndex] in Hindex; [discriminate |].
  destruct (hasId id q) eqn:E.
  - injection Hindex as <-. cbn [setAt find List.length]. rewrite Hvalue.
    split; [reflexivity |]. split; [reflexivity |].
    intros Hne.
    rewrite (hasId_other id id' value Hne Hvalue), (hasId_other id id' q Hne E).
    reflexivity.
  - destruct (findIndex id rest) as [index' |] eqn:Erest; [| discriminate].
    cbn [option_map] in Hindex. injection Hindex as <-.
    cbn [setAt find List.length]. rewrite E.
    destruct (IH index' eq_refl Hvalue) as (Hlen & Hsame & Hother).
    split; [rewrite Hlen; reflexivity |]. split; [exact Hsame |].
    intros Hne. rewrite (Hother Hne). reflexivity.
Qed.

Variable JSON_stringify : list (MortgageProfile ProfileData) -> string.
Variable JSON_parse : string -> result (StoredValue ProfileData).

(** What is assumed of JSON: a list of profiles is read back from its text,
    and the text is not empty. *)
Hypothesis parse_stringify :
  forall profiles, JSON_parse (JSON_stringify profiles) = Ok (ProfilesArray profiles).
Hypothesis stringify_nonempty :
  forall profiles, String.eqb (JSON_stringify profiles) "" = false.

Lemma getProfiles_setItem (profiles : list (MortgageProfile ProfileData)) (storage : LocalStorage) :
  getProfiles JSON_parse (setItem STORAGE_KEY (JSON_stringify profiles) storage)
  = ProfilesArray profiles.
Proof.
  unfold getProfiles, getItem, setItem. rewrite String.eqb_refl.
  rewrite stringify_nonempty, parse_stringify. reflexivity.
Qed.

Lemma getProfile_array (id : string) (storage : LocalStorage)
  (profiles : list (MortgageProfile ProfileData)) :
  getProfiles JSON_parse storage = ProfilesArray profiles ->
  getProfile JSON_parse id storage = Returns (find (hasId id) profiles).
Proof. intros H. unfold getProfile. rewrite H. reflexivity. Qed.

Lemma getProfile_returns (id : string) (storage : LocalStorage)
  (found : option (MortgageProfile ProfileData)) :
  getProfile JSON_parse id storage = Returns found ->
  exists profiles,
    getProfiles JSON_parse storage = ProfilesArray profiles /\
    found = find (hasId id) profiles.
Proof.
  unfold getProfile. destruct (getProfiles JSON_parse storage) as [profiles | |];
    [| discriminate | discriminate].
  intros H. injection H as <-. exists profiles. split; reflexivity.
Qed.

(** X20: with JSON reading back the lists of profiles it writes.  When the
    stored value is not an array, [saveProfile] throws and nothing is written.
    When it is the list [profiles] (none stored counts as the empty list), the
    saved profile is added at its end, under an id made of the clock and the
    digits drawn, and no other key of the storage is touched; it is then found
    by its id, unless a stored profile had that id already: then the lookup
    still gives the older one; lookups by other ids are as before. *)
Theorem saved_profile_is_stored (now : Z) (digits createdAt updatedAt : string)
  (profile : ProfileInput ProfileData) (storage : LocalStorage) :
  (getProfiles JSON_parse storage = NotAnArray ->
   saveProfile JSON_stringify JSON_parse now digits createdAt updatedAt profile storage
   = Throws TypeError) /\
  (forall profiles,
     getProfiles JSON_parse storage = ProfilesArray profiles ->
     exists saved storage',
       saveProfile JSON_stringify JSON_parse now digits createdAt updatedAt profile storage
       = Returns (saved, storage') /\
       saved =
         {| mp_id := generateId now digits; mp_name := in_name profile;
            mp_createdAt := createdAt; mp_updatedAt := updatedAt;
            mp_data := in_data profile |} /\
       getProfiles JSON_parse storage' = ProfilesArray (profiles ++ [saved]) /\
       (forall key, key <> STORAGE_KEY -> getItem key storage' = getItem key storage) /\
       (getProfile JSON_parse (mp_id saved) storage = Returns None ->
        getProfile JSON_parse (mp_id saved) storage' = Returns (Some saved)) /\
       (forall older, getProfile JSON_parse (mp_id saved) storage = Returns (Some older) ->
                      getProfile JSON_parse (mp_id saved) storage' = Returns (Some older)) /\
       (forall id, id <> mp_id saved ->
                   getProfile JSON_parse id storage' = getProfile JSON_parse id storage)).
Proof.
  split.
  - intros Hvalue. unfold saveProfile. rewrite Hvalue. reflexivity.
  - intros profiles Hvalue. unfold saveProfile. rewrite Hvalue.
    eexists. eexists. split; [reflexivity |]. split; [reflexivity |].
    cbn [mp_id].
    set (saved := {| mp_id := generateId now digits; mp_name := in_name profile;
                     mp_createdAt := createdAt; mp_updatedAt := updatedAt;
                     mp_data := in_data profile |}).
    assert (Hsaved : hasId (generateId now digits) saved = true) by apply (hasId_same saved).
    split; [apply getProfiles_setItem |].
    split; [intros key Hkey; apply getItem_setItem_other; exact Hkey |].
    rewrite (getProfile_array _ storage profiles Hvalue).
    assert (Hafter : forall id,
      getProfile JSON_parse id
        (setItem STORAGE_KEY (JSON_stringify (profiles ++ [saved])) storage)
      = Returns (find (hasId id) (profiles ++ [saved]))).
    { intros id. apply getProfile_array. apply getProfiles_setItem. }
    split; [| split].
    + intros Hnone. injection Hnone as Hnone. rewrite Hafter, find_append, Hnone.
      cbn [find]. rewrite Hsaved. reflexivity.
    + intros older Hold. injection Hold as Hold. rewrite Hafter, find_append, Hold.
      reflexivity.
    + intros id Hid. rewrite Hafter, (getProfile_array _ storage profiles Hvalue).
      rewrite find_append.
      destruct (find (hasId id) profiles); [reflexivity |].
      cbn [find]. rewrite (hasId_other (generateId now digits) id saved Hid Hsaved).
      reflexivity.
Qed.

(** X21: with JSON reading back the lists of profiles it writes.  When the
    stored value is not an array, [deleteProfile] throws.  When it is the list
    [profiles]: deleting by an id that no profile of the list has returns
    [false] and leaves the storage as it is; otherwise it returns [true],
    every profile with that id is gone, the others stay in their order, a
    lookup by the id finds nothing and no other key of the storage is touched.
    Lookups by other ids are as before in both cases. *)
Theorem deleted_profile_is_gone (id : string) (storage : LocalStorage) :
  (getProfiles JSON_parse storage = NotAnArray ->
   deleteProfile JSON_stringify JSON_parse id storage = Throws TypeError) /\
  (forall profiles,
     getProfiles JSON_parse storage = ProfilesArray profiles ->
     exists deleted storage',
       deleteProfile JSON_stringify JSON_parse id storage = Returns (deleted, storage') /\
       (deleted = false <-> find (hasId id) profiles = None) /\
       (deleted = false -> storage' = storage) /\
       (deleted = true ->
        getProfiles JSON_parse storage'
        = ProfilesArray (filter (fun p => negb (hasId id p)) profiles) /\
        getProfile JSON_parse id storage' = Returns None /\
        forall key, key <> STORAGE_KEY -> getItem key storage' = getItem key storage) /\
       (forall id', id' <> id ->
                    getProfile JSON_parse id' storage' = getProfile JSON_parse id' storage)).
Proof.
  split.
  - intros Hvalue. unfold deleteProfile. rewrite Hvalue. reflexivity.
  - intros profiles Hvalue. unfold deleteProfile. rewrite Hvalue.
    set (filtered := filter (fun p => negb (hasId id p)) profiles).
    assert (Hlen : (List.length filtered =? List.length profiles)%nat = true
                   <-> find (hasId id) profiles = None).
    { rewrite find_none_filter. fold filtered. rewrite Nat.eqb_eq. split.
      - apply filter_all_length.
      - intros ->. reflexivity. }
    destruct (List.length filtered =? List.length profiles)%nat eqn:E.
    + exists false, storage. split; [reflexivity |].
      split; [split; [intros _; apply Hlen; reflexivity | reflexivity] |].
      split; [reflexivity |]. split; [discriminate | reflexivity].
    + exists true. eexists. split; [reflexivity |].
      split.
      { split; [discriminate |]. intros H. apply Hlen in H. discriminate. }
      split; [discriminate |]. split.
      * intros _. split; [apply getProfiles_setItem |]. split.
        -- rewrite (getProfile_array id _ filtered (getProfiles_setItem _ _)).
           unfold filtered. rewrite find_filter_same. reflexivity.
        -- intros key Hkey. apply getItem_setItem_other. exact Hkey.
      * intros id' Hne.
        rewrite (getProfile_array id' _ filtered (getProfiles_setItem _ _)).
        rewrite (getProfile_array id' storage profiles Hvalue).
        unfold filtered. rewrite (find_filter_other id id' profiles Hne). reflexivity.
Qed.

(** X22: with JSON reading back the lists of profiles it writes.  When the
    stored value is not an array, [updateProfile] throws.  When it is the list
    [profiles]: updating by an id that no profile of the list has returns
    nothing and leaves the storage as it is.  Otherwise the first profile with
    the id is replaced, at its place, by itself with the given name and data
    and the new time of update; its id and its time of creation stay; the
    updated profile is returned and is what a lookup by the id now finds; the
    list keeps its length and lookups by other ids are as before. *)
Theorem updated_profile_is_replaced (updatedAt id : string)
  (updates : ProfileUpdates ProfileData) (storage : LocalStorage) :
  (getProfiles JSON_parse storage = NotAnArray ->
   updateProfile JSON_stringify JSON_parse updatedAt id updates storage = Throws TypeError) /\
  (forall profiles,
     getProfiles JSON_parse storage = ProfilesArray profiles ->
     exists result storage',
       updateProfile JSON_stringify JSON_parse updatedAt id updates storage
       = Returns (result, storage') /\
       (find (hasId id) profiles = None -> result = None /\ storage' = storage) /\
       (forall profile, find (hasId id) profiles = Some profile ->
          let updated := applyUpdates profile updates updatedAt in
          result = Some updated /\
          mp_id updated = id /\
          mp_createdAt updated = mp_createdAt profile /\
          mp_updatedAt updated = updatedAt /\
          getProfile JSON_parse id storage' = Returns (Some updated) /\
          exists profiles',
            getProfiles JSON_parse storage' = ProfilesArray profiles' /\
            List.length profiles' = List.length profiles) /\
       (forall id', id' <> id ->
                    getProfile JSON_parse id' storage' = getProfile JSON_parse id' storage)).
Proof.
  split.
  - intros Hvalue. unfold updateProfile. rewrite Hvalue. reflexivity.
  - intros profiles Hvalue. unfold updateProfile. rewrite Hvalue.
    pose proof (findIndex_find id profiles) as Hfind.
    destruct (findIndex id profiles) as [index |] eqn:Eindex.
    + destruct Hfind as (p & Hnth & Hp). rewrite Hnth.
      assert (Hid : hasId id p = true).
      { apply find_some in Hp. destruct Hp as [_ Hp]. exact Hp. }
      assert (Hupdated : hasId id (applyUpdates p updates updatedAt) = true) by exact Hid.
      set (profiles' := setAt index (applyUpdates p updates updatedAt) profiles).
      destruct (find_setAt id id (applyUpdates p updates updatedAt) profiles index
                  Eindex Hupdated) as (Hlen & Hsame & _).
      eexists. eexists. split; [reflexivity |].
      split; [rewrite Hp; discriminate |]. split.
      * intros profile Hprofile. rewrite Hp in Hprofile. injection Hprofile as <-.
        cbv zeta. split; [reflexivity |].
        split; [apply String.eqb_eq; exact Hid |]. split; [reflexivity |].
        split; [reflexivity |]. split.
        -- rewrite (getProfile_array id _ profiles' (getProfiles_setItem _ _)).
           unfold profiles'. rewrite Hsame. reflexivity.
        -- exists profiles'. split; [apply getProfiles_setItem | exact Hlen].
      * intros id' Hne.
        destruct (find_setAt id id' (applyUpdates p updates updatedAt) profiles index
                    Eindex Hupdated) as (_ & _ & Hother).
        rewrite (getProfile_array id' _ profiles' (getProfiles_setItem _ _)).
        rewrite (getProfile_array id' storage profiles Hvalue).
        unfold profiles'. rewrite (Hother Hne). reflexivity.
    + exists None, storage. split; [reflexivity |].
      split; [intros _; split; reflexivity |].
      split; [| reflexivity].
      intros profile Hprofile. rewrite Hfind in Hprofile. discriminate.
Qed.

(** X23: the life of a stored profile.  Saving a profile under an id that is
    not in use and deleting it by that id gives [true] and the list of
    profiles there was before, the other keys of the storage being left as they
    are.  Reading the profiles never fails: a storage without the key, with an
    empty text or with a text that is not JSON gives the empty list; and after
    [clearAllProfiles] the list is empty and no lookup finds a profile. *)
Theorem save_then_delete_restores (now : Z) (digits createdAt updatedAt : string)
  (profile : ProfileInput ProfileData) (storage : LocalStorage) :
  (getProfile JSON_parse (generateId now digits) storage = Returns None ->
   exists saved storage1 storage2,
     saveProfile JSON_stringify JSON_parse now digits createdAt updatedAt profile storage
     = Returns (saved, storage1) /\
     deleteProfile JSON_stringify JSON_parse (mp_id saved) storage1 = Returns (true, storage2) /\
     getProfiles JSON_parse storage2 = getProfiles JSON_parse storage /\
     forall key, key <> STORAGE_KEY -> getItem key storage2 = getItem key storage) /\
  (forall data msg,
      getItem STORAGE_KEY storage = Some data ->
      data = ""%string \/ JSON_parse data = Throw msg ->
      getProfiles JSON_parse storage = ProfilesArray []) /\
  (getItem STORAGE_KEY storage = None ->
   getProfiles JSON_parse storage = ProfilesArray []) /\
  getProfiles JSON_parse (clearAllProfiles storage) = ProfilesArray [] /\
  (forall id, getProfile JSON_parse id (clearAllProfiles storage) = Returns None).
Proof.
  assert (Hclear : getProfiles JSON_parse (clearAllProfiles storage) = ProfilesArray []).
  { unfold getProfiles, clearAllProfiles, getItem, removeItem.
    rewrite String.eqb_refl. reflexivity. }
  split; [| split; [| split; [| split]]].
  - intros Hfresh. apply getProfile_returns in Hfresh.
    destruct Hfresh as (profiles & Hvalue & Hfresh). symmetry in Hfresh.
    unfold saveProfile. rewrite Hvalue.
    set (saved := {| mp_id := generateId now digits; mp_name := in_name profile;
                     mp_createdAt := createdAt; mp_updatedAt := updatedAt;
                     mp_data := in_data profile |}).
    eexists. eexists. eexists. split; [reflexivity |].
    unfold deleteProfile. rewrite getProfiles_setItem.
    change (mp_id saved) with (generateId now digits).
    assert (Hfilter : filter (fun p => negb (hasId (generateId now digits) p))
                        (profiles ++ [saved]) = profiles).
    { rewrite filter_app. cbn [filter].
      rewrite (proj1 (find_none_filter _ _) Hfresh).
      replace (hasId (generateId now digits) saved) with true
        by (symmetry; apply (hasId_same saved)).
      cbn [negb]. apply app_nil_r. }
    rewrite Hfilter, length_app. cbn [List.length].
    replace (List.length profiles =? List.length profiles + 1)%nat with false
      by (symmetry; apply Nat.eqb_neq; lia).
    split; [reflexivity |]. split; [apply getProfiles_setItem |].
    intros key Hkey. rewrite !getItem_setItem_other by exact Hkey. reflexivity.
  - intros data msg Hdata [-> | Hthrow]; unfold getProfiles; rewrite Hdata.
    + reflexivity.
    + rewrite Hthrow. destruct (String.eqb data ""); reflexivity.
  - intros Hnone. unfold getProfiles. rewrite Hnone. reflexivity.
  - exact Hclear.
  - intros id. unfold getProfile. rewrite Hclear. reflexivity.
Qed.

End Profiles.

(** ** The engine in binary64 *)

Section Binary64Loops.

Import PrimFloat.
Local Open Scope float_scope.

Variable Math_pow : float -> float -> float.
Variable params : Binary64.MortgageParams.

(** What every turn of the inner loop keeps, the first loop keeps. *)
Variable I : Binary64.LoopState -> Prop.
Hypothesis I_makePayment :
  forall term termIndex r P st,
    I st -> I (Binary64.makePayment params term termIndex r P st).

Lemma b64_generatePayments_invariant (term : Binary64.RenewalPeriod) (termIndex : Z)
  (r P : float) :
  forall turns st,
    I st -> I (Binary64.generatePayments turns params term termIndex r P st).
Proof.
  induction turns as [| turns IH]; intros st Hst; cbn [Binary64.generatePayments].
  - exact Hst.
  - destruct (0.01 <? Binary64.balance st); [| exact Hst].
    destruct (Binary64.balance (Binary64.makePayment params term termIndex r P st) <? 0.01).
    + apply I_makePayment. exact Hst.
    + apply IH. apply I_makePayment. exact Hst.
Qed.

Lemma b64_processTerms_invariant (total : Z) :
  forall periods termIndex st,
    I st -> I (Binary64.processTerms Math_pow params total termIndex periods st).
Proof.
  induction periods as [| term rest IH]; intros termIndex st Hst;
    cbn [Binary64.processTerms]; [exact Hst |].
  match goal with
  | |- context [Binary64.generatePayments ?n params term termIndex ?r ?P st] =>
      pose proof (b64_generatePayments_invariant term termIndex r P n st Hst) as Hterm;
      destruct (Binary64.balance (Binary64.generatePayments n params term termIndex r P st)
                <? 0.01)
  end.
  - exact Hterm.
  - apply IH. exact Hterm.
Qed.

Lemma b64_runSchedule_invariant :
  I (Binary64.initialState params) -> I (Binary64.runSchedule Math_pow params).
Proof. intros H. unfold Binary64.runSchedule. apply b64_processTerms_invariant. exact H. Qed.

End Binary64Loops.

Section Binary64Tracker.

Import PrimFloat.
Local Open Scope float_scope.

Variable limits : Binary64.PrepaymentLimits.
Variable principal : float.
Variable startDate : Date.

Lemma trackedFlags_snoc (state : string * float) (l : list Binary64.PaymentDetail)
  (e : Binary64.PaymentDetail) :
  Binary64.trackedFlags limits principal startDate state (l ++ [e])
  = Binary64.trackedFlags limits principal startDate state l
    ++ [fst (Binary64.trackerStep limits principal startDate
               (Binary64.trackedState limits principal startDate state l) e)].
Proof.
  revert state. induction l as [| x l IH]; intros state;
    cbn [app Binary64.trackedFlags Binary64.trackedState fold_left].
  - destruct (Binary64.trackerStep limits principal startDate state e) as [exceeds state'].
    reflexivity.
  - destruct (Binary64.trackerStep limits principal startDate state x) as [exceeds state'].
    cbn [snd]. rewrite IH. reflexivity.
Qed.

Lemma trackedState_snoc (state : string * float) (l : list Binary64.PaymentDetail)
  (e : Binary64.PaymentDetail) :
  Binary64.trackedState limits principal startDate state (l ++ [e])
  = snd (Binary64.trackerStep limits principal startDate
           (Binary64.trackedState limits principal startDate state l) e).
Proof. unfold Binary64.trackedState. rewrite fold_left_app. reflexivity. Qed.

(** The block of the loop body is one step of the tracker. *)
Lemma checkPrepaymentLimits_step (date : Date) (extra lumpSum : float)
  (identifier : string) (violations : Z) (e : Binary64.PaymentDetail) :
  Binary64.pd_paymentDate e = date ->
  Binary64.pd_additionalPayment e = extra ->
  let '(flag, (lumpSum', identifier', violations')) :=
    Binary64.checkPrepaymentLimits (Some limits) principal startDate date extra
      lumpSum identifier violations in
  Binary64.trackerStep limits principal startDate (identifier, lumpSum) e
  = (flag, (identifier', lumpSum')) /\
  violations' = (violations + if flag then 1 else 0)%Z.
Proof.
  intros Hdate Hextra.
  unfold Binary64.checkPrepaymentLimits, Binary64.trackerStep. rewrite Hdate, Hextra.
  destruct (0 <? extra); [| split; [reflexivity | lia]].
  set (key := getPeriodIdentifier date startDate (Binary64.resetPeriod limits)).
  destruct (String.eqb key identifier) eqn:E; cbn [negb].
  - apply String.eqb_eq in E. rewrite <- E.
    destruct (principal * (Binary64.lumpSumLimitPercent limits / 100) <? lumpSum + extra);
      split; [reflexivity | lia | reflexivity | lia].
  - destruct (principal * (Binary64.lumpSumLimitPercent limits / 100) <? 0 + extra);
      split; [reflexivity | lia | reflexivity | lia].
Qed.

End Binary64Tracker.

Section Binary64Limits.

Import PrimFloat.
Local Open Scope float_scope.

Variable Math_pow : float -> float -> float.
Variable params : Binary64.MortgageParams.
Variable limits : Binary64.PrepaymentLimits.
Hypothesis limits_set : Binary64.prepaymentLimits params = Some limits.

Lemma trackerInvariant_makePayment (term : Binary64.RenewalPeriod) (termIndex : Z)
  (r P : float) (st : Binary64.LoopState) :
  trackerInvariant limits params st ->
  trackerInvariant limits params (Binary64.makePayment params term termIndex r P st).
Proof.
  intros (Hflags & Hstate & Hcount & Hall).
  unfold Binary64.makePayment. rewrite limits_set.
  match goal with
  | |- context [Binary64.checkPrepaymentLimits (Some limits) ?p ?d ?date ?extra ?l ?i ?v] =>
      pose proof (fun e => checkPrepaymentLimits_step limits p d date extra l i v e) as Hstep;
      destruct (Binary64.checkPrepaymentLimits (Some limits) p d date extra l i v)
        as [flag [[lumpSum identifier] violations]]
  end.
  match goal with
  | |- trackerInvariant _ _ {| Binary64.ledger := _ ++ [?x] |} => set (e := x)
  end.
  destruct (Hstep e eq_refl eq_refl) as (Estep & Eviolations).
  assert (Eflag : Binary64.flagged e = flag) by (destruct flag; reflexivity).
  unfold trackerInvariant.
  cbn [Binary64.ledger Binary64.currentPeriodIdentifier Binary64.currentPeriodLumpSum
       Binary64.prepaymentLimitViolations].
  rewrite trackedFlags_snoc, trackedState_snoc, Hstate, Estep, map_app, Hflags.
  cbn [map fst snd]. rewrite Eflag.
  split; [reflexivity |]. split; [reflexivity |]. split.
  - rewrite filter_app, length_app, Nat2Z.inj_add, <- Hcount, Eviolations.
    cbn [filter]. rewrite Eflag. destruct flag; reflexivity.
  - apply Forall_app. split; [exact Hall |]. constructor; [| constructor].
    destruct flag; [left | right]; reflexivity.
Qed.

Lemma trackerInvariant_run :
  trackerInvariant limits params (Binary64.runSchedule Math_pow params).
Proof.
  apply (b64_runSchedule_invariant Math_pow params (trackerInvariant limits params)).
  - intros term termIndex r P st. apply trackerInvariant_makePayment.
  - unfold trackerInvariant. cbn. repeat split; constructor.
Qed.

End Binary64Limits.

Lemma b64_schedule_ok (Math_pow : PrimFloat.float -> PrimFloat.float -> PrimFloat.float)
  (params : Binary64.MortgageParams) (s : Binary64.AmortizationSchedule) :
  Binary64.calculateAmortizationSchedule Math_pow params = Ok s ->
  exists insuranceDetails, s = Binary64.buildSchedule Math_pow params insuranceDetails.
Proof.
  unfold Binary64.calculateAmortizationSchedule.
  destruct (List.length (Binary64.renewalPeriods params) =? 0)%nat; [discriminate |].
  destruct (Binary64.calculateMortgageWithInsurance _ _ _ _) as [d | msg]; cbn [bind];
    [| discriminate].
  intros H. injection H as <-. exists d. reflexivity.
Qed.

(** A run whose annual rates are all 0 reads [Math.pow] on the base 1 only,
    at a finite exponent: every [Math.pow] that gives 1 there gives the run
    of [Math_pow_of_one]. *)
Section Binary64RateZero.

Import PrimFloat.
Local Open Scope float_scope.

Variable Math_pow : float -> float -> float.
Hypothesis pow_of_one : forall y, is_finite y = true -> Math_pow 1 y = 1.

Lemma b64_getPeriodicRate_zero (frequency : PaymentFrequency) :
  Binary64.getPeriodicRate Math_pow 0 frequency = 0.
Proof.
  unfold Binary64.getPeriodicRate. change (1 + 0 / 2) with 1.
  rewrite pow_of_one by (destruct frequency; reflexivity). reflexivity.
Qed.

Lemma b64_calculatePayment_zero (principal : float) (numberOfPayments : Z) :
  Binary64.calculatePayment Math_pow principal 0 numberOfPayments
  = principal / Binary64.ofZ numberOfPayments.
Proof. reflexivity. Qed.

Lemma b64_processTerms_rate_zero (params : Binary64.MortgageParams) (total : Z) :
  forall periods termIndex st,
    Forall (fun term => Binary64.rp_annualRate term = 0) periods ->
    Binary64.processTerms Math_pow params total termIndex periods st
    = Binary64.processTerms Binary64.Math_pow_of_one params total termIndex periods st.
Proof.
  induction periods as [| term rest IH]; intros termIndex st Hall; [reflexivity |].
  inversion Hall as [| ? ? Hterm Hrest]; subst.
  cbn [Binary64.processTerms]. rewrite Hterm, b64_getPeriodicRate_zero.
  replace (Binary64.getPeriodicRate Binary64.Math_pow_of_one 0
             (Binary64.paymentFrequency params)) with 0
    by (destruct (Binary64.paymentFrequency params); reflexivity).
  rewrite b64_calculatePayment_zero.
  change (Binary64.calculatePayment Binary64.Math_pow_of_one (Binary64.balance st) 0
            (total - Binary64.paymentNumber st + 1))
    with (Binary64.balance st / Binary64.ofZ (total - Binary64.paymentNumber st + 1)).
  match goal with
  | |- context [Binary64.balance ?x <? 0.01] => destruct (Binary64.balance x <? 0.01)
  end; [reflexivity |].
  apply IH. exact Hrest.
Qed.

Lemma b64_shadowTerms_rate_zero (frequency : PaymentFrequency) (total : Z) :
  forall periods st,
    Forall (fun term => Binary64.rp_annualRate term = 0) periods ->
    Binary64.shadowTerms Math_pow frequency total periods st
    = Binary64.shadowTerms Binary64.Math_pow_of_one frequency total periods st.
Proof.
  induction periods as [| term rest IH]; intros st Hall; [reflexivity |].
  inversion Hall as [| ? ? Hterm Hrest]; subst.
  cbn [Binary64.shadowTerms]. rewrite Hterm, b64_getPeriodicRate_zero.
  replace (Binary64.getPeriodicRate Binary64.Math_pow_of_one 0 frequency) with 0
    by (destruct frequency; reflexivity).
  rewrite b64_calculatePayment_zero.
  change (Binary64.calculatePayment Binary64.Math_pow_of_one (Binary64.balanceWithout st) 0
            (total - Binary64.currentPaymentNumber st + 1))
    with (Binary64.balanceWithout st
          / Binary64.ofZ (total - Binary64.currentPaymentNumber st + 1)).
  destruct (0.01 <? Binary64.balanceWithout st); [| reflexivity].
  apply IH. exact Hrest.
Qed.

Lemma Forall_b64_insertPeriod (A : Binary64.RenewalPeriod -> Prop)
  (p : Binary64.RenewalPeriod) (l : list Binary64.RenewalPeriod) :
  A p -> Forall A l -> Forall A (Binary64.insertPeriod p l).
Proof.
  intros Hp. induction 1 as [| q l Hq Hl IH]; cbn [Binary64.insertPeriod].
  - constructor; [exact Hp | constructor].
  - destruct (Binary64.rp_startPayment p <=? Binary64.rp_startPayment q)%Z.
    + constructor; [exact Hp | constructor; assumption].
    + constructor; assumption.
Qed.

Lemma Forall_b64_sortPeriods (A : Binary64.RenewalPeriod -> Prop)
  (l : list Binary64.RenewalPeriod) :
  Forall A l -> Forall A (Binary64.sortPeriods l).
Proof.
  unfold Binary64.sortPeriods. induction 1 as [| p l Hp Hl IH]; cbn [fold_right].
  - constructor.
  - apply Forall_b64_insertPeriod; assumption.
Qed.

Lemma rate_zero_run_reads_pow_of_one (params : Binary64.MortgageParams) :
  Forall (fun term => Binary64.rp_annualRate term = 0) (Binary64.renewalPeriods params) ->
  Binary64.calculateAmortizationSchedule Math_pow params
  = Binary64.calculateAmortizationSchedule Binary64.Math_pow_of_one params.
Proof.
  intros Hall. apply Forall_b64_sortPeriods in Hall.
  unfold Binary64.calculateAmortizationSchedule, Binary64.buildSchedule,
    Binary64.interestWithoutAdditional, Binary64.runSchedule.
  rewrite (b64_processTerms_rate_zero params _ _ _ _ Hall).
  rewrite (b64_shadowTerms_rate_zero _ _ _ _ Hall). reflexivity.
Qed.

End Binary64RateZero.


Section Binary64Scenario.

Import PrimFloat.
Local Open Scope float_scope.


(** Twelve payments of a twelfth of 7e15 leave a balance of 0.25: the ledger
    has its 12 entries and does not end at one cent or less.  With the period
    counted from payment 0 the loop has a thirteenth turn, which pays the 0.25,
    and the time saved is -1; so it has with a second period that starts at
    payment 14, which leaves the first one thirteen turns. *)
Lemma rounding_leaves_a_balance (Math_pow : float -> float -> float) :
  (forall y, is_finite y = true -> Math_pow 1 y = 1) ->
  (exists s e,
      Binary64.calculateAmortizationSchedule Math_pow Binary64.params_large_principal
      = Ok s /\
      Binary64.getPaymentCount (Binary64.amortizationYears Binary64.params_large_principal)
        (Binary64.paymentFrequency Binary64.params_large_principal) = 12%Z /\
      List.length (Binary64.payments s) = 12%nat /\
      nth_error (Binary64.payments s) 11 = Some e /\
      Binary64.pd_balance e = 0.25 /\
      (0.01 <? Binary64.pd_balance e) = true) /\
  (exists s,
      Binary64.calculateAmortizationSchedule Math_pow Binary64.params_from_payment_0
      = Ok s /\
      List.length (Binary64.payments s) = 13%nat /\
      Binary64.sm_timeSaved (Binary64.summary s) = -1) /\
  (exists s,
      Binary64.calculateAmortizationSchedule Math_pow Binary64.params_second_period_late
      = Ok s /\
      Binary64.getPaymentCount
        (Binary64.amortizationYears Binary64.params_second_period_late)
        (Binary64.paymentFrequency Binary64.params_second_period_late) = 12%Z /\
      List.length (Binary64.payments s) = 13%nat).
Proof.
  intros Hpow. split; [| split].
  - rewrite (rate_zero_run_reads_pow_of_one Math_pow Hpow) by (repeat constructor).
    eexists. eexists. split; [vm_compute; reflexivity |].
    repeat split; vm_compute; reflexivity.
  - rewrite (rate_zero_run_reads_pow_of_one Math_pow Hpow) by (repeat constructor).
    eexists. split; [vm_compute; reflexivity |]. split; vm_compute; reflexivity.
  - rewrite (rate_zero_run_reads_pow_of_one Math_pow Hpow) by (repeat constructor).
    eexists. split; [vm_compute; reflexivity |]. split; vm_compute; reflexivity.
Qed.

End Binary64Scenario.

(** ** The payment slots in binary64 *)

Lemma b64_ascending_tail (term : Binary64.RenewalPeriod) (rest : list Binary64.RenewalPeriod) :
  Binary64.ascending (term :: rest) -> Binary64.ascending rest.
Proof. destruct rest as [| nextTerm rest']; [intros _; exact I | intros [_ H]; exact H]. Qed.

Lemma b64_insertPeriod_sorted (p : Binary64.RenewalPeriod) (l : list Binary64.RenewalPeriod) :
  Binary64.ascending l -> Binary64.ascending (Binary64.insertPeriod p l).
Proof.
  induction l as [| q l IH]; intros H; cbn [Binary64.insertPeriod].
  - exact I.
  - destruct (Binary64.rp_startPayment p <=? Binary64.rp_startPayment q)%Z eqn:E.
    + apply Z.leb_le in E. split; [exact E | exact H].
    + apply Z.leb_gt in E. specialize (IH (b64_ascending_tail _ _ H)).
      destruct l as [| q' l'].
      * cbn [Binary64.insertPeriod]. split; [lia | exact I].
      * destruct H as [Hqq' H]. cbn [Binary64.insertPeriod] in *.
        destruct (Binary64.rp_startPayment p <=? Binary64.rp_startPayment q')%Z eqn:E'.
        -- split; [lia | exact IH].
        -- split; [exact Hqq' | exact IH].
Qed.

Lemma b64_sortPeriods_sorted (l : list Binary64.RenewalPeriod) :
  Binary64.ascending (Binary64.sortPeriods l).
Proof.
  unfold Binary64.sortPeriods. induction l as [| p l IH]; cbn [fold_right].
  - exact I.
  - apply b64_insertPeriod_sorted. exact IH.
Qed.

(** Periods in ascending order that start at payment [total + 1] at the
    latest have the slots from the first start payment to [total]. *)
Lemma b64_paymentSlots_ascending (total : Z) (periods : list Binary64.RenewalPeriod) :
  Binary64.ascending periods ->
  Forall (fun term => (Binary64.rp_startPayment term <= total + 1)%Z) periods ->
  Binary64.paymentSlots total periods =
    match periods with
    | first :: _ => (total - Binary64.rp_startPayment first + 1)%Z
    | [] => 0%Z
    end.
Proof.
  induction periods as [| term rest IH]; intros Hasc Hall; [reflexivity |].
  inversion Hall as [| ? ? Hterm Hrest]; subst.
  cbn [Binary64.paymentSlots]. rewrite (IH (b64_ascending_tail _ _ Hasc) Hrest).
  destruct rest as [| nextTerm rest']; [lia |].
  destruct Hasc as [Hle _]. lia.
Qed.

Section Binary64Order.

Import PrimFloat.
Local Open Scope float_scope.

(** [x < y] and [y < x] do not hold together. *)
Lemma b64_ltb_asym (x y : float) : (x <? y) = true -> (y <? x) = false.
Proof.
  rewrite !FloatAxioms.ltb_spec. unfold SpecFloat.SFltb.
  destruct (FloatOps.Prim2SF x) as [sx | sx | | sx mx ex],
           (FloatOps.Prim2SF y) as [sy | sy | | sy my ey];
    cbn [SpecFloat.SFcompare]; try discriminate; try reflexivity;
    try (destruct sx; discriminate || reflexivity);
    try (destruct sy; discriminate || reflexivity);
    try (destruct sx, sy; discriminate || reflexivity).
  change (Pos.compare_cont Eq mx my) with (mx ?= my)%positive.
  change (Pos.compare_cont Eq my mx) with (my ?= mx)%positive.
  rewrite (Z.compare_antisym ex ey), (Pos.compare_antisym mx my).
  destruct sx, sy; try discriminate; try reflexivity;
    destruct (ex ?= ey)%Z, (mx ?= my)%positive; cbn [CompOpp];
    discriminate || reflexivity.
Qed.

(** [Math.max(0, x)] is not above one cent when [x] is not. *)
Lemma b64_Math_max_not_above (x : float) :
  (0.01 <? x) = false -> (0.01 <? Binary64.Math_max 0 x) = false.
Proof.
  intros H. unfold Binary64.Math_max.
  destruct (is_nan 0 || is_nan x); [reflexivity |].
  destruct (0 <? x); [exact H |].
  destruct (x <? 0); [reflexivity |].
  change (get_sign 0) with false. reflexivity.
Qed.

End Binary64Order.

Section Binary64Slots.

Import PrimFloat.
Local Open Scope float_scope.

Variable Math_pow : float -> float -> float.
Variable params : Binary64.MortgageParams.

(** A turn of the inner loop adds one entry, which holds the balance the turn
    leaves, not below 0. *)
Lemma b64_makePayment_ledger (term : Binary64.RenewalPeriod) (termIndex : Z)
  (r P : float) (st : Binary64.LoopState) :
  exists e,
    Binary64.ledger (Binary64.makePayment params term termIndex r P st)
    = Binary64.ledger st ++ [e] /\
    Binary64.pd_balance e
    = Binary64.Math_max 0 (Binary64.balance (Binary64.makePayment params term termIndex r P st)).
Proof.
  unfold Binary64.makePayment.
  destruct (Binary64.checkPrepaymentLimits _ _ _ _ _ _ _ _)
    as [flag [[lumpSum identifier] violations]].
  eexists. split; reflexivity.
Qed.

(** The inner loop has at most its turns, and when a turn is left the balance
    is not above one cent. *)
Lemma b64_generatePayments_slots (term : Binary64.RenewalPeriod) (termIndex : Z)
  (r P : float) :
  forall turns st,
    let st' := Binary64.generatePayments turns params term termIndex r P st in
    (List.length (Binary64.ledger st') <= List.length (Binary64.ledger st) + turns)%nat /\
    ((List.length (Binary64.ledger st') < List.length (Binary64.ledger st) + turns)%nat ->
     (0.01 <? Binary64.balance st') = false).
Proof.
  induction turns as [| turns IH]; intros st; cbn [Binary64.generatePayments]; cbv zeta.
  - split; lia.
  - destruct (0.01 <? Binary64.balance st) eqn:Eguard; [| split; [lia | intros _; exact Eguard]].
    destruct (b64_makePayment_ledger term termIndex r P st) as (e & Hledger & _).
    set (st1 := Binary64.makePayment params term termIndex r P st) in *.
    assert (Hlen : List.length (Binary64.ledger st1) = S (List.length (Binary64.ledger st))).
    { rewrite Hledger, length_app. cbn [List.length]. lia. }
    destruct (Binary64.balance st1 <? 0.01) eqn:Ebreak.
    + split; [lia |]. intros _. apply b64_ltb_asym. exact Ebreak.
    + destruct (IH st1) as (IHlen & IHshort). cbv zeta in IHlen, IHshort.
      split; [lia |]. intros Hlt. apply IHshort. lia.
Qed.

(** Nothing is paid from a balance that is not above one cent. *)
Lemma b64_processTerms_idle (total : Z) :
  forall periods termIndex st,
    (0.01 <? Binary64.balance st) = false ->
    Binary64.processTerms Math_pow params total termIndex periods st = st.
Proof.
  induction periods as [| term rest IH]; intros termIndex st Hst;
    cbn [Binary64.processTerms]; [reflexivity |].
  match goal with
  | |- context [Binary64.generatePayments ?n params term termIndex ?r ?P st] =>
      replace (Binary64.generatePayments n params term termIndex r P st) with st
        by (destruct n; cbn [Binary64.generatePayments]; [| rewrite Hst]; reflexivity)
  end.
  destruct (Binary64.balance st <? 0.01); [reflexivity |].
  apply IH. exact Hst.
Qed.

(** The first loop fills at most the slots of the periods, and when a slot is
    left the balance is not above one cent. *)
Lemma b64_processTerms_slots (total : Z) :
  forall periods termIndex st,
    let st' := Binary64.processTerms Math_pow params total termIndex periods st in
    (Z.of_nat (List.length (Binary64.ledger st'))
     <= Z.of_nat (List.length (Binary64.ledger st)) + Binary64.paymentSlots total periods)%Z /\
    ((Z.of_nat (List.length (Binary64.ledger st'))
      < Z.of_nat (List.length (Binary64.ledger st)) + Binary64.paymentSlots total periods)%Z ->
     (0.01 <? Binary64.balance st') = false).
Proof.
  induction periods as [| term rest IH]; intros termIndex st;
    cbn [Binary64.processTerms Binary64.paymentSlots]; cbv zeta.
  - split; lia.
  - match goal with
    | |- context [Binary64.generatePayments ?n params term termIndex ?r ?P st] =>
        destruct (b64_generatePayments_slots term termIndex r P n st) as (Hlen & Hshort);
        cbv zeta in Hlen, Hshort;
        set (st1 := Binary64.generatePayments n params term termIndex r P st) in *
    end.
    destruct (Binary64.balance st1 <? 0.01) eqn:Ebreak.
    + pose proof (IH (termIndex + 1)%Z st1) as _.
      assert (0 <= Binary64.paymentSlots total rest)%Z
        by (clear; induction rest as [| t rest' IHr]; cbn [Binary64.paymentSlots]; lia).
      split; [lia |]. intros _. apply b64_ltb_asym. exact Ebreak.
    + destruct (IH (termIndex + 1)%Z st1) as (IHlen & IHshort). cbv zeta in IHlen, IHshort.
      split; [lia |]. intros Hlt.
      destruct (0.01 <? Binary64.balance st1) eqn:Eleft.
      * apply IHshort.
        assert (~ (List.length (Binary64.ledger st1)
                   < List.length (Binary64.ledger st)
                     + Z.to_nat (match rest with
                                 | nextTerm :: _ => Binary64.rp_startPayment nextTerm - 1
                                 | [] => total
                                 end - Binary64.rp_startPayment term + 1))%nat)
          by (intros Hc; specialize (Hshort Hc); congruence).
        lia.
      * rewrite (b64_processTerms_idle total rest _ st1 Eleft). exact Eleft.
Qed.

End Binary64Slots.

Section Binary64Ledger.

Import PrimFloat.
Local Open Scope float_scope.

Variable Math_pow : float -> float -> float.
Variable params : Binary64.MortgageParams.

(** The ledger of the first loop ends on the balance of the loop, not below
    0, and is empty only while the balance is the principal. *)
Lemma b64_runSchedule_last :
  let st := Binary64.runSchedule Math_pow params in
  (forall e,
      nth_error (Binary64.ledger st) (List.length (Binary64.ledger st) - 1) = Some e ->
      Binary64.pd_balance e = Binary64.Math_max 0 (Binary64.balance st)) /\
  (Binary64.ledger st = [] -> Binary64.balance st = Binary64.principal params).
Proof.
  apply (b64_runSchedule_invariant Math_pow params
           (fun st =>
              (forall e,
                  nth_error (Binary64.ledger st) (List.length (Binary64.ledger st) - 1) = Some e ->
                  Binary64.pd_balance e = Binary64.Math_max 0 (Binary64.balance st)) /\
              (Binary64.ledger st = [] -> Binary64.balance st = Binary64.principal params))).
  - intros term termIndex r P st _.
    destruct (b64_makePayment_ledger params term termIndex r P st) as (e & Hledger & Hbalance).
    rewrite Hledger. split.
    + intros e' He'. rewrite length_app in He'. cbn [List.length] in He'.
      rewrite nth_error_app2 in He' by lia.
      replace (List.length (Binary64.ledger st) + 1 - 1
               - List.length (Binary64.ledger st))%nat with 0%nat in He' by lia.
      injection He' as <-. exact Hbalance.
    + intros Hnil. destruct (Binary64.ledger st); discriminate.
  - split; [intros e He; discriminate | reflexivity].
Qed.

(** With every start payment from 1 to [total + 1], the ledger fills at most
    the slots from the earliest start payment to [total], and when a slot is
    left the balance is not above one cent. *)
Lemma b64_ledger_slots (first : Binary64.RenewalPeriod) :
  let total :=
    Binary64.getPaymentCount (Binary64.amortizationYears params)
      (Binary64.paymentFrequency params) in
  Forall (fun term => (1 <= Binary64.rp_startPayment term <= total + 1)%Z)
    (Binary64.renewalPeriods params) ->
  nth_error (Binary64.sortPeriods (Binary64.renewalPeriods params)) 0 = Some first ->
  let st := Binary64.runSchedule Math_pow params in
  (1 <= Binary64.rp_startPayment first)%Z /\
  (Z.of_nat (List.length (Binary64.ledger st))
   <= total - Binary64.rp_startPayment first + 1)%Z /\
  ((Z.of_nat (List.length (Binary64.ledger st))
    < total - Binary64.rp_startPayment first + 1)%Z ->
   (0.01 <? Binary64.balance st) = false).
Proof.
  intros total Hall Hfirst st.
  pose proof (Forall_b64_sortPeriods _ _ Hall) as Hsorted.
  pose proof (b64_paymentSlots_ascending total _
                (b64_sortPeriods_sorted (Binary64.renewalPeriods params))
                (Forall_impl _ (fun term H => proj2 H) Hsorted)) as Hslots.
  destruct (b64_processTerms_slots Math_pow params total
              (Binary64.sortPeriods (Binary64.renewalPeriods params)) 0%Z
              (Binary64.initialState params)) as (Hlen & Hshort).
  cbv zeta in Hlen, Hshort. rewrite Hslots in Hlen, Hshort.
  subst st. unfold Binary64.runSchedule. fold total.
  destruct (Binary64.sortPeriods (Binary64.renewalPeriods params)) as [| term rest];
    [discriminate |].
  injection Hfirst as <-. inversion Hsorted as [| ? ? Hterm _]; subst.
  cbv beta in Hterm.
  cbn [Binary64.initialState Binary64.ledger List.length] in Hlen, Hshort.
  split; [lia |]. split; [lia |]. intros Hlt. apply Hshort. lia.
Qed.

End Binary64Ledger.

Section ExactLedger.

Variable Math_pow : Q -> Q -> Q.

(** In exact arithmetic, when no rule has a negative amount, the balance does
    not grow at an entry whose principal portion is not negative. *)
Lemma balance_does_not_grow (params : MortgageParams) (s : AmortizationSchedule) :
  calculateAmortizationSchedule Math_pow params = Ok s ->
  nonnegAmounts params ->
  forall i e,
    nth_error (payments s) i = Some e ->
    0 <= pd_principal e ->
    pd_balance e <= balanceBefore (principal params) (payments s) i.
Proof.
  intros Hs Hamounts i e He Hp.
  destruct (schedule_entry Math_pow params s i e Hs He) as (P & Hpaid & _).
  destruct Hpaid as (Hprev & _ & _ & Hpr & _ & Hex & Hbal).
  pose proof (getAdditionalPaymentAmount_nonneg params Hamounts (Z.of_nat i + 1)) as Hres.
  pose proof (Math_min_le_r
                (P - balanceBefore (principal params) (payments s) i
                     * getPeriodicRate Math_pow (pd_interestRate e)
                         (paymentFrequency params))
                (balanceBefore (principal params) (payments s) i)) as Hle.
  rewrite <- Hpr in Hle.
  destruct (Math_min_spec
              (getAdditionalPaymentAmount (Z.of_nat i + 1) (additionalPayments params))
              (balanceBefore (principal params) (payments s) i - pd_principal e))
    as [[_ Hmin] | [_ Hmin]]; rewrite <- Hex in Hmin; lra.
Qed.

End ExactLedger.

Section Binary64Amortization.

Import PrimFloat.


End Binary64Amortization.

(** ** More runs on the parameter sets *)

Lemma iroot_exact (d : positive) (S : Z) : (0 < S)%Z -> iroot d (S ^ Zpos d) = S.
Proof.
  intros HS.
  assert (HN : (0 < S ^ Zpos d)%Z) by (apply Z.pow_pos_nonneg; lia).
  destruct (iroot_spec d (S ^ Zpos d) HN) as (H0 & Hlo & Hhi).
  set (y := iroot d (S ^ Zpos d)) in *.
  destruct (Z.lt_trichotomy y S) as [Hlt | [Heq | Hgt]]; [| exact Heq |].
  - assert ((y + 1) ^ Zpos d <= S ^ Zpos d)%Z by (apply Z.pow_le_mono_l; lia). lia.
  - assert (S ^ Zpos d < y ^ Zpos d)%Z by (apply Z.pow_lt_mono_l; lia). lia.
Qed.

Lemma pow_approx_one (b e : Q) : b == 1 -> pow_approx b e == 1.
Proof.
  intros Hb. unfold pow_approx.
  assert (Hx : b ^ Qnum (Qred e) == 1) by (rewrite Hb; apply Qpower_1).
  assert (Hroot : forall d,
    Qred (inject_Z (iroot d (Qfloor (b ^ Qnum (Qred e) * inject_Z (pow_scale ^ Zpos d))))
          / inject_Z pow_scale) == 1).
  { intros d. rewrite Qred_correct.
    assert (E : Qfloor (b ^ Qnum (Qred e) * inject_Z (pow_scale ^ Zpos d))
                = (pow_scale ^ Zpos d)%Z).
    { rewrite <- (Qfloor_Z (pow_scale ^ Zpos d)) at 2. apply Qfloor_comp.
      rewrite Hx. ring. }
    rewrite E, iroot_exact by reflexivity. reflexivity. }
  destruct (Qden (Qred e)); try exact Hx; apply Hroot.
Qed.

Lemma schedule_accepted (Math_pow : Q -> Q -> Q) (params : MortgageParams) :
  renewalPeriods params <> [] ->
  5 <= downPaymentPercent params ->
  exists insuranceDetails,
    calculateAmortizationSchedule Math_pow params
    = Ok (buildSchedule Math_pow params insuranceDetails).
Proof.
  intros Hne Hge. unfold calculateAmortizationSchedule.
  destruct (renewalPeriods params) as [| term rest]; [contradiction |].
  cbn [List.length Nat.eqb].
  pose proof (calculateMortgageWithInsurance_throws (purchasePrice params)
                (downPaymentPercent params) (additionalFinancing params)
                (cmhcPstRate params)) as Hthrow.
  destruct (calculateMortgageWithInsurance _ _ _ _) as [d | msg]; cbn [bind].
  - exists d. reflexivity.
  - cbn [is_Throw] in Hthrow. apply Qle_not_lt in Hge. exfalso. apply Hge.
    apply Hthrow. reflexivity.
Qed.

Lemma other_principal_accepted :
  exists insuranceDetails,
    calculateAmortizationSchedule pow_approx params_other_principal
    = Ok (buildSchedule pow_approx params_other_principal insuranceDetails).
Proof. apply schedule_accepted; discriminate. Qed.

Lemma ledger_numbers_and_dates_witness :
  exists s,
    calculateAmortizationSchedule pow_approx params_other_principal = Ok s /\
    forall e, nth_error (payments s) 0 = Some e ->
              pd_paymentDate e = startDate params_other_principal.
Proof.
  destruct other_principal_accepted as (d & Hok).
  eexists. split; [exact Hok |].
  apply (ledger_numbers_and_dates pow_approx params_other_principal _ Hok).
Defined.

Lemma interest_charged_on_balance_before_witness :
  exists s,
    calculateAmortizationSchedule pow_approx params_other_principal = Ok s /\
    forall i e, nth_error (payments s) i = Some e ->
      0.01 < balanceBefore (principal params_other_principal) (payments s) i.
Proof.
  destruct other_principal_accepted as (d & Hok).
  eexists. split; [exact Hok |]. intros i e He.
  apply (interest_charged_on_balance_before pow_approx params_other_principal _ Hok) with e.
  exact He.
Defined.

Lemma ledger_conserves_principal_witness :
  exists s,
    calculateAmortizationSchedule pow_approx params_other_principal = Ok s /\
    1000 == sumPrincipal (payments s) + sumAdditional (payments s)
            + lastBalance 1000 (payments s).
Proof.
  destruct other_principal_accepted as (d & Hok).
  eexists. split; [exact Hok |].
  apply (ledger_conserves_principal pow_approx params_other_principal _ Hok).
Defined.

Lemma payments_never_exceed_balance_witness :
  exists s,
    calculateAmortizationSchedule pow_approx params_other_principal = Ok s /\
    forall i e, nth_error (payments s) i = Some e ->
      pd_principal e <= balanceBefore 1000 (payments s) i.
Proof.
  destruct other_principal_accepted as (d & Hok).
  eexists. split; [exact Hok |]. intros i e He.
  apply (payments_never_exceed_balance pow_approx params_other_principal _ Hok i e He).
Defined.

Lemma schedule_totals_are_ledger_sums_witness :
  exists s,
    calculateAmortizationSchedule pow_approx params_other_principal = Ok s /\
    totalInterest s == sumInterest (payments s).
Proof.
  destruct other_principal_accepted as (d & Hok).
  eexists. split; [exact Hok |].
  apply (schedule_totals_are_ledger_sums pow_approx params_other_principal _ Hok).
Defined.

Lemma entry_is_in_the_window_of_its_period_witness :
  exists s,
    calculateAmortizationSchedule pow_approx params_other_principal = Ok s /\
    Forall (inWindow (sortPeriods (renewalPeriods params_other_principal))) (payments s).
Proof.
  destruct other_principal_accepted as (d & Hok).
  eexists. split; [exact Hok |].
  apply (entry_is_in_the_window_of_its_period pow_approx params_other_principal _ Hok).
  intros term Hterm. cbn in Hterm. injection Hterm as <-. reflexivity.
Defined.

Lemma violations_are_the_flagged_entries_witness :
  exists s,
    calculateAmortizationSchedule pow_approx params_other_principal = Ok s /\
    sm_prepaymentLimitViolations (summary s) = None.
Proof.
  destruct other_principal_accepted as (d & Hok).
  eexists. split; [exact Hok |].
  apply (violations_are_the_flagged_entries pow_approx params_other_principal _ Hok).
Defined.

Lemma accelerated_bi_weekly_is_bi_weekly_witness :
  exists s,
    calculateAmortizationSchedule pow_approx
      (withFrequency accelerated_bi_weekly params_other_principal) = Ok s /\
    calculateAmortizationSchedule pow_approx
      (withFrequency bi_weekly params_other_principal) = Ok (reportFrequency bi_weekly s).
Proof.
  destruct (schedule_accepted pow_approx
              (withFrequency accelerated_bi_weekly params_other_principal))
    as (d & Hok); [discriminate | discriminate |].
  eexists. split; [exact Hok |].
  apply (accelerated_bi_weekly_is_bi_weekly pow_approx params_other_principal _ Hok).
Defined.

Lemma limits_only_flag_witness :
  exists s,
    calculateAmortizationSchedule pow_approx
      (withLimits (prepaymentLimits params_limits) params_other_principal) = Ok s /\
    calculateAmortizationSchedule pow_approx (withLimits None params_other_principal)
    = Ok (withoutFlags s).
Proof.
  destruct (schedule_accepted pow_approx
              (withLimits (prepaymentLimits params_limits) params_other_principal))
    as (d & Hok); [discriminate | discriminate |].
  eexists. split; [exact Hok |].
  apply (limits_only_flag pow_approx params_other_principal _ _ Hok).
Defined.

Lemma order_of_periods_is_irrelevant_witness :
  calculateAmortizationSchedule pow_approx
    (withPeriods (rev (renewalPeriods params_two_terms)) params_two_terms)
  = calculateAmortizationSchedule pow_approx params_two_terms.
Proof.
  apply (order_of_periods_is_irrelevant pow_approx params_two_terms).
  - apply perm_swap.
  - repeat constructor; cbn; intros H; repeat destruct H as [H | H]; try discriminate H;
      contradiction.
Defined.

Lemma time_saved_is_not_negative_witness :
  exists s,
    calculateAmortizationSchedule pow_approx params_other_principal = Ok s /\
    0 <= sm_timeSaved (summary s).
Proof.
  destruct other_principal_accepted as (d & Hok).
  eexists. split; [exact Hok |].
  apply (time_saved_is_not_negative pow_approx params_other_principal _ 1%Z Hok).
  - reflexivity.
  - lia.
  - repeat constructor; vm_compute; discriminate.
Defined.

Lemma larger_down_payment_finances_less_witness :
  exists d d',
    calculateMortgageWithInsurance 625000 10 0 0 = Ok d /\
    calculateMortgageWithInsurance 625000 20 0 0 = Ok d' /\
    ins_totalPrincipal d' <= ins_totalPrincipal d.
Proof.
  eexists. eexists. split; [reflexivity |]. split; [reflexivity |].
  apply (larger_down_payment_finances_less 625000 0 0 10 20 _ _ eq_refl eq_refl);
    discriminate.
Defined.

Lemma no_interest_at_rate_zero_witness :
  exists s,
    calculateAmortizationSchedule pow_approx params_other_principal = Ok s /\
    totalInterest s == 0.
Proof.
  destruct other_principal_accepted as (d & Hok).
  eexists. split; [exact Hok |].
  apply (no_interest_at_rate_zero pow_approx pow_approx_one params_other_principal _ Hok).
  repeat constructor.
Defined.

Lemma empty_ledger_for_a_paid_principal_witness :
  exists s,
    calculateAmortizationSchedule pow_approx params_nothing_owed = Ok s /\
    payments s = [].
Proof.
  destruct (schedule_accepted pow_approx params_nothing_owed) as (d & Hok);
    [discriminate | discriminate |].
  eexists. split; [exact Hok |].
  apply (empty_ledger_for_a_paid_principal pow_approx params_nothing_owed _ Hok).
  discriminate.
Defined.

Lemma saved_profile_is_stored_witness :
  saveProfile encodeProfiles decodeProfiles 1705399200000 "p0o9i8u7y"
    "2024-01-16T10:00:00.000Z" "2024-01-16T10:00:00.000Z"
    {| in_name := "Cottage"; in_data := tt |} nullStored = Throws TypeError /\
  exists saved storage',
    saveProfile encodeProfiles decodeProfiles 1705399200000 "p0o9i8u7y"
      "2024-01-16T10:00:00.000Z" "2024-01-16T10:00:00.000Z"
      {| in_name := "Cottage"; in_data := tt |} oneProfileStored = Returns (saved, storage') /\
    getProfile decodeProfiles "1705399200000-p0o9i8u7y" storage' = Returns (Some saved).
Proof.
  split.
  - apply (saved_profile_is_stored unit encodeProfiles decodeProfiles
             decodeProfiles_encodeProfiles encodeProfiles_nonempty).
    reflexivity.
  - destruct (saved_profile_is_stored unit encodeProfiles decodeProfiles
                decodeProfiles_encodeProfiles encodeProfiles_nonempty
                1705399200000 "p0o9i8u7y" "2024-01-16T10:00:00.000Z"
                "2024-01-16T10:00:00.000Z" {| in_name := "Cottage"; in_data := tt |}
                oneProfileStored) as [_ Harray].
    destruct (Harray _ eq_refl) as (saved & storage' & Hsave & Hsaved & _ & _ & Hfresh & _).
    exists saved, storage'. split; [exact Hsave |].
    rewrite Hsaved in Hfresh |- *. apply Hfresh. reflexivity.
Defined.

Lemma deleted_profile_is_gone_witness :
  deleteProfile encodeProfiles decodeProfiles "1705312800000-k3j9x2m1q" nullStored
  = Throws TypeError /\
  exists storage',
    deleteProfile encodeProfiles decodeProfiles "1705312800000-k3j9x2m1q" oneProfileStored
    = Returns (true, storage') /\
    getProfiles decodeProfiles storage' = ProfilesArray [].
Proof.
  split.
  - apply (deleted_profile_is_gone unit encodeProfiles decodeProfiles
             decodeProfiles_encodeProfiles encodeProfiles_nonempty).
    reflexivity.
  - destruct (deleted_profile_is_gone unit encodeProfiles decodeProfiles
                decodeProfiles_encodeProfiles encodeProfiles_nonempty
                "1705312800000-k3j9x2m1q" oneProfileStored) as [_ Harray].
    destruct (Harray _ eq_refl) as (deleted & storage' & Hdelete & Hiff & _ & Htrue & _).
    destruct deleted.
    + exists storage'. split; [exact Hdelete |].
      destruct (Htrue eq_refl) as (Hlist & _). rewrite Hlist. reflexivity.
    + assert (Hnone : find (hasId "1705312800000-k3j9x2m1q")
                        [ {| mp_id := "1705312800000-k3j9x2m1q"; mp_name := "Home";
                             mp_createdAt := "2024-01-15T10:00:00.000Z";
                             mp_updatedAt := "2024-01-15T10:00:00.000Z";
                             mp_data := tt |} ] = None) by (apply Hiff; reflexivity).
      discriminate Hnone.
Defined.

Lemma updated_profile_is_replaced_witness :
  updateProfile encodeProfiles decodeProfiles "2024-02-01T08:30:00.000Z"
    "1705312800000-k3j9x2m1q"
    {| up_name := Some "First home"%string; up_updatedAt := None; up_data := None |}
    nullStored = Throws TypeError /\
  exists updated storage',
    updateProfile encodeProfiles decodeProfiles "2024-02-01T08:30:00.000Z"
      "1705312800000-k3j9x2m1q"
      {| up_name := Some "First home"%string; up_updatedAt := None; up_data := None |}
      oneProfileStored = Returns (Some updated, storage') /\
    mp_name updated = "First home"%string /\
    mp_createdAt updated = "2024-01-15T10:00:00.000Z"%string /\
    getProfile decodeProfiles "1705312800000-k3j9x2m1q" storage' = Returns (Some updated).
Proof.
  split.
  - apply (updated_profile_is_replaced unit encodeProfiles decodeProfiles
             decodeProfiles_encodeProfiles encodeProfiles_nonempty).
    reflexivity.
  - destruct (updated_profile_is_replaced unit encodeProfiles decodeProfiles
                decodeProfiles_encodeProfiles encodeProfiles_nonempty
                "2024-02-01T08:30:00.000Z" "1705312800000-k3j9x2m1q"
                {| up_name := Some "First home"%string; up_updatedAt := None;
                   up_data := None |} oneProfileStored) as [_ Harray].
    destruct (Harray _ eq_refl) as (result & storage' & Hupdate & _ & Hsome & _).
    destruct (Hsome _ eq_refl) as (Hresult & _ & _ & _ & Hlookup & _).
    rewrite Hresult in Hupdate.
    eexists. exists storage'. split; [exact Hupdate |].
    split; [reflexivity |]. split; [reflexivity | exact Hlookup].
Defined.

Lemma save_then_delete_restores_witness :
  getProfiles decodeProfiles (clearAllProfiles oneProfileStored) = ProfilesArray [] /\
  exists saved storage1 storage2,
    saveProfile encodeProfiles decodeProfiles 1705399200000 "p0o9i8u7y"
      "2024-01-16T10:00:00.000Z" "2024-01-16T10:00:00.000Z"
      {| in_name := "Cottage"; in_data := tt |} oneProfileStored = Returns (saved, storage1) /\
    deleteProfile encodeProfiles decodeProfiles (mp_id saved) storage1 = Returns (true, storage2) /\
    getProfiles decodeProfiles storage2 = getProfiles decodeProfiles oneProfileStored.
Proof.
  pose proof (save_then_delete_restores unit encodeProfiles decodeProfiles
                decodeProfiles_encodeProfiles encodeProfiles_nonempty
                1705399200000 "p0o9i8u7y" "2024-01-16T10:00:00.000Z"
                "2024-01-16T10:00:00.000Z" {| in_name := "Cottage"; in_data := tt |}
                oneProfileStored) as (Hround & _ & _ & Hclear & _).
  split; [exact Hclear |].
  destruct (Hround eq_refl) as (saved & storage1 & storage2 & Hsave & Hdelete & Hlist & _).
  exists saved, storage1, storage2.
  split; [exact Hsave |]. split; [exact Hdelete | exact Hlist].
Defined.


